(** * event-pull: the event pool of [lib/pool.js]

    A shallow embedding of [EventPool], the rendezvous between emitters
    and pulling recipients, in its two revisions:

    - [Pool]   : the revision with options ([emitWithOptions], [emit],
                 [emitAndWait], [pull], capacity and timeouts);
    - [Legacy] : the first revision ([emit], [pull] with
                 [waitForResolution], signal ["fetched"]).

    JavaScript runs every piece of code to completion on one thread.  The
    embedding therefore splits each method into the jobs the engine runs:
    the synchronous body of a call, the reactions of its promises (the
    microtask queue, first in first out), and the callbacks of timers
    (macrotasks, run only when no microtask is left).  Closures are
    defunctionalised: a listener, a timer callback or a promise reaction
    is a constructor naming the code it runs and the call it belongs to. *)

From Stdlib Require Import ZArith List Lia Bool.
From stdpp Require Import base option list gmap strings.

Local Open Scope Z_scope.
Local Open Scope nat_scope.

(** ** JavaScript values and numbers *)

(** Values passed by callers: recipient ids, event names, arguments and
    payloads of signals. *)
Inductive jsval : Type :=
| VUndefined
| VNull
| VBool (b : bool)
| VNum (n : Z)
| VStr (s : string)
| VObj (ref : nat).

Global Instance jsval_eq_dec : EqDecision jsval.
Proof. solve_decision. Defined.

(** [!v] is false on truthy values. *)
Definition truthy (v : jsval) : bool :=
  match v with
  | VUndefined | VNull => false
  | VBool b => b
  | VNum n => negb (n =? 0)%Z
  | VStr s => negb (String.eqb s "")
  | VObj _ => true
  end.

(** [typeof v === "string"]. *)
Definition typeof_string (v : jsval) : bool :=
  match v with VStr _ => true | _ => false end.

(** The guard both methods start with:
    [!recipientId || typeof recipientId !== "string"]. *)
Definition invalid_recipient (recipientId : jsval) : bool :=
  negb (truthy recipientId) || negb (typeof_string recipientId).

(** The key under which a recipient that passed the guard is filed. *)
Definition recipient_key (recipientId : jsval) : option string :=
  if invalid_recipient recipientId then None
  else match recipientId with VStr s => Some s | _ => None end.

(** Limits and durations: an integer or [Infinity]. *)
Inductive num : Type :=
| Fin (z : Z)
| Infinity.

Global Instance num_eq_dec : EqDecision num.
Proof. solve_decision. Defined.

(** [len >= m] for an array length [len]. *)
Definition length_ge (len : nat) (m : num) : bool :=
  match m with
  | Fin z => (z <=? Z.of_nat len)%Z
  | Infinity => false
  end.

(** [t > 0 && t < Infinity]. *)
Definition positive_finite (t : num) : bool :=
  match t with
  | Fin z => (0 <? z)%Z
  | Infinity => false
  end.

(** ** Options *)

Record Options : Type := {
  maxPendingEvents : num;
  pendingTimeout : num;
  handlingTimeout : num;
  waitForHandlers : bool
}.

(** [DefaultOptions]; it has no key [waitForHandlers], which reads as
    [undefined], that is false. *)
Definition DefaultOptions : Options :=
  {| maxPendingEvents := Fin 100;
     pendingTimeout := Infinity;
     handlingTimeout := Infinity;
     waitForHandlers := false |}.

(** An options object given by a caller: every key may be absent. *)
Record Overrides : Type := {
  o_maxPendingEvents : option num;
  o_pendingTimeout : option num;
  o_handlingTimeout : option num;
  o_waitForHandlers : option bool
}.

Definition no_overrides : Overrides :=
  {| o_maxPendingEvents := None; o_pendingTimeout := None;
     o_handlingTimeout := None; o_waitForHandlers := None |}.

(** [Object.assign( {}, base, o || {} )]. *)
Definition assign (base : Options) (o : Overrides) : Options :=
  {| maxPendingEvents := default (maxPendingEvents base) (o_maxPendingEvents o);
     pendingTimeout := default (pendingTimeout base) (o_pendingTimeout o);
     handlingTimeout := default (handlingTimeout base) (o_handlingTimeout o);
     waitForHandlers := default (waitForHandlers base) (o_waitForHandlers o) |}.

(** ** Errors, signals and promises *)

Inductive Error : Type :=
| InvalidRecipient              (* TypeError "invalid recipient ID" *)
| ENOMEM (recipient : string)   (* "too many pending events ...", code ENOMEM *)
| ETIMEDOUT (message : string)  (* onTimeout of emitWithOptions, code ETIMEDOUT *)
| PullTimeout                   (* the error the timer of pull rejects with *)
| Failure (payload : jsval)     (* the value signalled with "failed" *)
| NoEvent.                      (* TypeError: property of undefined, after shift() on [] *)

Global Instance Error_eq_dec : EqDecision Error.
Proof. solve_decision. Defined.

(** The Node.js events the pool listens to or emits on a record. *)
Inductive Signal : Type :=
| Fetched
| Pulled
| Handled
| Failed.

Global Instance Signal_eq_dec : EqDecision Signal.
Proof. solve_decision. Defined.

Inductive PState (A : Type) : Type :=
| Pending
| Fulfilled (v : A)
| Rejected (e : Error).
Arguments Pending {A}.
Arguments Fulfilled {A} v.
Arguments Rejected {A} e.

Definition is_pending {A} (p : PState A) : bool :=
  match p with Pending => true | _ => false end.

(** What a call hands back: a promise rejected from the start, the
    promise of the emit call that created record [id], or the promise of
    the pull call numbered [q]. *)
Inductive Handle : Type :=
| HRejected (e : Error)
| HEmit (id : nat)
| HPull (q : nat).

(** A call either returns a handle or throws. *)
Inductive Outcome : Type :=
| Returned (h : Handle)
| Threw (e : Error).

(** * The revision with options *)

Module Pool.

(** ** Records of the pool *)

(** Modelled from the spec: the class [Event] ([lib/event.js]) is not part
    of the sources at hand.  A record has an identifier assigned at
    creation, the name and the argument list it was emitted with, and the
    effective options captured at emit time; the pool reads these and is
    otherwise concerned with the record's Node.js listeners only, which
    live in the world below. *)
Record Event : Type := {
  id : nat;
  name : jsval;
  arguments : list jsval;
  options : Options
}.

(** Modelled from the spec: [new Event( eventName, eventArguments, options )];
    the identifier is unique, here the next one of a counter. *)
Definition new_Event (fresh : nat) (eventName : jsval)
    (eventArguments : list jsval) (opts : Options) : Event :=
  {| id := fresh; name := eventName; arguments := eventArguments; options := opts |}.

(** Modelled from the spec: [event.waitForHandlers], as [pull] reads it, is
    whether the record's effective options ask to wait for "handled". *)
Definition event_waitForHandlers (event : Event) : bool :=
  waitForHandlers (options event).

(** Reactions waiting in the microtask queue. *)
Inductive Job : Type :=
| JRaceResolve (q : nat)             (* Promise.race sees the notifier promise fulfilled *)
| JRaceReject (q : nat) (e : Error)  (* Promise.race sees the timer promise rejected *)
| JThen (q : nat)                    (* the callback given to .then in pull *)
| JThenSkip (q : nat) (e : Error)    (* .then has no rejection handler: pass on *)
| JCatch (q : nat) (e : Error)       (* the callback given to .catch in pull *)
| JCatchSkip (q : nat) (ev : Event)  (* .catch passes a fulfilment on *)
| JEmitCatch (p : nat)               (* promise.catch( () => {} ) in emitWithOptions *)
| JEmitThen (p : nat).               (* .then( () => { clearTimeout ... } ) *)

(** Listeners installed with [event.once]. *)
Inductive Listener : Type :=
| LResolve (p : nat)                 (* resolve of the emitter's promise *)
| LReject (p : nat)                  (* reject of the emitter's promise *)
| LClearPendingTimer (p : nat)       (* () => clearTimeout( pendingTimer ) *)
| LArmHandlingTimer (p : nat) (delay : num)
                                     (* () => { handlingTimer = setTimeout( ... ) } *)
| LActiveDelete (r : string) (i : nat). (* () => active.delete( event.id ) *)

(** Callbacks of [setTimeout], with the delay they were armed with. *)
Inductive TimerAction : Type :=
| TEmitTimeout (p : nat) (message : string) (delay : num)  (* onTimeout( message ) *)
| TPullTimeout (q : nat) (delay : Z).       (* reject( error ) of pull's timer promise *)

(** The queue stub of one recipient.  [waitingSoNotify] holds the pull
    call whose notifier is installed. *)
Record Stub : Type := {
  active : gmap nat Event;
  pending : list Event;
  waitingSoNotify : option nat
}.

(** [{ active: new Map(), pending: [] }]. *)
Definition new_Stub : Stub :=
  {| active := ∅; pending := []; waitingSoNotify := None |}.

(** [this.queues] and [this.options]. *)
Record EventPool : Type := {
  queues : gmap string Stub;
  poolOptions : Options
}.

(** What one call of [emitWithOptions] closes over: the record (also
    exposed as [promise.event]), its promise and the variables
    [pendingTimer] and [handlingTimer]; [target] is the argument
    [recipientId]. *)
Record EmitCall : Type := {
  event : Event;
  target : string;
  promise : PState jsval;
  pendingTimer : option nat;
  handlingTimer : option nat
}.

Definition with_promise (st : PState jsval) (c : EmitCall) : EmitCall :=
  {| event := event c; target := target c; promise := st;
     pendingTimer := pendingTimer c; handlingTimer := handlingTimer c |}.

Definition with_pendingTimer (t : option nat) (c : EmitCall) : EmitCall :=
  {| event := event c; target := target c; promise := promise c;
     pendingTimer := t; handlingTimer := handlingTimer c |}.

Definition with_handlingTimer (t : option nat) (c : EmitCall) : EmitCall :=
  {| event := event c; target := target c; promise := promise c;
     pendingTimer := pendingTimer c; handlingTimer := t |}.

(** What one call of [pull] closes over: the stub (by its key), whether
    the notifier's promise is fulfilled, the promise [.then] is chained
    on ([Promise.resolve()] or the race) and the promise handed back. *)
Record PullCall : Type := {
  recipient : string;
  notified : bool;
  waited : PState unit;
  result : PState Event
}.

(** The pool together with the part of the JavaScript heap and event loop
    its code acts on.  Records are referred to by their identifiers;
    calls of [emitWithOptions] share the number of the record they
    create.  [history] is a ghost log of the signals emitted on records. *)
Record World : Type := {
  pool : EventPool;
  nextId : nat;
  listeners : gmap nat (list (Signal * Listener));
  emits : gmap nat EmitCall;
  pulls : gmap nat PullCall;
  nextPull : nat;
  timers : gmap nat TimerAction;
  nextTimer : nat;
  jobs : list Job;
  history : list (nat * Signal)
}.

(** [new EventPool( options )]. *)
Definition constructor (opts : Overrides) : World :=
  {| pool := {| queues := ∅; poolOptions := assign DefaultOptions opts |};
     nextId := 0; listeners := ∅; emits := ∅; pulls := ∅; nextPull := 0;
     timers := ∅; nextTimer := 0; jobs := []; history := [] |}.

(** ** Field updates *)

Definition set_queues (f : gmap string Stub → gmap string Stub) (w : World) : World :=
  {| pool := {| queues := f (queues (pool w)); poolOptions := poolOptions (pool w) |};
     nextId := nextId w; listeners := listeners w; emits := emits w;
     pulls := pulls w; nextPull := nextPull w; timers := timers w;
     nextTimer := nextTimer w; jobs := jobs w; history := history w |}.

Definition set_listeners
    (f : gmap nat (list (Signal * Listener)) → gmap nat (list (Signal * Listener)))
    (w : World) : World :=
  {| pool := pool w; nextId := nextId w; listeners := f (listeners w);
     emits := emits w; pulls := pulls w; nextPull := nextPull w;
     timers := timers w; nextTimer := nextTimer w; jobs := jobs w;
     history := history w |}.

Definition set_emits (f : gmap nat EmitCall → gmap nat EmitCall) (w : World) : World :=
  {| pool := pool w; nextId := nextId w; listeners := listeners w;
     emits := f (emits w); pulls := pulls w; nextPull := nextPull w;
     timers := timers w; nextTimer := nextTimer w; jobs := jobs w;
     history := history w |}.

Definition set_pulls (f : gmap nat PullCall → gmap nat PullCall) (w : World) : World :=
  {| pool := pool w; nextId := nextId w; listeners := listeners w;
     emits := emits w; pulls := f (pulls w); nextPull := nextPull w;
     timers := timers w; nextTimer := nextTimer w; jobs := jobs w;
     history := history w |}.

Definition set_timers (f : gmap nat TimerAction → gmap nat TimerAction) (w : World) : World :=
  {| pool := pool w; nextId := nextId w; listeners := listeners w;
     emits := emits w; pulls := pulls w; nextPull := nextPull w;
     timers := f (timers w); nextTimer := nextTimer w; jobs := jobs w;
     history := history w |}.

Definition set_jobs (f : list Job → list Job) (w : World) : World :=
  {| pool := pool w; nextId := nextId w; listeners := listeners w;
     emits := emits w; pulls := pulls w; nextPull := nextPull w;
     timers := timers w; nextTimer := nextTimer w; jobs := f (jobs w);
     history := history w |}.

Definition set_history (f : list (nat * Signal) → list (nat * Signal)) (w : World) : World :=
  {| pool := pool w; nextId := nextId w; listeners := listeners w;
     emits := emits w; pulls := pulls w; nextPull := nextPull w;
     timers := timers w; nextTimer := nextTimer w; jobs := jobs w;
     history := f (history w) |}.

Definition bump_nextId (w : World) : World :=
  {| pool := pool w; nextId := S (nextId w); listeners := listeners w;
     emits := emits w; pulls := pulls w; nextPull := nextPull w;
     timers := timers w; nextTimer := nextTimer w; jobs := jobs w;
     history := history w |}.

Definition bump_nextPull (w : World) : World :=
  {| pool := pool w; nextId := nextId w; listeners := listeners w;
     emits := emits w; pulls := pulls w; nextPull := S (nextPull w);
     timers := timers w; nextTimer := nextTimer w; jobs := jobs w;
     history := history w |}.

Definition bump_nextTimer (w : World) : World :=
  {| pool := pool w; nextId := nextId w; listeners := listeners w;
     emits := emits w; pulls := pulls w; nextPull := nextPull w;
     timers := timers w; nextTimer := S (nextTimer w); jobs := jobs w;
     history := history w |}.

(** ** The heap and the event loop *)

(** [this.queues[r]] once the stub exists. *)
Definition stub_of (r : string) (w : World) : Stub :=
  default new_Stub (queues (pool w) !! r).

(** [if ( !this.queues.hasOwnProperty( r ) ) this.queues[r] = { ... }].
    The object [queues] is read as a finite map on its own keys. *)
Definition ensure_stub (r : string) (w : World) : World :=
  match queues (pool w) !! r with
  | Some _ => w
  | None => set_queues (insert r new_Stub) w
  end.

Definition set_pending (r : string) (l : list Event) (w : World) : World :=
  set_queues (alter (λ s, {| active := active s; pending := l;
                             waitingSoNotify := waitingSoNotify s |}) r) w.

Definition set_active (r : string) (f : gmap nat Event → gmap nat Event) (w : World) : World :=
  set_queues (alter (λ s, {| active := f (active s); pending := pending s;
                             waitingSoNotify := waitingSoNotify s |}) r) w.

Definition set_waitingSoNotify (r : string) (n : option nat) (w : World) : World :=
  set_queues (alter (λ s, {| active := active s; pending := pending s;
                             waitingSoNotify := n |}) r) w.

(** Appends a reaction to the microtask queue. *)
Definition enqueue (j : Job) (w : World) : World := set_jobs (λ l, l ++ [j]) w.

(** [setTimeout( callback, delay )]: the timer gets the next handle. *)
Definition setTimeout (a : TimerAction) (w : World) : World :=
  bump_nextTimer (set_timers (insert (nextTimer w) a) w).

(** [clearTimeout( handle )]; [null] clears nothing. *)
Definition clearTimeout (h : option nat) (w : World) : World :=
  match h with
  | Some t => set_timers (delete t) w
  | None => w
  end.

(** [event.once( s, l )]. *)
Definition once (i : nat) (s : Signal) (l : Listener) (w : World) : World :=
  set_listeners (λ m, <[i := default [] (m !! i) ++ [(s, l)]]> m) w.

(** [resolve] or [reject] of the promise of emit call [p]: a settled
    promise stays as it is; settling schedules the reaction of
    [promise.catch( ... )]. *)
Definition settle (p : nat) (st : PState jsval) (w : World) : World :=
  match emits w !! p with
  | Some c =>
      if is_pending (promise c) then
        enqueue (JEmitCatch p) (set_emits (insert p (with_promise st c)) w)
      else w
  | None => w
  end.

Definition Signal_eqb (a b : Signal) : bool := bool_decide (a = b).

(** One listener invoked with the payload of the signal. *)
Definition run_listener (payload : jsval) (l : Listener) (w : World) : World :=
  match l with
  | LResolve p => settle p (Fulfilled payload) w
  | LReject p => settle p (Rejected (Failure payload)) w
  | LClearPendingTimer p =>
      clearTimeout (c ← emits w !! p; pendingTimer c) w
  | LArmHandlingTimer p delay =>
      let t := nextTimer w in
      set_emits (alter (with_handlingTimer (Some t)) p)
        (setTimeout (TEmitTimeout p "event handling timed otu" delay) w)
  | LActiveDelete r i => set_active r (delete i) w
  end.

Fixpoint run_listeners (payload : jsval) (ls : list Listener) (w : World) : World :=
  match ls with
  | [] => w
  | l :: ls => run_listeners payload ls (run_listener payload l w)
  end.

(** [event.emit( s, payload )] on record [i]: every listener was installed
    with [once], so those of [s] are removed and called in the order they
    were installed. *)
Definition signal (i : nat) (s : Signal) (payload : jsval) (w : World) : World :=
  let all := default [] (listeners w !! i) in
  let called := List.filter (λ x, Signal_eqb (fst x) s) all in
  let kept := List.filter (λ x, negb (Signal_eqb (fst x) s)) all in
  run_listeners payload (map snd called)
    (set_history (λ h, h ++ [(i, s)])
       (set_listeners (alter (λ _, kept) i) w)).

(** ** The methods *)

(** The notifier [pull] installs:
    [arg => { stub.waitingSoNotify = null; resolve( arg ); }]. *)
Definition call_notifier (q : nat) (w : World) : World :=
  match pulls w !! q with
  | Some c =>
      let w := set_waitingSoNotify (recipient c) None w in
      if notified c then w
      else enqueue (JRaceResolve q)
             (set_pulls (insert q {| recipient := recipient c; notified := true;
                                     waited := waited c; result := result c |}) w)
  | None => w
  end.

(** The executor of the promise [emitWithOptions] returns, for the record
    [event]: listeners first, then the pending timer and the listener
    arming the handling timer. *)
Definition emit_executor (r : string) (event : Event) (w : World) : World :=
  let i := id event in
  let resolvingEvent := if waitForHandlers (options event) then Handled else Pulled in
  let w := set_emits (insert i {| event := event; target := r; promise := Pending;
                                  pendingTimer := None; handlingTimer := None |}) w in
  let w := once i resolvingEvent (LResolve i) w in
  let w := once i Failed (LReject i) w in
  let w :=
    if positive_finite (pendingTimeout (options event)) then
      let t := nextTimer w in
      let w := setTimeout (TEmitTimeout i "pending event timed out"
                             (pendingTimeout (options event))) w in
      let w := set_emits (alter (with_pendingTimer (Some t)) i) w in
      once i Pulled (LClearPendingTimer i) w
    else w in
  if waitForHandlers (options event) && positive_finite (handlingTimeout (options event))
  then once i Pulled (LArmHandlingTimer i (handlingTimeout (options event))) w
  else w.

Definition emitWithOptions (recipientId eventName : jsval)
    (eventArguments : list jsval) (opts : Overrides) (w : World) : Outcome * World :=
  match recipient_key recipientId with
  | None => (Returned (HRejected InvalidRecipient), w)
  | Some r =>
      let w := ensure_stub r w in
      let stub := stub_of r w in
      if length_ge (length (pending stub)) (maxPendingEvents (poolOptions (pool w)))
      then (Returned (HRejected (ENOMEM r)), w)
      else
        let event := new_Event (nextId w) eventName eventArguments
                       (assign (poolOptions (pool w)) opts) in
        let w := bump_nextId w in
        let w := set_pending r (pending stub ++ [event]) w in
        let w := match waitingSoNotify (stub_of r w) with
                 | Some q => call_notifier q w
                 | None => w
                 end in
        (Returned (HEmit (id event)), emit_executor r event w)
  end.

Definition emit (recipientId eventName : jsval) (eventArguments : list jsval)
    (w : World) : Outcome * World :=
  emitWithOptions recipientId eventName eventArguments no_overrides w.

Definition emitAndWait (recipientId eventName : jsval) (eventArguments : list jsval)
    (w : World) : Outcome * World :=
  emitWithOptions recipientId eventName eventArguments
    {| o_maxPendingEvents := None; o_pendingTimeout := None;
       o_handlingTimeout := None; o_waitForHandlers := Some true |} w.

(** The synchronous part of [pull]: with a record pending the callback of
    [.then] is queued on [Promise.resolve()]; otherwise the notifier is
    installed, the timer armed, and the callback waits for the race. *)
Definition pull (recipientId : jsval) (timeout : Z) (w : World) : Outcome * World :=
  match recipient_key recipientId with
  | None => (Returned (HRejected InvalidRecipient), w)
  | Some r =>
      let w := ensure_stub r w in
      let q := nextPull w in
      if (0 <? length (pending (stub_of r w)))%nat then
        (Returned (HPull q),
         enqueue (JThen q)
           (bump_nextPull
              (set_pulls (insert q {| recipient := r; notified := false;
                                      waited := Fulfilled (); result := Pending |}) w)))
      else
        (Returned (HPull q),
         setTimeout (TPullTimeout q timeout)
           (set_waitingSoNotify r (Some q)
              (bump_nextPull
                 (set_pulls (insert q {| recipient := r; notified := false;
                                         waited := Pending; result := Pending |}) w))))
  end.

(** The callback of [.then] in [pull]. *)
Definition pull_then (q : nat) (w : World) : World :=
  match pulls w !! q with
  | Some c =>
      let r := recipient c in
      let w := set_waitingSoNotify r None w in
      match pending (stub_of r w) with
      | [] => enqueue (JCatch q NoEvent) w
      | event :: rest =>
          let w := set_pending r rest w in
          let w :=
            if event_waitForHandlers event then
              once (id event) Handled (LActiveDelete r (id event))
                (set_active r (insert (id event) event) w)
            else w in
          let w := signal (id event) Pulled VUndefined w in
          enqueue (JCatchSkip q event) w
      end
  | None => w
  end.

(** The callback of [.catch] in [pull]; it throws the error again. *)
Definition pull_catch (q : nat) (e : Error) (w : World) : World :=
  match pulls w !! q with
  | Some c =>
      set_pulls (insert q {| recipient := recipient c; notified := notified c;
                             waited := waited c; result := Rejected e |})
        (set_waitingSoNotify (recipient c) None w)
  | None => w
  end.

(** Settles the promise [.then] is chained on, unless it is settled. *)
Definition settle_race (q : nat) (st : PState unit) (next : Job) (w : World) : World :=
  match pulls w !! q with
  | Some c =>
      if is_pending (waited c) then
        enqueue next
          (set_pulls (insert q {| recipient := recipient c; notified := notified c;
                                  waited := st; result := result c |}) w)
      else w
  | None => w
  end.

Definition run_job (j : Job) (w : World) : World :=
  match j with
  | JRaceResolve q => settle_race q (Fulfilled ()) (JThen q) w
  | JRaceReject q e => settle_race q (Rejected e) (JThenSkip q e) w
  | JThen q => pull_then q w
  | JThenSkip q e => enqueue (JCatch q e) w
  | JCatch q e => pull_catch q e w
  | JCatchSkip q ev =>
      set_pulls (alter (λ c, {| recipient := recipient c; notified := notified c;
                                waited := waited c; result := Fulfilled ev |}) q) w
  | JEmitCatch p => enqueue (JEmitThen p) w
  | JEmitThen p =>
      clearTimeout (c ← emits w !! p; handlingTimer c)
        (clearTimeout (c ← emits w !! p; pendingTimer c) w)
  end.

(** The callback of a timer. *)
Definition run_timer (a : TimerAction) (w : World) : World :=
  match a with
  | TEmitTimeout p message _ => settle p (Rejected (ETIMEDOUT message)) w
  | TPullTimeout q _ => enqueue (JRaceReject q PullTimeout) w
  end.

(** ** The event loop *)

(** What can happen next: a call of a method, a signal emitted on a record
    by its emitter or its recipient, a timer firing, or the first job of
    the microtask queue. *)
Inductive Label : Type :=
| CallEmitWithOptions (recipientId eventName : jsval) (eventArguments : list jsval)
    (opts : Overrides)
| CallEmit (recipientId eventName : jsval) (eventArguments : list jsval)
| CallEmitAndWait (recipientId eventName : jsval) (eventArguments : list jsval)
| CallPull (recipientId : jsval) (timeout : Z)
| Emit (i : nat) (s : Signal) (payload : jsval)
| Fire (t : nat)
| Tick.

(** A timer fires only when the microtask queue is empty and the timer is
    armed; a signal needs its record to exist. *)
Definition step (l : Label) (w : World) : option World :=
  match l with
  | CallEmitWithOptions r n a o => Some (snd (emitWithOptions r n a o w))
  | CallEmit r n a => Some (snd (emit r n a w))
  | CallEmitAndWait r n a => Some (snd (emitAndWait r n a w))
  | CallPull r t => Some (snd (pull r t w))
  | Emit i s payload =>
      if (i <? nextId w)%nat then Some (signal i s payload w) else None
  | Fire t =>
      match jobs w, timers w !! t with
      | [], Some a => Some (run_timer a (set_timers (delete t) w))
      | _, _ => None
      end
  | Tick =>
      match jobs w with
      | j :: rest => Some (run_job j (set_jobs (λ _, rest) w))
      | [] => None
      end
  end.

Fixpoint run (ls : list Label) (w : World) : option World :=
  match ls with
  | [] => Some w
  | l :: ls => w' ← step l w; run ls w'
  end.

(** The first job of the microtask queue, if there is one. *)
Definition tick (w : World) : World :=
  match jobs w with
  | j :: rest => run_job j (set_jobs (λ _, rest) w)
  | [] => w
  end.

(** A bound on the reactions a job can still cause: [JRaceResolve] leads
    to [JThen], this to [JCatchSkip] or [JCatch]; a promise of an emitter,
    once settled, costs [JEmitCatch] and [JEmitThen]. *)
Definition weight (j : Job) : nat :=
  match j with
  | JRaceResolve _ | JRaceReject _ _ => 4
  | JThen _ | JThenSkip _ _ => 3
  | JCatch _ _ | JCatchSkip _ _ => 1
  | JEmitCatch _ => 2
  | JEmitThen _ => 1
  end.

Definition unsettled (w : World) : nat :=
  size (filter (λ kv : nat * EmitCall, is_pending (promise (snd kv)) = true) (emits w)).

Definition fuel (w : World) : nat :=
  list_sum (map weight (jobs w)) + 2 * unsettled w.

(** The microtask queue run until it is empty, as the engine does before
    it turns to the next timer or request. *)
Definition drain (w : World) : World := Nat.iter (fuel w) tick w.

End Pool.

(** * The first revision *)

Module Legacy.

(** Modelled from the spec: a record as [new Event( eventName,
    eventArguments )] makes it, without options. *)
Record Event : Type := {
  id : nat;
  name : jsval;
  arguments : list jsval
}.

Definition new_Event (fresh : nat) (eventName : jsval)
    (eventArguments : list jsval) : Event :=
  {| id := fresh; name := eventName; arguments := eventArguments |}.

Inductive Job : Type :=
| JRaceResolve (q : nat)
| JRaceReject (q : nat) (e : Error)
| JThen (q : nat)
| JThenSkip (q : nat) (e : Error)
| JCatch (q : nat) (e : Error)
| JCatchSkip (q : nat) (ev : Event).

(** The only listeners are [resolve] and [reject] of an emitter's promise. *)
Inductive Listener : Type :=
| LResolve (p : nat)
| LReject (p : nat).

Record Stub : Type := {
  active : gmap nat Event;
  pending : list Event;
  waitingSoNotify : option nat
}.

Definition new_Stub : Stub :=
  {| active := ∅; pending := []; waitingSoNotify := None |}.

(** A call of [pull] also closes over its argument [waitForResolution]. *)
Record PullCall : Type := {
  recipient : string;
  waitForResolution : bool;
  notified : bool;
  waited : PState unit;
  result : PState Event
}.

(** [queues] is the pool; the rest is the heap and the event loop.  The
    only timers are those of [pull]: a timer maps to its call and delay. *)
Record World : Type := {
  queues : gmap string Stub;
  nextId : nat;
  listeners : gmap nat (list (Signal * Listener));
  emits : gmap nat (PState jsval);
  pulls : gmap nat PullCall;
  nextPull : nat;
  timers : gmap nat (nat * Z);
  nextTimer : nat;
  jobs : list Job
}.

(** [new EventPool()]. *)
Definition constructor : World :=
  {| queues := ∅; nextId := 0; listeners := ∅; emits := ∅; pulls := ∅;
     nextPull := 0; timers := ∅; nextTimer := 0; jobs := [] |}.

Definition set_queues (f : gmap string Stub → gmap string Stub) (w : World) : World :=
  {| queues := f (queues w); nextId := nextId w; listeners := listeners w;
     emits := emits w; pulls := pulls w; nextPull := nextPull w;
     timers := timers w; nextTimer := nextTimer w; jobs := jobs w |}.

Definition set_listeners
    (f : gmap nat (list (Signal * Listener)) → gmap nat (list (Signal * Listener)))
    (w : World) : World :=
  {| queues := queues w; nextId := nextId w; listeners := f (listeners w);
     emits := emits w; pulls := pulls w; nextPull := nextPull w;
     timers := timers w; nextTimer := nextTimer w; jobs := jobs w |}.

Definition set_emits (f : gmap nat (PState jsval) → gmap nat (PState jsval))
    (w : World) : World :=
  {| queues := queues w; nextId := nextId w; listeners := listeners w;
     emits := f (emits w); pulls := pulls w; nextPull := nextPull w;
     timers := timers w; nextTimer := nextTimer w; jobs := jobs w |}.

Definition set_pulls (f : gmap nat PullCall → gmap nat PullCall) (w : World) : World :=
  {| queues := queues w; nextId := nextId w; listeners := listeners w;
     emits := emits w; pulls := f (pulls w); nextPull := nextPull w;
     timers := timers w; nextTimer := nextTimer w; jobs := jobs w |}.

Definition set_timers (f : gmap nat (nat * Z) → gmap nat (nat * Z)) (w : World) : World :=
  {| queues := queues w; nextId := nextId w; listeners := listeners w;
     emits := emits w; pulls := pulls w; nextPull := nextPull w;
     timers := f (timers w); nextTimer := nextTimer w; jobs := jobs w |}.

Definition set_jobs (f : list Job → list Job) (w : World) : World :=
  {| queues := queues w; nextId := nextId w; listeners := listeners w;
     emits := emits w; pulls := pulls w; nextPull := nextPull w;
     timers := timers w; nextTimer := nextTimer w; jobs := f (jobs w) |}.

Definition bump_nextId (w : World) : World :=
  {| queues := queues w; nextId := S (nextId w); listeners := listeners w;
     emits := emits w; pulls := pulls w; nextPull := nextPull w;
     timers := timers w; nextTimer := nextTimer w; jobs := jobs w |}.

Definition bump_nextPull (w : World) : World :=
  {| queues := queues w; nextId := nextId w; listeners := listeners w;
     emits := emits w; pulls := pulls w; nextPull := S (nextPull w);
     timers := timers w; nextTimer := nextTimer w; jobs := jobs w |}.

Definition bump_nextTimer (w : World) : World :=
  {| queues := queues w; nextId := nextId w; listeners := listeners w;
     emits := emits w; pulls := pulls w; nextPull := nextPull w;
     timers := timers w; nextTimer := S (nextTimer w); jobs := jobs w |}.

Definition stub_of (r : string) (w : World) : Stub :=
  default new_Stub (queues w !! r).

Definition ensure_stub (r : string) (w : World) : World :=
  match queues w !! r with
  | Some _ => w
  | None => set_queues (insert r new_Stub) w
  end.

Definition set_pending (r : string) (l : list Event) (w : World) : World :=
  set_queues (alter (λ s, {| active := active s; pending := l;
                             waitingSoNotify := waitingSoNotify s |}) r) w.

Definition set_active (r : string) (f : gmap nat Event → gmap nat Event) (w : World) : World :=
  set_queues (alter (λ s, {| active := f (active s); pending := pending s;
                             waitingSoNotify := waitingSoNotify s |}) r) w.

Definition set_waitingSoNotify (r : string) (n : option nat) (w : World) : World :=
  set_queues (alter (λ s, {| active := active s; pending := pending s;
                             waitingSoNotify := n |}) r) w.

Definition enqueue (j : Job) (w : World) : World := set_jobs (λ l, l ++ [j]) w.

Definition once (i : nat) (s : Signal) (l : Listener) (w : World) : World :=
  set_listeners (λ m, <[i := default [] (m !! i) ++ [(s, l)]]> m) w.

(** [resolve] or [reject] of an emitter's promise; nothing is chained on it
    by the pool. *)
Definition settle (p : nat) (st : PState jsval) (w : World) : World :=
  match emits w !! p with
  | Some Pending => set_emits (insert p st) w
  | _ => w
  end.

Definition run_listener (payload : jsval) (l : Listener) (w : World) : World :=
  match l with
  | LResolve p => settle p (Fulfilled payload) w
  | LReject p => settle p (Rejected (Failure payload)) w
  end.

Fixpoint run_listeners (payload : jsval) (ls : list Listener) (w : World) : World :=
  match ls with
  | [] => w
  | l :: ls => run_listeners payload ls (run_listener payload l w)
  end.

Definition Signal_eqb (a b : Signal) : bool := bool_decide (a = b).

(** [event.emit( s, payload )]. *)
Definition signal (i : nat) (s : Signal) (payload : jsval) (w : World) : World :=
  let all := default [] (listeners w !! i) in
  let called := List.filter (λ x, Signal_eqb (fst x) s) all in
  let kept := List.filter (λ x, negb (Signal_eqb (fst x) s)) all in
  run_listeners payload (map snd called)
    (set_listeners (alter (λ _, kept) i) w).

(** The notifier is [resolve] itself: calling it leaves the slot as it is. *)
Definition call_notifier (q : nat) (w : World) : World :=
  match pulls w !! q with
  | Some c =>
      if notified c then w
      else enqueue (JRaceResolve q)
             (set_pulls (insert q {| recipient := recipient c;
                                     waitForResolution := waitForResolution c;
                                     notified := true;
                                     waited := waited c; result := result c |}) w)
  | None => w
  end.

Definition emit (recipientId eventName : jsval) (eventArguments : list jsval)
    (w : World) : Outcome * World :=
  match recipient_key recipientId with
  | None => (Threw InvalidRecipient, w)
  | Some r =>
      let w := ensure_stub r w in
      let stub := stub_of r w in
      let event := new_Event (nextId w) eventName eventArguments in
      let w := bump_nextId w in
      let w := set_pending r (pending stub ++ [event]) w in
      let w := match waitingSoNotify (stub_of r w) with
               | Some q => call_notifier q w
               | None => w
               end in
      let w := set_emits (insert (id event) Pending) w in
      let w := once (id event) Fetched (LResolve (id event)) w in
      let w := once (id event) Failed (LReject (id event)) w in
      (Returned (HEmit (id event)), w)
  end.

Definition pull (recipientId : jsval) (timeout : Z) (track : bool)
    (w : World) : Outcome * World :=
  match recipient_key recipientId with
  | None => (Threw InvalidRecipient, w)
  | Some r =>
      let w := ensure_stub r w in
      let q := nextPull w in
      if (0 <? length (pending (stub_of r w)))%nat then
        (Returned (HPull q),
         enqueue (JThen q)
           (bump_nextPull
              (set_pulls (insert q {| recipient := r; waitForResolution := track;
                                      notified := false;
                                      waited := Fulfilled (); result := Pending |}) w)))
      else
        (Returned (HPull q),
         bump_nextTimer
           (set_timers (insert (nextTimer w) (q, timeout))
              (set_waitingSoNotify r (Some q)
                 (bump_nextPull
                    (set_pulls (insert q {| recipient := r; waitForResolution := track;
                                            notified := false;
                                            waited := Pending; result := Pending |}) w)))))
  end.

Definition pull_then (q : nat) (w : World) : World :=
  match pulls w !! q with
  | Some c =>
      let r := recipient c in
      let w := set_waitingSoNotify r None w in
      match pending (stub_of r w) with
      | [] => enqueue (JCatch q NoEvent) w
      | event :: rest =>
          let w := set_pending r rest w in
          let w := if waitForResolution c
                   then set_active r (insert (id event) event) w else w in
          let w := signal (id event) Fetched VUndefined w in
          enqueue (JCatchSkip q event) w
      end
  | None => w
  end.

Definition pull_catch (q : nat) (e : Error) (w : World) : World :=
  match pulls w !! q with
  | Some c =>
      set_pulls (insert q {| recipient := recipient c;
                             waitForResolution := waitForResolution c;
                             notified := notified c;
                             waited := waited c; result := Rejected e |})
        (set_waitingSoNotify (recipient c) None w)
  | None => w
  end.

Definition settle_race (q : nat) (st : PState unit) (next : Job) (w : World) : World :=
  match pulls w !! q with
  | Some c =>
      if is_pending (waited c) then
        enqueue next
          (set_pulls (insert q {| recipient := recipient c;
                                  waitForResolution := waitForResolution c;
                                  notified := notified c;
                                  waited := st; result := result c |}) w)
      else w
  | None => w
  end.

Definition run_job (j : Job) (w : World) : World :=
  match j with
  | JRaceResolve q => settle_race q (Fulfilled ()) (JThen q) w
  | JRaceReject q e => settle_race q (Rejected e) (JThenSkip q e) w
  | JThen q => pull_then q w
  | JThenSkip q e => enqueue (JCatch q e) w
  | JCatch q e => pull_catch q e w
  | JCatchSkip q ev =>
      set_pulls (alter (λ c, {| recipient := recipient c;
                                waitForResolution := waitForResolution c;
                                notified := notified c;
                                waited := waited c; result := Fulfilled ev |}) q) w
  end.

Inductive Label : Type :=
| CallEmit (recipientId eventName : jsval) (eventArguments : list jsval)
| CallPull (recipientId : jsval) (timeout : Z) (track : bool)
| Emit (i : nat) (s : Signal) (payload : jsval)
| Fire (t : nat)
| Tick.

Definition step (l : Label) (w : World) : option World :=
  match l with
  | CallEmit r n a => Some (snd (emit r n a w))
  | CallPull r t k => Some (snd (pull r t k w))
  | Emit i s payload =>
      if (i <? nextId w)%nat then Some (signal i s payload w) else None
  | Fire t =>
      match jobs w, timers w !! t with
      | [], Some (q, _) =>
          Some (enqueue (JRaceReject q PullTimeout) (set_timers (delete t) w))
      | _, _ => None
      end
  | Tick =>
      match jobs w with
      | j :: rest => Some (run_job j (set_jobs (λ _, rest) w))
      | [] => None
      end
  end.

Fixpoint run (ls : list Label) (w : World) : option World :=
  match ls with
  | [] => Some w
  | l :: ls => w' ← step l w; run ls w'
  end.

Definition tick (w : World) : World :=
  match jobs w with
  | j :: rest => run_job j (set_jobs (λ _, rest) w)
  | [] => w
  end.

Definition weight (j : Job) : nat :=
  match j with
  | JRaceResolve _ | JRaceReject _ _ => 4
  | JThen _ | JThenSkip _ _ => 3
  | JCatch _ _ | JCatchSkip _ _ => 1
  end.

Definition fuel (w : World) : nat := list_sum (map weight (jobs w)).

Definition drain (w : World) : World := Nat.iter (fuel w) tick w.

End Legacy.

(** * Scenarios and invariants *)


(** What a signal on a record leaves alone: the calls of [pull], the
    counters of records and calls, the pending queue and the notifier of
    every stub; the only jobs added are reactions to settled promises of
    emitters. *)
Definition listener_frame (w w' : Pool.World) : Prop :=
  Pool.pulls w' = Pool.pulls w
  ∧ Pool.nextPull w' = Pool.nextPull w
  ∧ Pool.nextId w' = Pool.nextId w
  ∧ Pool.poolOptions (Pool.pool w') = Pool.poolOptions (Pool.pool w)
  ∧ (∀ r, is_Some (Pool.queues (Pool.pool w') !! r)
          ↔ is_Some (Pool.queues (Pool.pool w) !! r))
  ∧ (∀ r, Pool.pending (Pool.stub_of r w') = Pool.pending (Pool.stub_of r w)
          ∧ Pool.waitingSoNotify (Pool.stub_of r w')
            = Pool.waitingSoNotify (Pool.stub_of r w))
  ∧ ∃ js, Pool.jobs w' = Pool.jobs w ++ js
          ∧ Forall (λ j, ∃ p, j = Pool.JEmitCatch p) js.

Module Fifo.
Import Pool.






Definition is_then (j : Job) : bool :=
  match j with JThen _ => true | _ => false end.

(** The records a row of emit calls creates, the first with identifier
    [i], under pool options [opts]. *)
Fixpoint records (i : nat) (opts : Options)
    (es : list (jsval * list jsval * Overrides)) : list Event :=
  match es with
  | [] => []
  | (n, a, o) :: es => new_Event i n a (assign opts o) :: records (S i) opts es
  end.

(** Jobs met while [m] of the records [evs] have been shifted off by
    the pulls numbered from [q0]. *)
Definition job_ok (q0 : nat) (evs : list Event) (m : nat) (x : Job) : Prop :=
  match x with
  | JThen _ | JEmitCatch _ | JEmitThen _ => True
  | JCatchSkip q e => ∃ k, k < m ∧ q = q0 + k ∧ evs !! k = Some e
  | _ => False
  end.

(** The state of a run of [j] pulls over the records [evs], the first
    [m] of which have been shifted off the queue. *)
Definition inv (r : string) (q0 : nat) (evs : list Event) (j : nat) (w : World) : Prop :=
  ∃ m, m ≤ j ∧ j ≤ length evs
    ∧ is_Some (queues (pool w) !! r)
    ∧ pending (stub_of r w) = drop m evs
    ∧ waitingSoNotify (stub_of r w) = None
    ∧ nextPull w = q0 + j
    ∧ (∀ k, k < j → ∃ c, pulls w !! (q0 + k) = Some c ∧ recipient c = r)
    ∧ List.filter is_then (jobs w) = map JThen (seq (q0 + m) (j - m))
    ∧ Forall (job_ok q0 evs m) (jobs w)
    ∧ (∀ k e, k < m → evs !! k = Some e →
         (∃ c, pulls w !! (q0 + k) = Some c ∧ result c = Fulfilled e)
         ∨ In (JCatchSkip (q0 + k) e) (jobs w)).




End Fifo.

(** ** The invariant of the pool with options *)

Module Inv.
Import Pool.

(** Whether signal [s] has been emitted on record [i], by the log. *)
Definition signalled (i : nat) (s : Signal) (h : list (nat * Signal)) : bool :=
  existsb (λ x, Nat.eqb (fst x) i && Signal_eqb (snd x) s) h.

(** Whether the emitter of a record waits for "handled". *)
Definition mode (c : EmitCall) : bool := waitForHandlers (options (event c)).

(** [resolvingEvent] of [emitWithOptions]. *)
Definition resolvingEvent (c : EmitCall) : Signal :=
  if mode c then Handled else Pulled.

Definition pendingMessage : string := "pending event timed out".
Definition handlingMessage : string := "event handling timed otu".

(** The listeners the executor of [emitWithOptions] installs on record
    [i] with options [o], in order. *)
Definition installed (i : nat) (o : Options) : list (Signal * Listener) :=
  [(if waitForHandlers o then Handled else Pulled, LResolve i); (Failed, LReject i)]
  ++ (if positive_finite (pendingTimeout o) then [(Pulled, LClearPendingTimer i)] else [])
  ++ (if waitForHandlers o && positive_finite (handlingTimeout o)
      then [(Pulled, LArmHandlingTimer i (handlingTimeout o))] else []).

(** Those of them whose signal has not been emitted yet. *)
Definition remaining (i : nat) (o : Options) (h : list (nat * Signal)) :
    list (Signal * Listener) :=
  List.filter (λ x, negb (signalled i (fst x) h)) (installed i o).

(** [e] is the record an emit call for recipient [r] created. *)
Definition record_of (w : World) (e : Event) (r : string) : Prop :=
  ∃ c, emits w !! id e = Some c ∧ event c = e ∧ target c = r.

(** "pulled" was signalled on record [i] and "handled" has not been
    since. *)
Definition pulled_unhandled (i : nat) (h : list (nat * Signal)) : Prop :=
  ∃ h1 h2, h = h1 ++ (i, Pulled) :: h2 ∧ signalled i Handled h2 = false.

Definition emits_ok (w : World) : Prop :=
  (∀ i, is_Some (emits w !! i) ↔ i < nextId w)
  ∧ (∀ i c, emits w !! i = Some c → id (event c) = i).

(** The listeners of a record are what is left of the installed ones,
    followed by the listeners [pull] added for "handled". *)
Definition listeners_ok (w : World) : Prop :=
  ∀ i, match emits w !! i with
       | Some c =>
           ∃ k, listeners w !! i
                = Some (remaining i (options (event c)) (history w)
                        ++ repeat (Handled, LActiveDelete (target c) i) k)
       | None => listeners w !! i = None
       end.

(** What the state of an emitter's promise says about the signals. *)
Definition promise_ok (w : World) : Prop :=
  ∀ i c, emits w !! i = Some c →
    match promise c with
    | Pending => signalled i (resolvingEvent c) (history w) = false
                 ∧ signalled i Failed (history w) = false
    | Fulfilled _ => signalled i (resolvingEvent c) (history w) = true
    | Rejected (Failure _) => signalled i Failed (history w) = true
    | Rejected (ETIMEDOUT _) => True
    | Rejected _ => False
    end.

(** An armed timer of an emitter is the one its variable holds: the
    pending timer only before "pulled", the handling timer only after it
    and only for an emitter waiting for "handled". *)
Definition timers_ok (w : World) : Prop :=
  ∀ t a, timers w !! t = Some a →
    t < nextTimer w
    ∧ match a with
      | TEmitTimeout p msg d =>
          ∃ c, emits w !! p = Some c
            ∧ positive_finite d = true
            ∧ ((msg = pendingMessage ∧ pendingTimer c = Some t
                ∧ d = pendingTimeout (options (event c))
                ∧ signalled p Pulled (history w) = false)
               ∨ (msg = handlingMessage ∧ handlingTimer c = Some t
                  ∧ d = handlingTimeout (options (event c))
                  ∧ mode c = true
                  ∧ signalled p Pulled (history w) = true))
      | TPullTimeout q _ => q < nextPull w
      end.

Definition vars_ok (w : World) : Prop :=
  ∀ p c, emits w !! p = Some c →
    (∀ t, pendingTimer c = Some t →
       t < nextTimer w
       ∧ ∀ a, timers w !! t = Some a → ∃ d, a = TEmitTimeout p pendingMessage d)
    ∧ (∀ t, handlingTimer c = Some t →
         t < nextTimer w
         ∧ signalled p Pulled (history w) = true
         ∧ ∀ a, timers w !! t = Some a → ∃ d, a = TEmitTimeout p handlingMessage d).

(** While the promise is pending and the record not pulled, a finite
    pending timeout is armed. *)
Definition armed_ok (w : World) : Prop :=
  ∀ p c, emits w !! p = Some c →
    promise c = Pending →
    positive_finite (pendingTimeout (options (event c))) = true →
    signalled p Pulled (history w) = false →
    ∃ t, pendingTimer c = Some t
         ∧ timers w !! t
           = Some (TEmitTimeout p pendingMessage (pendingTimeout (options (event c)))).

Definition job_ok (w : World) (j : Job) : Prop :=
  match j with
  | JRaceResolve q | JRaceReject q _ | JThen q | JThenSkip q _ | JCatch q _ =>
      q < nextPull w
  | JCatchSkip q e =>
      ∃ c, pulls w !! q = Some c ∧ record_of w e (recipient c)
  | JEmitCatch p | JEmitThen p =>
      ∃ c, emits w !! p = Some c ∧ promise c ≠ Pending
  end.

Definition jobs_ok (w : World) : Prop := Forall (job_ok w) (jobs w).

Definition pulls_ok (w : World) : Prop :=
  (∀ q, is_Some (pulls w !! q) ↔ q < nextPull w)
  ∧ (∀ q c e, pulls w !! q = Some c → result c = Fulfilled e →
       record_of w e (recipient c)).

Definition stub_ok (w : World) (r : string) (s : Stub) : Prop :=
  (∀ e, In e (pending s) → record_of w e r)
  ∧ (∀ q, waitingSoNotify s = Some q →
       ∃ c, pulls w !! q = Some c ∧ recipient c = r)
  ∧ (∀ i e, active s !! i = Some e →
       id e = i ∧ record_of w e r
       ∧ waitForHandlers (options e) = true
       ∧ pulled_unhandled i (history w)
       ∧ In (Handled, LActiveDelete r i) (default [] (listeners w !! i))).

Definition queues_ok (w : World) : Prop :=
  ∀ r s, queues (pool w) !! r = Some s → stub_ok w r s.

(** Signals are emitted on records that exist. *)
Definition history_ok (w : World) : Prop :=
  ∀ i s, In (i, s) (history w) → i < nextId w.

Record wf (w : World) : Prop := {
  wf_emits : emits_ok w;
  wf_listeners : listeners_ok w;
  wf_promise : promise_ok w;
  wf_timers : timers_ok w;
  wf_vars : vars_ok w;
  wf_armed : armed_ok w;
  wf_jobs : jobs_ok w;
  wf_pulls : pulls_ok w;
  wf_queues : queues_ok w;
  wf_history : history_ok w
}.

(** *** The invariant in the middle of a signal

    While [event.emit] runs, the log already has the signal and the
    listeners are off the record, but those still to be called have not
    acted yet.  The flags name the record and what is outstanding: the
    promise to resolve or to reject, the pending timer to clear, the
    entry of [active] to delete; [fx_pulled] marks the entry [pull] has
    put into [active] just before it emits "pulled". *)
Record Flags : Type := {
  fx_record : nat;
  fx_resolve : bool;
  fx_reject : bool;
  fx_clear : bool;
  fx_delete : bool;
  fx_pulled : bool
}.

Definition no_flags : Flags :=
  {| fx_record := 0; fx_resolve := false; fx_reject := false;
     fx_clear := false; fx_delete := false; fx_pulled := false |}.

(** No promise is waiting for a listener any more. *)
Definition clear_rr (x : Flags) : Flags :=
  {| fx_record := fx_record x; fx_resolve := false; fx_reject := false;
     fx_clear := fx_clear x; fx_delete := fx_delete x; fx_pulled := fx_pulled x |}.

Definition clear_clear (x : Flags) : Flags :=
  {| fx_record := fx_record x; fx_resolve := fx_resolve x; fx_reject := fx_reject x;
     fx_clear := false; fx_delete := fx_delete x; fx_pulled := fx_pulled x |}.

Definition clear_delete (x : Flags) : Flags :=
  {| fx_record := fx_record x; fx_resolve := fx_resolve x; fx_reject := fx_reject x;
     fx_clear := fx_clear x; fx_delete := false; fx_pulled := fx_pulled x |}.

(** A promise is settled in agreement with the log. *)
Definition settles_ok (w : World) (p : nat) (st : PState jsval) : Prop :=
  match st with
  | Pending => False
  | Fulfilled _ =>
      ∀ c, emits w !! p = Some c → signalled p (resolvingEvent c) (history w) = true
  | Rejected (Failure _) => signalled p Failed (history w) = true
  | Rejected (ETIMEDOUT _) => True
  | Rejected _ => False
  end.

(** Only the mark of [pull] is set. *)
Definition only_pulled (i : nat) (b : bool) : Flags :=
  {| fx_record := i; fx_resolve := false; fx_reject := false;
     fx_clear := false; fx_delete := false; fx_pulled := b |}.

(** What is outstanding once signal [s] on record [i] is in the log and
    its listeners are taken off; [k] counts the listeners [pull] added. *)
Definition signal_flags (i : nat) (s : Signal) (c : EmitCall) (k : nat)
    (h : list (nat * Signal)) : Flags :=
  let fresh := negb (signalled i s h) in
  {| fx_record := i;
     fx_resolve := fresh && bool_decide (s = resolvingEvent c);
     fx_reject := fresh && bool_decide (s = Failed);
     fx_clear := fresh && bool_decide (s = Pulled)
                 && positive_finite (pendingTimeout (options (event c)));
     fx_delete := bool_decide (s = Handled) && (0 <? k);
     fx_pulled := false |}.

(** The listeners [event.emit( s )] calls on record [i], in order. *)
Definition called (i : nat) (s : Signal) (o : Options) (r : string) (k : nat)
    (h : list (nat * Signal)) : list Listener :=
  let fresh := negb (signalled i s h) in
  (if fresh && bool_decide (s = if waitForHandlers o then Handled else Pulled)
   then [LResolve i] else [])
  ++ (if fresh && bool_decide (s = Failed) then [LReject i] else [])
  ++ (if fresh && bool_decide (s = Pulled) && positive_finite (pendingTimeout o)
      then [LClearPendingTimer i] else [])
  ++ (if fresh && bool_decide (s = Pulled) && waitForHandlers o
         && positive_finite (handlingTimeout o)
      then [LArmHandlingTimer i (handlingTimeout o)] else [])
  ++ repeat (LActiveDelete r i) (if bool_decide (s = Handled) then k else 0).

(** [x'] allows what [x] allows. *)
Definition flags_le (x x' : Flags) : Prop :=
  fx_record x = fx_record x'
  ∧ (fx_resolve x = true → fx_resolve x' = true)
  ∧ (fx_reject x = true → fx_reject x' = true)
  ∧ (fx_clear x = true → fx_clear x' = true)
  ∧ (fx_delete x = true → fx_delete x' = true)
  ∧ (fx_pulled x = true → fx_pulled x' = true).

Definition clear_resolve (x : Flags) : Flags :=
  {| fx_record := fx_record x; fx_resolve := false; fx_reject := fx_reject x;
     fx_clear := fx_clear x; fx_delete := fx_delete x; fx_pulled := fx_pulled x |}.

Definition clear_reject (x : Flags) : Flags :=
  {| fx_record := fx_record x; fx_resolve := fx_resolve x; fx_reject := false;
     fx_clear := fx_clear x; fx_delete := fx_delete x; fx_pulled := fx_pulled x |}.

Definition promise_ok_x (x : Flags) (w : World) : Prop :=
  ∀ i c, emits w !! i = Some c →
    match promise c with
    | Pending =>
        (signalled i (resolvingEvent c) (history w) = false
         ∨ (i = fx_record x ∧ fx_resolve x = true))
        ∧ (signalled i Failed (history w) = false
           ∨ (i = fx_record x ∧ fx_reject x = true))
    | Fulfilled _ => signalled i (resolvingEvent c) (history w) = true
    | Rejected (Failure _) => signalled i Failed (history w) = true
    | Rejected (ETIMEDOUT _) => True
    | Rejected _ => False
    end.

Definition timers_ok_x (x : Flags) (w : World) : Prop :=
  ∀ t a, timers w !! t = Some a →
    t < nextTimer w
    ∧ match a with
      | TEmitTimeout p msg d =>
          ∃ c, emits w !! p = Some c
            ∧ positive_finite d = true
            ∧ ((msg = pendingMessage ∧ pendingTimer c = Some t
                ∧ d = pendingTimeout (options (event c))
                ∧ (signalled p Pulled (history w) = false
                   ∨ (p = fx_record x ∧ fx_clear x = true)))
               ∨ (msg = handlingMessage ∧ handlingTimer c = Some t
                  ∧ d = handlingTimeout (options (event c))
                  ∧ mode c = true
                  ∧ signalled p Pulled (history w) = true))
      | TPullTimeout q _ => q < nextPull w
      end.

Definition stub_ok_x (x : Flags) (w : World) (r : string) (s : Stub) : Prop :=
  (∀ e, In e (pending s) → record_of w e r)
  ∧ (∀ q, waitingSoNotify s = Some q →
       ∃ c, pulls w !! q = Some c ∧ recipient c = r)
  ∧ (∀ i e, active s !! i = Some e →
       id e = i ∧ record_of w e r
       ∧ waitForHandlers (options e) = true
       ∧ ((pulled_unhandled i (history w)
           ∨ (i = fx_record x ∧ fx_pulled x = true))
          ∧ In (Handled, LActiveDelete r i) (default [] (listeners w !! i))
          ∨ (i = fx_record x ∧ fx_delete x = true))).

Definition queues_ok_x (x : Flags) (w : World) : Prop :=
  ∀ r s, queues (pool w) !! r = Some s → stub_ok_x x w r s.

Record wf_x (x : Flags) (w : World) : Prop := {
  wfx_emits : emits_ok w;
  wfx_listeners : listeners_ok w;
  wfx_promise : promise_ok_x x w;
  wfx_timers : timers_ok_x x w;
  wfx_vars : vars_ok w;
  wfx_armed : armed_ok w;
  wfx_jobs : jobs_ok w;
  wfx_pulls : pulls_ok w;
  wfx_queues : queues_ok_x x w;
  wfx_history : history_ok w
}.


(** The worlds a pool can get into. *)
Definition reachable (w : World) : Prop :=
  ∃ opts ls, run ls (constructor opts) = Some w.

End Inv.

(** ** Runs of a pool with default options *)

Module Scenario.
Import Pool.

(** An emitter that waits for its handlers, with both timeouts finite. *)
Definition waiting_options : Overrides :=
  {| o_maxPendingEvents := None; o_pendingTimeout := Some (Fin 500);
     o_handlingTimeout := Some (Fin 700); o_waitForHandlers := Some true |}.

(** The record its emit call creates in a new pool. *)
Definition record : Event :=
  new_Event 0 (VStr "job") [VNum 1] (assign DefaultOptions waiting_options).

(** The world after a run, started in a new pool with default options. *)
Definition after (ls : list Label) : World :=
  default (constructor no_overrides) (run ls (constructor no_overrides)).

(** The record is emitted, ... *)
Definition emitted : list Label :=
  [CallEmitWithOptions (VStr "r") (VStr "job") [VNum 1] waiting_options].

(** ... pulled by its recipient, ... *)
Definition pulled : list Label :=
  emitted ++ [CallPull (VStr "r") 30000; Tick; Tick].

(** ... and marked as handled. *)
Definition handled : list Label :=
  pulled ++ [Emit 0 Handled VUndefined; Tick; Tick].

(** A recipient pulls with nothing pending, then a record arrives. *)
Definition woken : list Label :=
  [CallPull (VStr "r") 30000; CallEmit (VStr "r") (VStr "job") [VNum 1]].

End Scenario.

(** ** Signals from outside the pool *)

Module Callers.
Import Pool.

(** Whether a run has somebody outside the pool, the emitter or the
    recipient of record [i], emit signal [s] on it. *)
Definition emitted_by_caller (ls : list Label) (i : nat) (s : Signal) : bool :=
  existsb (λ l, match l with
                | Emit j s' _ => Nat.eqb j i && Signal_eqb s' s
                | _ => false
                end) ls.

End Callers.

(** ** Capacity *)

(** A queue of [len] records is within the limit [m]: a limit below zero
    allows as much as zero does. *)
Definition within_capacity (m : num) (len : nat) : bool :=
  match m with
  | Fin z => (Z.of_nat len <=? Z.max 0 z)%Z
  | Infinity => true
  end.

(** ** More pulls than records *)

Module Crowd.
Import Pool.


(** What the [i]-th of the pulls is to end with, the queue holding
    [evs]: the [i]-th record, or the TypeError of a pull that finds the
    queue empty. *)
Definition expected (evs : list Event) (i : nat) : PState Event :=
  match evs !! i with
  | Some e => Fulfilled e
  | None => Rejected NoEvent
  end.

(** The job that carries this to the promise of pull [q]. *)
Definition settling (q : nat) (evs : list Event) (i : nat) : Job :=
  match evs !! i with
  | Some e => JCatchSkip q e
  | None => JCatch q NoEvent
  end.

Definition job_ok (q0 : nat) (evs : list Event) (m : nat) (x : Job) : Prop :=
  match x with
  | JThen _ | JEmitCatch _ | JEmitThen _ => True
  | JCatchSkip q e => ∃ i, i < m ∧ q = q0 + i ∧ evs !! i = Some e
  | JCatch q err => ∃ i, i < m ∧ q = q0 + i ∧ evs !! i = None ∧ err = NoEvent
  | _ => False
  end.

(** The state while the reactions of [k] pulls, numbered from [q0], run
    over a queue that held [evs]: the callbacks of [m] pulls have run. *)
Definition inv (r : string) (q0 : nat) (evs : list Event) (k : nat) (w : World) : Prop :=
  ∃ m, m ≤ k
    ∧ is_Some (queues (pool w) !! r)
    ∧ pending (stub_of r w) = drop m evs
    ∧ (∀ i, i < k → ∃ c, pulls w !! (q0 + i) = Some c ∧ recipient c = r)
    ∧ List.filter Fifo.is_then (jobs w) = map JThen (seq (q0 + m) (k - m))
    ∧ Forall (job_ok q0 evs m) (jobs w)
    ∧ (∀ i, i < m →
         (∃ c, pulls w !! (q0 + i) = Some c ∧ result c = expected evs i)
         ∨ In (settling (q0 + i) evs i) (jobs w)).

End Crowd.

(** ** The timer of a pull *)

Module Timers.
Import Pool.

(** Handles are below the counter of timers, and no variable of an emit
    call holds the handle of a timer of [pull]. *)
Definition handles_ok (w : World) : Prop :=
  (∀ t a, timers w !! t = Some a → t < nextTimer w)
  ∧ (∀ p c t, emits w !! p = Some c →
       pendingTimer c = Some t ∨ handlingTimer c = Some t →
       t < nextTimer w ∧ ∀ q d, timers w !! t ≠ Some (TPullTimeout q d)).

(** Timer [t] is the one pull [q] armed with delay [d]. *)
Definition armed_pull (t q : nat) (d : Z) (w : World) : Prop :=
  handles_ok w ∧ timers w !! t = Some (TPullTimeout q d).

End Timers.

(** ** Runs of the first revision *)

Module LegacyScenario.
Import Legacy.

Definition after (ls : list Label) : World :=
  default constructor (run ls constructor).

(** A record is emitted and pulled with [waitForResolution]. *)
Definition tracked : list Label :=
  [CallEmit (VStr "r") (VStr "job") [VNum 1]; CallPull (VStr "r") 30000 true;
   Tick; Tick].

(** Its recipient then reports on it. *)
Definition reported : list Label :=
  [Emit 0 Handled VUndefined; Emit 0 Failed VUndefined;
   CallPull (VStr "r") 30000 true; Fire 0; Tick; Tick; Tick].

End LegacyScenario.

(** * Properties *)

(** ** The guard on the recipient *)

Lemma recipient_key_non_string recipientId :
  typeof_string recipientId = false → recipient_key recipientId = None.
Proof.
  intros H. unfold recipient_key, invalid_recipient.
  rewrite H. by rewrite orb_true_r.
Qed.

Lemma recipient_key_Some recipientId r :
  recipient_key recipientId = Some r ↔ recipientId = VStr r ∧ r ≠ ""%string.
Proof.
  unfold recipient_key, invalid_recipient.
  destruct recipientId as [| |b|n|s|o]; simpl;
    try (rewrite ?orb_true_r; split; [discriminate | intros [? _]; discriminate]).
  rewrite orb_false_r, negb_involutive.
  destruct (String.eqb_spec s ""); simpl; split.
  - discriminate.
  - intros [[= ->] ?]. congruence.
  - intros [= ->]. done.
  - intros [[= ->] _]. done.
Qed.

Lemma recipient_key_VStr r : r ≠ ""%string → recipient_key (VStr r) = Some r.
Proof. intros. by apply recipient_key_Some. Qed.

(** ** The microtask queue runs dry *)

Section PoolDrain.
Import Pool.

Lemma fuel_eq w w' : jobs w' = jobs w → emits w' = emits w → fuel w' = fuel w.
Proof. unfold fuel, unsettled. by intros -> ->. Qed.

Lemma fuel_set_queues f w : fuel (set_queues f w) = fuel w.
Proof. done. Qed.
Lemma fuel_set_listeners f w : fuel (set_listeners f w) = fuel w.
Proof. done. Qed.
Lemma fuel_set_pulls f w : fuel (set_pulls f w) = fuel w.
Proof. done. Qed.
Lemma fuel_set_timers f w : fuel (set_timers f w) = fuel w.
Proof. done. Qed.
Lemma fuel_set_history f w : fuel (set_history f w) = fuel w.
Proof. done. Qed.
Lemma fuel_set_pending r l w : fuel (set_pending r l w) = fuel w.
Proof. done. Qed.
Lemma fuel_set_active r f w : fuel (set_active r f w) = fuel w.
Proof. done. Qed.
Lemma fuel_set_waitingSoNotify r n w : fuel (set_waitingSoNotify r n w) = fuel w.
Proof. done. Qed.
Lemma fuel_once i s l w : fuel (once i s l w) = fuel w.
Proof. done. Qed.
Lemma fuel_clearTimeout h w : fuel (clearTimeout h w) = fuel w.
Proof. by destruct h. Qed.

Create Rewrite HintDb fuel.
Hint Rewrite fuel_set_queues fuel_set_listeners fuel_set_pulls fuel_set_timers
  fuel_set_history fuel_set_pending fuel_set_active fuel_set_waitingSoNotify
  fuel_once fuel_clearTimeout : fuel.

Lemma fuel_enqueue j w : fuel (enqueue j w) = fuel w + weight j.
Proof.
  unfold fuel, unsettled, enqueue. cbn.
  rewrite map_app, list_sum_app. cbn. lia.
Qed.

Lemma unsettled_insert_settled (m : gmap nat EmitCall) p c c' :
  m !! p = Some c → is_pending (promise c) = true → is_pending (promise c') = false →
  S (size (filter (λ kv : nat * EmitCall, is_pending (promise (snd kv)) = true)
             (<[p := c']> m)))
  = size (filter (λ kv : nat * EmitCall, is_pending (promise (snd kv)) = true) m).
Proof.
  intros Hp Hc Hc'.
  rewrite map_filter_insert_False by (cbn; congruence).
  rewrite map_filter_delete.
  rewrite map_size_delete_Some; last first.
  { exists c. by apply map_lookup_filter_Some. }
  assert (size (filter (λ kv : nat * EmitCall, is_pending (promise (snd kv)) = true) m) ≠ 0).
  { apply map_size_ne_0_lookup. exists p, c. by apply map_lookup_filter_Some. }
  lia.
Qed.

Lemma unsettled_alter (f : EmitCall → EmitCall) (m : gmap nat EmitCall) p :
  (∀ c, promise (f c) = promise c) →
  size (filter (λ kv : nat * EmitCall, is_pending (promise (snd kv)) = true)
             (alter f p m))
  = size (filter (λ kv : nat * EmitCall, is_pending (promise (snd kv)) = true) m).
Proof.
  intros Hf. destruct (m !! p) as [c|] eqn:Hp.
  - assert (alter f p m = <[p := f c]> m) as ->.
    { apply map_eq. intros i. rewrite lookup_alter, lookup_insert.
      repeat case_decide; subst; try done. by rewrite Hp. }
    destruct (is_pending (promise c)) eqn:Hc.
    + rewrite map_filter_insert_True by (cbn; by rewrite Hf).
      apply map_size_insert_Some. exists c. by apply map_lookup_filter_Some.
    + rewrite map_filter_insert_False by (cbn; rewrite Hf; congruence).
      rewrite map_filter_delete. apply map_size_delete_None.
      apply map_lookup_filter_None. right. intros c' Hc'. cbn. congruence.
  - f_equal. f_equal. apply map_eq. intros i. rewrite lookup_alter.
    case_decide; subst; try done. by rewrite Hp.
Qed.

Lemma fuel_settle p st w :
  is_pending st = false → fuel (settle p st w) = fuel w.
Proof.
  intros Hst. unfold settle.
  destruct (emits w !! p) as [c|] eqn:Hp; [|done].
  destruct (is_pending (promise c)) eqn:Hc; [|done].
  rewrite fuel_enqueue. unfold fuel, unsettled. cbn.
  pose proof (unsettled_insert_settled (emits w) p c (with_promise st c) Hp Hc Hst).
  unfold list_sum. lia.
Qed.

Lemma fuel_run_listener v l w : fuel (run_listener v l w) = fuel w.
Proof.
  destruct l as [p|p|p|p d|r i]; cbn [run_listener].
  - by apply fuel_settle.
  - by apply fuel_settle.
  - by autorewrite with fuel.
  - unfold fuel, unsettled. cbn [emits jobs set_emits setTimeout bump_nextTimer set_timers].
    by rewrite unsettled_alter.
  - by autorewrite with fuel.
Qed.

Lemma fuel_run_listeners v ls w : fuel (run_listeners v ls w) = fuel w.
Proof.
  revert w. induction ls as [|l ls IH]; intros w; cbn; [done|].
  by rewrite IH, fuel_run_listener.
Qed.

Lemma fuel_signal i s v w : fuel (signal i s v w) = fuel w.
Proof. unfold signal. rewrite fuel_run_listeners. by autorewrite with fuel. Qed.

Hint Rewrite fuel_enqueue fuel_signal : fuel.

Lemma fuel_run_job j rest w :
  jobs w = j :: rest → fuel (run_job j (set_jobs (λ _, rest) w)) < fuel w.
Proof.
  intros Hj.
  assert (Hw : fuel w = weight j + fuel (set_jobs (λ _, rest) w)).
  { unfold fuel, unsettled. rewrite Hj. cbn. lia. }
  rewrite Hw. generalize (set_jobs (λ _, rest) w). clear. intros w.
  destruct j as [q|q e|q|q e|q e|q ev|p|p]; cbn [run_job weight].
  - unfold settle_race. destruct (pulls w !! q) as [c|]; [|lia].
    destruct (is_pending (waited c)); [|lia].
    autorewrite with fuel; cbn [weight]. lia.
  - unfold settle_race. destruct (pulls w !! q) as [c|]; [|lia].
    destruct (is_pending (waited c)); [|lia].
    autorewrite with fuel; cbn [weight]. lia.
  - unfold pull_then. destruct (pulls w !! q) as [c|]; [|lia].
    destruct (pending _) as [|ev rest].
    + autorewrite with fuel; cbn [weight]. lia.
    + destruct (event_waitForHandlers ev); autorewrite with fuel; cbn [weight]; lia.
  - autorewrite with fuel; cbn [weight]. lia.
  - unfold pull_catch. destruct (pulls w !! q) as [c|]; [|lia].
    autorewrite with fuel. lia.
  - autorewrite with fuel. lia.
  - autorewrite with fuel; cbn [weight]. lia.
  - autorewrite with fuel. lia.
Qed.

Lemma tick_idle w : jobs w = [] → tick w = w.
Proof. unfold tick. by intros ->. Qed.

Lemma iter_tick_idle n w : jobs w = [] → Nat.iter n tick w = w.
Proof.
  intros H. induction n as [|n IH]; [done|].
  rewrite Nat.iter_succ. by rewrite IH, tick_idle.
Qed.

Lemma iter_tick_enough n w : fuel w ≤ n → jobs (Nat.iter n tick w) = [].
Proof.
  revert w. induction n as [|n IH]; intros w Hn.
  - cbn. unfold fuel in Hn. destruct (jobs w) as [|j rest]; [done|].
    cbn in Hn. destruct j; cbn in Hn; lia.
  - rewrite Nat.iter_succ_r.
    destruct (jobs w) as [|j rest] eqn:Hj.
    + by rewrite tick_idle, iter_tick_idle.
    + apply IH. unfold tick. rewrite Hj.
      pose proof (fuel_run_job j rest w Hj). lia.
Qed.

Lemma iter_tick_stable n m w :
  jobs (Nat.iter n tick w) = [] → n ≤ m → Nat.iter m tick w = Nat.iter n tick w.
Proof.
  intros Hn Hm. replace m with ((m - n) + n) by lia.
  rewrite Nat.iter_add. by apply iter_tick_idle.
Qed.


Lemma drain_idle w : jobs w = [] → drain w = w.
Proof. intros. unfold drain. by apply iter_tick_idle. Qed.

Lemma drain_tick w : drain (tick w) = drain w.
Proof.
  destruct (jobs w) as [|j rest] eqn:Hj.
  - by rewrite tick_idle.
  - unfold drain.
    assert (fuel (tick w) < fuel w).
    { unfold tick. rewrite Hj. by apply fuel_run_job. }
    rewrite (iter_tick_stable (S (fuel (tick w))) (fuel w) w).
    + by rewrite Nat.iter_succ_r.
    + rewrite Nat.iter_succ_r. by apply iter_tick_enough.
    + lia.
Qed.

Lemma drain_step j rest w :
  jobs w = j :: rest → drain w = drain (run_job j (set_jobs (λ _, rest) w)).
Proof. intros Hj. rewrite <- drain_tick. unfold tick. by rewrite Hj. Qed.

End PoolDrain.

(** ** Stubs *)

Section PoolStubs.
Import Pool.

Lemma stub_of_ensure_stub r r' w : stub_of r' (ensure_stub r w) = stub_of r' w.
Proof.
  unfold ensure_stub, stub_of.
  destruct (queues (pool w) !! r) eqn:Hr; [done|]. cbn.
  destruct (decide (r = r')) as [->|Hne].
  - by rewrite lookup_insert_eq, Hr.
  - by rewrite lookup_insert_ne.
Qed.

Lemma ensure_stub_lookup r w :
  queues (pool (ensure_stub r w)) !! r = Some (stub_of r w).
Proof.
  unfold ensure_stub, stub_of.
  destruct (queues (pool w) !! r) eqn:Hr; cbn.
  - by rewrite Hr.
  - by rewrite lookup_insert_eq.
Qed.

Lemma ensure_stub_lookup_ne r r' w :
  r ≠ r' → queues (pool (ensure_stub r w)) !! r' = queues (pool w) !! r'.
Proof.
  intros Hne. unfold ensure_stub.
  destruct (queues (pool w) !! r); cbn; [done|]. by rewrite lookup_insert_ne.
Qed.

End PoolStubs.

(** ** Capacity and invalid recipients *)




(** C3 (amended): for a missing or non-string recipient id, the revision
    with options hands back a promise rejected with the TypeError from
    [emitWithOptions], [emit], [emitAndWait] and [pull] without throwing,
    while the first revision throws that TypeError synchronously from
    [emit] and [pull]; in both the pool and the rest of the world are
    left as they were. *)
Theorem invalid_recipient_surfaced (recipientId : jsval) :
  typeof_string recipientId = false →
  (∀ w eventName eventArguments opts,
     Pool.emitWithOptions recipientId eventName eventArguments opts w
     = (Returned (HRejected InvalidRecipient), w))
  ∧ (∀ w eventName eventArguments,
     Pool.emit recipientId eventName eventArguments w
     = (Returned (HRejected InvalidRecipient), w))
  ∧ (∀ w eventName eventArguments,
     Pool.emitAndWait recipientId eventName eventArguments w
     = (Returned (HRejected InvalidRecipient), w))
  ∧ (∀ w timeout,
     Pool.pull recipientId timeout w = (Returned (HRejected InvalidRecipient), w))
  ∧ (∀ v eventName eventArguments,
     Legacy.emit recipientId eventName eventArguments v = (Threw InvalidRecipient, v))
  ∧ (∀ v timeout track,
     Legacy.pull recipientId timeout track v = (Threw InvalidRecipient, v)).
Proof.
  intros H. apply recipient_key_non_string in H.
  unfold Pool.emit, Pool.emitAndWait, Pool.emitWithOptions, Pool.pull,
    Legacy.emit, Legacy.pull.
  rewrite H. done.
Qed.

Lemma invalid_recipient_surfaced_witness :
  Pool.pull VUndefined 30000 (Pool.constructor no_overrides)
  = (Returned (HRejected InvalidRecipient), Pool.constructor no_overrides)
  ∧ Legacy.pull VUndefined 30000 false Legacy.constructor
    = (Threw InvalidRecipient, Legacy.constructor).
Proof.
  destruct (invalid_recipient_surfaced VUndefined) as (_ & _ & _ & Hp & _ & Hl).
  - reflexivity.
  - split; [apply Hp | apply Hl].
Defined.

(** C3, as stated, fails on the first revision: [emit] and [pull] throw
    for a missing recipient id instead of handing back a rejected
    promise. *)
Lemma invalid_recipient_thrown_counterexample :
  fst (Legacy.emit VUndefined (VStr "test") [] Legacy.constructor) = Threw InvalidRecipient
  ∧ fst (Legacy.pull VUndefined 30000 false Legacy.constructor) = Threw InvalidRecipient
  ∧ ¬ (∃ h, fst (Legacy.emit VUndefined (VStr "test") [] Legacy.constructor) = Returned h).
Proof. repeat split. intros [h Hh]. discriminate. Qed.

(** ** What listeners and signals leave alone *)

Section PoolFrames.
Import Pool.

Lemma stub_of_alter f r r' w :
  stub_of r (set_queues (alter f r') w)
  = if decide (r' = r) then from_option f new_Stub (queues (pool w) !! r)
    else stub_of r w.
Proof.
  unfold stub_of. cbn. rewrite lookup_alter.
  case_decide; [subst|done]. by destruct (_ !! r).
Qed.

Lemma pending_set_active r r' f w :
  pending (stub_of r (set_active r' f w)) = pending (stub_of r w).
Proof.
  unfold set_active. rewrite stub_of_alter. case_decide; [|done].
  unfold stub_of. by destruct (_ !! r).
Qed.

Lemma waitingSoNotify_set_active r r' f w :
  waitingSoNotify (stub_of r (set_active r' f w)) = waitingSoNotify (stub_of r w).
Proof.
  unfold set_active. rewrite stub_of_alter. case_decide; [|done].
  unfold stub_of. by destruct (_ !! r).
Qed.

Lemma active_set_active r r' f w :
  is_Some (queues (pool w) !! r') →
  active (stub_of r (set_active r' f w))
  = if decide (r' = r) then f (active (stub_of r w)) else active (stub_of r w).
Proof.
  intros [s Hs]. unfold set_active. rewrite stub_of_alter. case_decide; [subst|done].
  unfold stub_of. by rewrite Hs.
Qed.

Lemma pending_set_pending r r' l w :
  is_Some (queues (pool w) !! r') →
  pending (stub_of r (set_pending r' l w))
  = if decide (r' = r) then l else pending (stub_of r w).
Proof.
  intros [s Hs]. unfold set_pending. rewrite stub_of_alter. case_decide; [subst|done].
  by rewrite Hs.
Qed.


Lemma active_set_pending r r' l w :
  active (stub_of r (set_pending r' l w)) = active (stub_of r w).
Proof.
  unfold set_pending. rewrite stub_of_alter. case_decide; [|done].
  unfold stub_of. by destruct (_ !! r).
Qed.

Lemma pending_set_waitingSoNotify r r' n w :
  pending (stub_of r (set_waitingSoNotify r' n w)) = pending (stub_of r w).
Proof.
  unfold set_waitingSoNotify. rewrite stub_of_alter. case_decide; [|done].
  unfold stub_of. by destruct (_ !! r).
Qed.



Lemma is_Some_queues_alter f r r' w :
  is_Some (queues (pool (set_queues (alter f r') w)) !! r)
  ↔ is_Some (queues (pool w) !! r).
Proof. cbn. apply lookup_alter_is_Some. Qed.

Lemma listener_frame_refl w : listener_frame w w.
Proof.
  repeat split; try done. exists []. by rewrite app_nil_r.
Qed.

Lemma listener_frame_trans w1 w2 w3 :
  listener_frame w1 w2 → listener_frame w2 w3 → listener_frame w1 w3.
Proof.
  intros (Ha1 & Ha2 & Ha3 & Ha6 & Ha7 & Ha8 & js1 & Ha9 & Ha10)
         (Hb1 & Hb2 & Hb3 & Hb6 & Hb7 & Hb8 & js2 & Hb9 & Hb10).
  split; [congruence|]. split; [congruence|]. split; [congruence|].
  split; [congruence|].
  split; [intros r; by rewrite Hb7|].
  split.
  { intros r. destruct (Ha8 r), (Hb8 r). split; congruence. }
  exists (js1 ++ js2). split.
  - by rewrite Hb9, Ha9, app_assoc.
  - by apply Forall_app.
Qed.

Lemma listener_frame_settle p st w : listener_frame w (settle p st w).
Proof.
  unfold settle. destruct (emits w !! p) as [c|]; [|apply listener_frame_refl].
  destruct (is_pending (promise c)); [|apply listener_frame_refl].
  repeat split; try done. exists [JEmitCatch p]. split; [done|].
  constructor; [by exists p|constructor].
Qed.

Lemma listener_frame_run_listener v l w : listener_frame w (run_listener v l w).
Proof.
  destruct l as [p|p|p|p d|r i]; cbn [run_listener].
  - apply listener_frame_settle.
  - apply listener_frame_settle.
  - unfold clearTimeout. destruct (_ ≫= _); [|apply listener_frame_refl].
    repeat split; try done. exists []. by rewrite app_nil_r.
  - repeat split; try done. exists []. by rewrite app_nil_r.
  - split; [done|]. split; [done|]. split; [done|]. split; [done|].
    split; [intros r'; apply is_Some_queues_alter|].
    split.
    + intros r'. by rewrite pending_set_active, waitingSoNotify_set_active.
    + exists []. by rewrite app_nil_r.
Qed.

Lemma listener_frame_run_listeners v ls w : listener_frame w (run_listeners v ls w).
Proof.
  revert w. induction ls as [|l ls IH]; intros w; cbn.
  - apply listener_frame_refl.
  - eapply listener_frame_trans; [apply listener_frame_run_listener | apply IH].
Qed.

Lemma run_listeners_listeners v ls w :
  listeners (run_listeners v ls w) = listeners w.
Proof.
  revert w. induction ls as [|l ls IH]; intros w; cbn; [done|].
  rewrite IH. destruct l as [p|p|p|p d|r i]; cbn; try done.
  - unfold settle. by repeat case_match.
  - unfold settle. by repeat case_match.
  - unfold clearTimeout. by case_match.
Qed.

Lemma run_listeners_history v ls w :
  history (run_listeners v ls w) = history w.
Proof.
  revert w. induction ls as [|l ls IH]; intros w; cbn; [done|].
  rewrite IH. destruct l as [p|p|p|p d|r i]; cbn; try done.
  - unfold settle. by repeat case_match.
  - unfold settle. by repeat case_match.
  - unfold clearTimeout. by case_match.
Qed.

Lemma listener_frame_signal i s v w : listener_frame w (signal i s v w).
Proof.
  unfold signal.
  eapply listener_frame_trans; [|apply listener_frame_run_listeners].
  repeat split; try done. exists []. by rewrite app_nil_r.
Qed.

Lemma history_signal i s v w : history (signal i s v w) = history w ++ [(i, s)].
Proof. unfold signal. by rewrite run_listeners_history. Qed.

End PoolFrames.

(** ** First in, first out *)

Section PoolFifo.
Import Pool Fifo.


Lemma emit_executor_frame r ev w :
  jobs (emit_executor r ev w) = jobs w
  ∧ pulls (emit_executor r ev w) = pulls w
  ∧ nextPull (emit_executor r ev w) = nextPull w
  ∧ nextId (emit_executor r ev w) = nextId w
  ∧ pool (emit_executor r ev w) = pool w
  ∧ history (emit_executor r ev w) = history w.
Proof.
  unfold emit_executor.
  destruct (positive_finite (pendingTimeout (options ev)));
    destruct (waitForHandlers (options ev) && positive_finite _); done.
Qed.

Lemma emit_executor_emits r ev w :
  ∃ c, emits (emit_executor r ev w) = <[id ev := c]> (emits w)
       ∧ event c = ev ∧ target c = r ∧ promise c = Pending ∧ handlingTimer c = None
       ∧ pendingTimer c = (if positive_finite (pendingTimeout (options ev))
                           then Some (nextTimer w) else None).
Proof.
  unfold emit_executor.
  destruct (positive_finite (pendingTimeout (options ev)));
    destruct (waitForHandlers (options ev) && positive_finite _); cbn;
    rewrite ?alter_insert_eq; eexists; (split; [reflexivity|done]).
Qed.



Lemma records_id i opts es e : In e (records i opts es) → i ≤ id e.
Proof.
  revert i. induction es as [|[[n a] o] es IH]; intros i; cbn; [done|].
  intros [<-|He]; cbn; [lia|]. apply IH in He. lia.
Qed.



Lemma call_notifier_nextId q w : nextId (call_notifier q w) = nextId w.
Proof. unfold call_notifier. by repeat case_match. Qed.

Lemma ensure_stub_frame r w :
  emits (ensure_stub r w) = emits w ∧ nextId (ensure_stub r w) = nextId w
  ∧ listeners (ensure_stub r w) = listeners w ∧ timers (ensure_stub r w) = timers w
  ∧ nextTimer (ensure_stub r w) = nextTimer w ∧ jobs (ensure_stub r w) = jobs w
  ∧ pulls (ensure_stub r w) = pulls w ∧ nextPull (ensure_stub r w) = nextPull w
  ∧ history (ensure_stub r w) = history w
  ∧ poolOptions (pool (ensure_stub r w)) = poolOptions (pool w).
Proof. unfold ensure_stub. by case_match. Qed.











End PoolFifo.



(** ** The invariant holds in every reachable world *)

Section PoolInvariant.
Import Pool Inv.

(** Reads fields through the updates of a world. *)
Ltac fields :=
  cbn [pool nextId listeners emits pulls nextPull timers nextTimer jobs history
       queues poolOptions set_queues set_listeners set_emits set_pulls set_timers
       set_jobs set_history bump_nextId bump_nextPull bump_nextTimer enqueue
       setTimeout once set_pending set_active set_waitingSoNotify].
Tactic Notation "fields" "in" hyp(H) :=
  cbn [pool nextId listeners emits pulls nextPull timers nextTimer jobs history
       queues poolOptions set_queues set_listeners set_emits set_pulls set_timers
       set_jobs set_history bump_nextId bump_nextPull bump_nextTimer enqueue
       setTimeout once set_pending set_active set_waitingSoNotify] in H.

Lemma signalled_app i s h h' :
  signalled i s (h ++ h') = signalled i s h || signalled i s h'.
Proof. unfold signalled. apply existsb_app. Qed.

Lemma signalled_snoc i s h j s' :
  signalled i s (h ++ [(j, s')])
  = signalled i s h || (bool_decide (j = i) && bool_decide (s' = s)).
Proof.
  rewrite signalled_app. f_equal. unfold signalled. cbn. rewrite orb_false_r.
  unfold Signal_eqb. f_equal.
  destruct (Nat.eqb_spec j i); symmetry;
    [by apply bool_decide_eq_true_2 | by apply bool_decide_eq_false_2].
Qed.

Lemma signalled_snoc_other i s h j s' :
  (j ≠ i ∨ s' ≠ s) → signalled i s (h ++ [(j, s')]) = signalled i s h.
Proof.
  intros H. rewrite signalled_snoc.
  destruct H as [H|H]; rewrite (bool_decide_eq_false_2 _ H); cbn;
    by rewrite ?andb_false_r, orb_false_r.
Qed.

Lemma signalled_snoc_eq i s h : signalled i s (h ++ [(i, s)]) = true.
Proof.
  rewrite signalled_snoc, !bool_decide_eq_true_2 by done. by rewrite orb_true_r.
Qed.

Lemma record_of_ext w w' e r :
  emits w' = emits w → record_of w e r → record_of w' e r.
Proof. unfold record_of. by intros ->. Qed.

Lemma job_ok_ext w w' j :
  emits w' = emits w → pulls w' = pulls w → nextPull w' = nextPull w →
  job_ok w j → job_ok w' j.
Proof. unfold job_ok, record_of. intros -> -> ->. done. Qed.

Lemma stub_ok_ext w w' r s :
  emits w' = emits w → pulls w' = pulls w → history w' = history w →
  listeners w' = listeners w →
  stub_ok w r s → stub_ok w' r s.
Proof. unfold stub_ok, record_of. intros -> -> -> ->. done. Qed.

Lemma wf_constructor opts : wf (constructor opts).
Proof.
  constructor.
  - split.
    + intros i. cbn. rewrite lookup_empty. split; [by intros [? ?]|lia].
    + intros i c. cbn. by rewrite lookup_empty.
  - intros i. cbn. by rewrite !lookup_empty.
  - intros i c. cbn. by rewrite lookup_empty.
  - intros t a. cbn. by rewrite lookup_empty.
  - intros p c. cbn. by rewrite lookup_empty.
  - intros p c. cbn. by rewrite lookup_empty.
  - constructor.
  - split.
    + intros q. cbn. rewrite lookup_empty. split; [by intros [? ?]|lia].
    + intros q c e. cbn. by rewrite lookup_empty.
  - intros r s. cbn. by rewrite lookup_empty.
  - intros i s. cbn. done.
Qed.

(** Clauses that do not look at the jobs or the queues. *)
Lemma wf_frame w w' :
  emits w' = emits w → nextId w' = nextId w → listeners w' = listeners w →
  history w' = history w → timers w' = timers w → nextTimer w' = nextTimer w →
  pulls w' = pulls w → nextPull w' = nextPull w →
  jobs_ok w' → queues_ok w' →
  wf w → wf w'.
Proof.
  intros He Hn Hl Hh Ht Hnt Hp Hnp Hj Hq [].
  constructor; try done.
  - unfold emits_ok. by rewrite He, Hn.
  - unfold listeners_ok. by rewrite He, Hl, Hh.
  - unfold promise_ok. by rewrite He, Hh.
  - unfold timers_ok. by rewrite Ht, Hnt, He, Hh, Hnp.
  - unfold vars_ok. by rewrite He, Hnt, Ht, Hh.
  - unfold armed_ok. by rewrite He, Hh, Ht.
  - unfold pulls_ok, record_of. by rewrite Hp, Hnp, He.
  - unfold history_ok. by rewrite Hh, Hn.
Qed.

Lemma wf_ensure_stub r w : wf w → wf (ensure_stub r w).
Proof.
  intros Hw. unfold ensure_stub. destruct (queues (pool w) !! r) eqn:Hr; [done|].
  apply (wf_frame w); try done.
  - eapply Forall_impl; [apply Hw|]. intros j. by apply job_ok_ext.
  - intros r' s. cbn. rewrite lookup_insert. case_decide.
    + intros [= <-]. repeat split; try done; cbn; try done.
    + intros Hs. eapply stub_ok_ext; [..|by apply Hw]; done.
Qed.

Lemma wf_set_jobs f w :
  wf w → Forall (job_ok w) (f (jobs w)) → wf (set_jobs f w).
Proof.
  intros Hw Hj. apply (wf_frame w); try done.
  intros r s Hs. by apply Hw.
Qed.

Lemma wf_enqueue j w : wf w → job_ok w j → wf (enqueue j w).
Proof.
  intros Hw Hj. apply wf_set_jobs; [done|].
  apply Forall_app. split; [apply Hw|by constructor].
Qed.

Lemma wf_dequeue j rest w :
  wf w → jobs w = j :: rest → wf (set_jobs (λ _, rest) w) ∧ job_ok w j.
Proof.
  intros Hw Hj. pose proof (wf_jobs w Hw) as Hjobs. unfold jobs_ok in Hjobs.
  rewrite Hj in Hjobs. apply Forall_cons in Hjobs as [? ?].
  split; [by apply wf_set_jobs|done].
Qed.

Lemma wf_x_no_flags w : wf_x no_flags w ↔ wf w.
Proof.
  split; intros [He Hl Hp Ht Hv Ha Hj Hq Hs Hh]; constructor; try done.
  - intros i c Hc. specialize (Hp i c Hc). destruct (promise c); [|done..].
    destruct Hp as [[?|[_ ?]] [?|[_ ?]]]; done.
  - intros t a Hta. destruct (Ht t a Hta) as [? Ha']. split; [done|].
    destruct a as [p msg d|]; [|done].
    destruct Ha' as (c & ? & ? & Hd). exists c. split; [done|]. split; [done|].
    destruct Hd as [(?&?&?&Hs')|?]; [left|by right].
    repeat split; try done. by destruct Hs' as [?|[_ ?]].
  - intros r s Hrs. destruct (Hs r s Hrs) as (? & ? & Hact).
    split; [done|]. split; [done|].
    intros i e Hie. destruct (Hact i e Hie) as (? & ? & ? & [[[?|[_ ?]] ?]|[_ ?]]); done.
  - intros i c Hc. specialize (Hp i c Hc). destruct (promise c); [|done..].
    destruct Hp. split; by left.
  - intros t a Hta. destruct (Ht t a Hta) as [? Ha']. split; [done|].
    destruct a as [p msg d|]; [|done].
    destruct Ha' as (c & ? & ? & Hd). exists c. split; [done|]. split; [done|].
    destruct Hd as [(?&?&?&?)|?]; [left|by right].
    repeat split; try done. by left.
  - intros r s Hrs. destruct (Hs r s Hrs) as (? & ? & Hact).
    split; [done|]. split; [done|].
    intros i e Hie. destruct (Hact i e Hie) as (? & ? & ? & ? & ?).
    repeat split; try done. left. split; [by left|done].
Qed.

(** The flagged clauses do not look at the jobs. *)
Lemma wf_x_set_jobs x f w :
  wf_x x w → Forall (job_ok w) (f (jobs w)) → wf_x x (set_jobs f w).
Proof. intros [] Hj. constructor; done. Qed.

Lemma wf_x_enqueue x j w : wf_x x w → job_ok w j → wf_x x (enqueue j w).
Proof.
  intros Hw Hj. apply wf_x_set_jobs; [done|].
  apply Forall_app. split; [apply Hw|by constructor].
Qed.

(** Settling the promise of an emitter. *)
Lemma wf_x_settle x p st w :
  wf_x x w → is_Some (emits w !! p) → settles_ok w p st →
  wf_x (if decide (fx_record x = p) then clear_rr x else x) (settle p st w).
Proof.
  intros Hw [c Hc] Hst. unfold settle. rewrite Hc.
  destruct (is_pending (promise c)) eqn:Hpend.
  - (* the promise was pending *)
    assert (Hst' : promise (with_promise st c) ≠ Pending).
    { cbn. intros ->. done. }
    set (x' := if decide (fx_record x = p) then clear_rr x else x).
    assert (Hlk : ∀ i c1, emits (set_emits <[p:=with_promise st c]> w) !! i = Some c1 →
              ∃ c0, emits w !! i = Some c0 ∧ event c1 = event c0 ∧ target c1 = target c0
                    ∧ pendingTimer c1 = pendingTimer c0
                    ∧ handlingTimer c1 = handlingTimer c0
                    ∧ (i ≠ p → c1 = c0) ∧ (i = p → promise c1 = st)).
    { intros i c1. cbn. rewrite lookup_insert. case_decide as Hi.
      - subst i. intros [= <-]. exists c. by repeat split.
      - intros ?. exists c1. by repeat split. }
    assert (Hkl : ∀ i c0, emits w !! i = Some c0 →
              ∃ c1, emits (set_emits <[p:=with_promise st c]> w) !! i = Some c1
                    ∧ event c1 = event c0 ∧ target c1 = target c0
                    ∧ pendingTimer c1 = pendingTimer c0
                    ∧ handlingTimer c1 = handlingTimer c0
                    ∧ (promise c1 = Pending → promise c0 = Pending)).
    { intros i c0 Hi. cbn. rewrite lookup_insert. case_decide as Hip.
      - subst i. rewrite Hc in Hi. injection Hi as <-. eexists. by repeat split.
      - exists c0. by repeat split. }
    assert (Hrec : ∀ e r, record_of w e r →
              record_of (set_emits <[p:=with_promise st c]> w) e r).
    { intros e r (c0 & H0 & ? & ?). destruct (Hkl _ _ H0) as (c1 & ? & ? & ? & _).
      exists c1. repeat split; congruence. }
    destruct Hw as [He Hl Hp Ht Hv Ha Hj Hq Hs Hh].
    apply wf_x_enqueue; [constructor|].
    + destruct He as [He1 He2]. split.
      * intros i. cbn. rewrite <- He1. rewrite lookup_insert. case_decide; [subst|done].
        rewrite Hc. split; by eexists.
      * intros i c1 H1. destruct (Hlk _ _ H1) as (c0 & H0 & -> & _). eauto.
    + intros i. specialize (Hl i). cbn. rewrite lookup_insert.
      case_decide as Hi; [subst i|done]. by rewrite Hc in Hl.
    + intros i c1 H1. destruct (Hlk _ _ H1) as (c0 & H0 & E1 & E2 & _ & _ & Hne & Heq).
      destruct (decide (i = p)) as [->|Hip].
      * rewrite (Heq eq_refl). rewrite Hc in H0. injection H0 as <-.
        destruct st as [|v|[]]; try done. cbn in Hst.
        unfold resolvingEvent, mode. rewrite E1. by apply Hst.
      * rewrite (Hne Hip). specialize (Hp i c0 H0).
        destruct (promise c0); [|done..].
        destruct Hp as [H1' H2']. split.
        -- destruct H1' as [?|[? ?]]; [by left|]. right.
           unfold x'. by rewrite decide_False by congruence.
        -- destruct H2' as [?|[? ?]]; [by left|]. right.
           unfold x'. by rewrite decide_False by congruence.
    + intros t a Hta. destruct (Ht t a Hta) as [? Ha']. split; [done|].
      destruct a as [p' msg d|]; [|done].
      destruct Ha' as (c0 & H0 & ? & Hd).
      destruct (Hkl _ _ H0) as (c1 & Hc1 & E1 & E2 & E3 & E4 & _).
      exists c1. split; [done|]. split; [done|].
      unfold mode. rewrite E1, E3, E4.
      destruct Hd as [(?&?&?&[?|[? ?]])|(?&?&?&?&?)]; [left|left|right];
        repeat split; try done.
      * by left.
      * right. unfold x'. case_decide; done.
    + intros p' c1 H1. destruct (Hlk _ _ H1) as (c0 & H0 & E1 & E2 & E3 & E4 & _).
      rewrite E3, E4. by apply Hv.
    + intros p' c1 H1 Hpend1. destruct (Hlk _ _ H1) as (c0 & H0 & E1 & E2 & E3 & E4 & Hne & Heq).
      destruct (decide (p' = p)) as [->|Hpp].
      * rewrite (Heq eq_refl) in Hpend1. subst st. done.
      * rewrite (Hne Hpp) in *. by apply Ha.
    + eapply Forall_impl; [apply Hj|]. intros j Hjok.
      destruct j; cbn in *; try done.
      * destruct Hjok as (cq & ? & ?). exists cq. split; [done|]. by apply Hrec.
      * destruct Hjok as (c0 & H0 & ?). destruct (Hkl _ _ H0) as (c1 & ? & _ & _ & _ & _ & ?).
        exists c1. split; [done|]. intros ?. auto.
      * destruct Hjok as (c0 & H0 & ?). destruct (Hkl _ _ H0) as (c1 & ? & _ & _ & _ & _ & ?).
        exists c1. split; [done|]. intros ?. auto.
    + destruct Hq as [Hq1 Hq2]. split; [done|].
      intros q cq e ? ?. apply Hrec. by eapply Hq2.
    + intros r s Hrs. destruct (Hs r s Hrs) as (Hs1 & Hs2 & Hs3).
      split; [intros e ?; by apply Hrec, Hs1|]. split; [done|].
      intros i e Hie. destruct (Hs3 i e Hie) as (? & ? & ? & Hd).
      split; [done|]. split; [by apply Hrec|]. split; [done|].
      unfold x'. case_decide; done.
    + done.
    + cbn. exists (with_promise st c). split; [by rewrite lookup_insert_eq|done].
  - (* a settled promise stays as it is *)
    case_decide as Hx; [|done].
    destruct Hw as [He Hl Hp Ht Hv Ha Hj Hq Hs Hh]. constructor; try done.
    intros i c0 H0. specialize (Hp i c0 H0).
    destruct (promise c0) eqn:Hpr; [|done..].
    destruct (decide (i = p)) as [->|Hip].
    + rewrite Hc in H0. injection H0 as <-. by rewrite Hpr in Hpend.
    + destruct Hp as [[?|[? ?]] [?|[? ?]]]; try congruence. split; by left.
Qed.

(** Clearing the pending timer of an emitter whose promise is settled or
    whose record has been pulled. *)
Lemma wf_x_clear_pending x p c w :
  wf_x x w → emits w !! p = Some c →
  (promise c ≠ Pending ∨ signalled p Pulled (history w) = true) →
  wf_x (if decide (fx_record x = p) then clear_clear x else x)
    (clearTimeout (pendingTimer c) w).
Proof.
  intros [He Hl Hp Ht Hv Ha Hj Hq Hs Hh] Hc Hwhy.
  set (x' := if decide (fx_record x = p) then clear_clear x else x).
  assert (Hx' : ∀ p', p' ≠ p → p' = fx_record x ∧ fx_clear x = true →
                 p' = fx_record x' ∧ fx_clear x' = true).
  { intros p' Hne [-> ?]. unfold x'. by rewrite decide_False. }
  destruct (pendingTimer c) as [t0|] eqn:Ht0; cbn [clearTimeout].
  - constructor; try done.
    + intros i c' Hc'. specialize (Hp i c' Hc'). unfold x'. case_decide; done.
    + intros t a. fields. rewrite lookup_delete. case_decide as Ht'; [done|].
      intros Hta. destruct (Ht t a Hta) as [? Ha']. split; [done|].
      destruct a as [p' msg d|]; [|done].
      destruct Ha' as (c' & Hc' & ? & Hd). exists c'. split; [done|]. split; [done|].
      destruct Hd as [(?&?&?&Hd)|?]; [left|by right]. repeat split; try done.
      destruct Hd as [?|Hd]; [by left|]. right. apply Hx'; [|done].
      intros ->. rewrite Hc in Hc'. injection Hc' as <-. congruence.
    + intros p' c' Hc'. destruct (Hv p' c' Hc') as [Hv1 Hv2]. split.
      * intros t Hpt. destruct (Hv1 t Hpt) as [? Hv1']. split; [done|].
        intros a. fields. rewrite lookup_delete. case_decide; [done|]. apply Hv1'.
      * intros t Hpt. destruct (Hv2 t Hpt) as (? & ? & Hv2'). split; [done|]. split; [done|].
        intros a. fields. rewrite lookup_delete. case_decide; [done|]. apply Hv2'.
    + intros p' c' Hc' Hpend Hpf Hun.
      destruct (Ha p' c' Hc' Hpend Hpf Hun) as (t & Hpt & Hta).
      exists t. split; [done|]. fields. rewrite lookup_delete_ne; [done|].
      intros <-. destruct (Hv p c Hc) as [Hv1 _].
      destruct (Hv1 t0 Ht0) as [_ Hv1']. destruct (Hv1' _ Hta) as [d [= -> _]].
      fields in Hc'. fields in Hun. rewrite Hc in Hc'. injection Hc' as <-.
      destruct Hwhy; congruence.
    + intros r s Hrs. destruct (Hs r s Hrs) as (? & ? & Hact).
      split; [done|]. split; [done|].
      intros i e Hie. destruct (Hact i e Hie) as (? & ? & ? & Hd).
      repeat (split; [done|]). unfold x'. case_decide; done.
  - constructor; try done.
    + intros i c' Hc'. specialize (Hp i c' Hc'). unfold x'. case_decide; done.
    + intros t a Hta. destruct (Ht t a Hta) as [? Ha']. split; [done|].
      destruct a as [p' msg d|]; [|done].
      destruct Ha' as (c' & Hc' & ? & Hd). exists c'. split; [done|]. split; [done|].
      destruct Hd as [(?&?&?&Hd)|?]; [left|by right]. repeat split; try done.
      destruct Hd as [?|Hd]; [by left|]. right. apply Hx'; [|done].
      intros ->. rewrite Hc in Hc'. injection Hc' as <-. congruence.
    + intros r s Hrs. destruct (Hs r s Hrs) as (? & ? & Hact).
      split; [done|]. split; [done|].
      intros i e Hie. destruct (Hact i e Hie) as (? & ? & ? & Hd).
      repeat (split; [done|]). unfold x'. case_decide; done.
Qed.

Lemma wf_x_clear_handling x p c w :
  wf_x x w → emits w !! p = Some c → wf_x x (clearTimeout (handlingTimer c) w).
Proof.
  intros [He Hl Hp Ht Hv Ha Hj Hq Hs Hh] Hc.
  destruct (handlingTimer c) as [t0|] eqn:Ht0; cbn [clearTimeout]; [|done].
  constructor; try done.
  - intros t a. fields. rewrite lookup_delete. case_decide as Ht'; [done|]. apply Ht.
  - intros p' c' Hc'. destruct (Hv p' c' Hc') as [Hv1 Hv2]. split.
    + intros t Hpt. destruct (Hv1 t Hpt) as [? Hv1']. split; [done|].
      intros a. fields. rewrite lookup_delete. case_decide; [done|]. apply Hv1'.
    + intros t Hpt. destruct (Hv2 t Hpt) as (? & ? & Hv2'). split; [done|]. split; [done|].
      intros a. fields. rewrite lookup_delete. case_decide; [done|]. apply Hv2'.
  - intros p' c' Hc' Hpend Hpf Hun.
    destruct (Ha p' c' Hc' Hpend Hpf Hun) as (t & Hpt & Hta).
    exists t. split; [done|]. fields. rewrite lookup_delete_ne; [done|].
    intros <-. destruct (Hv p c Hc) as [_ Hv2].
    destruct (Hv2 t0 Ht0) as (_ & _ & Hv2'). by destruct (Hv2' _ Hta) as [d [= _ ?]].
Qed.

(** Arming the handling timer when "pulled" is signalled for the first
    time. *)
Lemma wf_x_arm x v p d c w :
  wf_x x w → emits w !! p = Some c →
  handlingTimer c = None → mode c = true →
  d = handlingTimeout (options (event c)) → positive_finite d = true →
  signalled p Pulled (history w) = true →
  wf_x x (run_listener v (LArmHandlingTimer p d) w).
Proof.
  intros [He Hl Hp Ht Hv Ha Hj Hq Hs Hh] Hc Hnone Hmode Hd Hpf Hsig.
  cbn [run_listener]. unfold setTimeout.
  set (c1 := with_handlingTimer (Some (nextTimer w)) c).
  assert (Hem : ∀ i, emits (set_emits (alter (with_handlingTimer (Some (nextTimer w))) p)
                             (bump_nextTimer
                                (set_timers <[nextTimer w:=TEmitTimeout p "event handling timed otu" d]> w))) !! i
                     = if decide (i = p) then Some c1 else emits w !! i).
  { intros i. fields. rewrite lookup_alter. case_decide as Hi; case_decide; try congruence.
    subst. by rewrite Hc. }
  assert (Hkl : ∀ i c0, emits w !! i = Some c0 →
            ∃ c', (if decide (i = p) then Some c1 else emits w !! i) = Some c'
                  ∧ event c' = event c0 ∧ target c' = target c0
                  ∧ pendingTimer c' = pendingTimer c0 ∧ promise c' = promise c0
                  ∧ (i ≠ p → c' = c0)).
  { intros i c0 H0. case_decide as Hi.
    - subst i. rewrite Hc in H0. injection H0 as <-. exists c1. by repeat split.
    - exists c0. by repeat split. }
  assert (Hlk : ∀ i c', (if decide (i = p) then Some c1 else emits w !! i) = Some c' →
            ∃ c0, emits w !! i = Some c0
                  ∧ event c' = event c0 ∧ target c' = target c0
                  ∧ pendingTimer c' = pendingTimer c0 ∧ promise c' = promise c0
                  ∧ (i ≠ p → c' = c0) ∧ (i = p → c0 = c ∧ c' = c1)).
  { intros i c'. case_decide as Hi.
    - subst i. intros [= <-]. exists c. by repeat split.
    - intros H0. exists c'. by repeat split. }
  assert (Hrec : ∀ e r w', emits w' = emits (set_emits (alter (with_handlingTimer (Some (nextTimer w))) p) w) →
            record_of w e r → record_of w' e r).
  { intros e r w' Hw' (c0 & H0 & ? & ?). unfold record_of. rewrite Hw'. fields.
    rewrite lookup_alter. case_decide as Hi.
    - rewrite Hi, H0. cbn. eexists. split; [done|]. done.
    - exists c0. done. }
  constructor.
  - destruct He as [He1 He2]. split.
    + intros i. rewrite Hem. cbn [nextId bump_nextTimer set_timers set_emits].
      rewrite <- He1. case_decide; [subst|done]. rewrite Hc. split; by eexists.
    + intros i c'. rewrite Hem. intros H'. destruct (Hlk _ _ H') as (c0 & H0 & -> & _). eauto.
  - intros i. specialize (Hl i). rewrite Hem. case_decide as Hi; [subst i|done].
    by rewrite Hc in Hl.
  - intros i c'. rewrite Hem. intros H'. destruct (Hlk _ _ H') as (c0 & H0 & E1 & _ & _ & E4 & _).
    rewrite E4. unfold resolvingEvent, mode. rewrite E1. by apply Hp.
  - intros t a. cbn [timers nextTimer bump_nextTimer set_timers set_emits].
    rewrite lookup_insert. case_decide as Htn.
    + subst t. intros [= <-]. split; [lia|]. exists c1. rewrite Hem, decide_True by done.
      split; [done|]. split; [done|]. right. by repeat split.
    + intros Hta. destruct (Ht t a Hta) as [? Ha']. split; [lia|].
      destruct a as [p' msg d'|]; [|done].
      destruct Ha' as (c0 & H0 & ? & Hd').
      destruct (Hkl _ _ H0) as (c' & H' & E1 & E2 & E3 & E4 & Hne).
      exists c'. rewrite Hem. split; [done|]. split; [done|].
      unfold mode. rewrite E1, E3.
      destruct Hd' as [(?&?&?&?)|(?&Hht&?&?&?)]; [by left|right].
      repeat split; try done.
      destruct (decide (p' = p)) as [->|Hpp].
      * rewrite Hc in H0. injection H0 as <-. congruence.
      * by rewrite (Hne Hpp).
  - intros p' c'. rewrite Hem. intros H'.
    destruct (Hlk _ _ H') as (c0 & H0 & E1 & E2 & E3 & E4 & Hne & Heq).
    destruct (Hv p' c0 H0) as [Hv1 Hv2].
    cbn [timers nextTimer history bump_nextTimer set_timers set_emits]. split.
    + rewrite E3. intros t Hpt. destruct (Hv1 t Hpt) as [? Hv1']. split; [lia|].
      intros a. rewrite lookup_insert_ne by lia. apply Hv1'.
    + destruct (decide (p' = p)) as [->|Hpp].
      * destruct (Heq eq_refl) as [-> ->]. cbn. intros t [= <-]. split; [lia|].
        split; [done|]. intros a. rewrite lookup_insert_eq. intros [= <-]. by eexists.
      * rewrite (Hne Hpp). intros t Hpt. destruct (Hv2 t Hpt) as (? & ? & Hv2').
        split; [lia|]. split; [done|]. intros a. rewrite lookup_insert_ne by lia. apply Hv2'.
  - intros p' c'. rewrite Hem. intros H' Hpend Hpf' Hun.
    destruct (Hlk _ _ H') as (c0 & H0 & E1 & E2 & E3 & E4 & Hne & Heq).
    rewrite E1, E3 in *. rewrite E4 in Hpend.
    destruct (Ha p' c0 H0 Hpend Hpf' Hun) as (t & Hpt & Hta).
    exists t. split; [done|]. fields. rewrite lookup_insert_ne; [done|].
    destruct (Ht t _ Hta). lia.
  - eapply Forall_impl; [apply Hj|]. intros j Hjok.
    destruct j; cbn in *; try done.
    + destruct Hjok as (cq & ? & ?). exists cq. split; [done|]. by eapply Hrec.
    + destruct Hjok as (c0 & H0 & ?). rewrite lookup_alter. case_decide as Hi.
      * subst. rewrite H0. cbn. eexists. split; [done|]. done.
      * by exists c0.
    + destruct Hjok as (c0 & H0 & ?). rewrite lookup_alter. case_decide as Hi.
      * subst. rewrite H0. cbn. eexists. split; [done|]. done.
      * by exists c0.
  - destruct Hq as [Hq1 Hq2]. split; [done|].
    intros q cq e ? ?. eapply Hrec; [done|]. by eapply Hq2.
  - intros r s Hrs. destruct (Hs r s Hrs) as (Hs1 & Hs2 & Hs3).
    split; [intros e ?; eapply Hrec; [done|]; by apply Hs1|]. split; [done|].
    intros i e Hie. destruct (Hs3 i e Hie) as (? & ? & ? & Hd').
    split; [done|]. split; [by eapply Hrec|]. done.
  - done.
Qed.

(** *** The listeners a signal calls *)

Lemma filter_repeat_handled s (x : Listener) k :
  List.filter (λ y : Signal * Listener, Signal_eqb (fst y) s) (repeat (Handled, x) k)
  = repeat (Handled, x) (if bool_decide (s = Handled) then k else 0).
Proof.
  induction k as [|k IH]; cbn; [by case_bool_decide|].
  rewrite IH. unfold Signal_eqb. destruct s; cbn; done.
Qed.

Lemma filter_repeat_not_handled s (x : Listener) k :
  List.filter (λ y : Signal * Listener, negb (Signal_eqb (fst y) s)) (repeat (Handled, x) k)
  = repeat (Handled, x) (if bool_decide (s = Handled) then 0 else k).
Proof.
  induction k as [|k IH]; cbn; [by case_bool_decide|].
  rewrite IH. unfold Signal_eqb. destruct s; cbn; done.
Qed.

Lemma map_snd_repeat (s : Signal) (x : Listener) k :
  map snd (repeat (s, x) k) = repeat x k.
Proof. induction k as [|k IH]; cbn; [done|]. by rewrite IH. Qed.

Lemma called_shape i o h s r k :
  map snd (List.filter (λ x, Signal_eqb (fst x) s)
             (remaining i o h ++ repeat (Handled, LActiveDelete r i) k))
  = called i s o r k h.
Proof.
  rewrite List.filter_app, map_app, filter_repeat_handled, map_snd_repeat.
  unfold called. rewrite !app_assoc. f_equal.
  unfold remaining, installed, Signal_eqb.
  destruct s, (waitForHandlers o), (positive_finite (pendingTimeout o)),
    (positive_finite (handlingTimeout o)); cbn;
    destruct (signalled i Pulled h), (signalled i Handled h), (signalled i Failed h),
      (signalled i Fetched h); reflexivity.
Qed.

Lemma kept_shape i o h s r k :
  List.filter (λ x, negb (Signal_eqb (fst x) s))
    (remaining i o h ++ repeat (Handled, LActiveDelete r i) k)
  = remaining i o (h ++ [(i, s)])
    ++ repeat (Handled, LActiveDelete r i) (if bool_decide (s = Handled) then 0 else k).
Proof.
  rewrite List.filter_app, filter_repeat_not_handled. f_equal.
  unfold remaining.
  rewrite (List.filter_ext (λ x, negb (signalled i (fst x) (h ++ [(i, s)])))
             (λ x, negb (signalled i (fst x) h) && negb (Signal_eqb (fst x) s))).
  2:{ intros [s' l]. cbn. rewrite signalled_snoc, bool_decide_eq_true_2 by done.
      cbn. rewrite negb_orb. f_equal. unfold Signal_eqb.
      destruct s, s'; done. }
  unfold installed, Signal_eqb.
  destruct s, (waitForHandlers o), (positive_finite (pendingTimeout o)),
    (positive_finite (handlingTimeout o)); cbn;
    destruct (signalled i Pulled h), (signalled i Handled h), (signalled i Failed h),
      (signalled i Fetched h); reflexivity.
Qed.

Lemma remaining_other i j o h s :
  i ≠ j → remaining i o (h ++ [(j, s)]) = remaining i o h.
Proof.
  intros Hij. unfold remaining. apply List.filter_ext. intros [s' l]. cbn.
  rewrite signalled_snoc_other; [done|]. left. congruence.
Qed.

Lemma run_listeners_app v ls1 ls2 w :
  run_listeners v (ls1 ++ ls2) w = run_listeners v ls2 (run_listeners v ls1 w).
Proof. revert w. induction ls1 as [|l ls1 IH]; intros w; cbn; [done|]. apply IH. Qed.

Lemma signalled_mono i s h h' : signalled i s h = true → signalled i s (h ++ h') = true.
Proof. intros H. by rewrite signalled_app, H. Qed.

Lemma signalled_mono_false i s h h' : signalled i s (h ++ h') = false → signalled i s h = false.
Proof. rewrite signalled_app. by intros [? ?]%orb_false_elim. Qed.

Lemma pulled_unhandled_snoc i h j s :
  (j ≠ i ∨ s ≠ Handled) → pulled_unhandled i h → pulled_unhandled i (h ++ [(j, s)]).
Proof.
  intros Hjs (h1 & h2 & -> & Hun). exists h1, (h2 ++ [(j, s)]). split.
  - by rewrite <- app_assoc.
  - by rewrite signalled_snoc_other.
Qed.

Lemma pulled_unhandled_now i h : pulled_unhandled i (h ++ [(i, Pulled)]).
Proof. by exists h, []. Qed.

Lemma not_installed_delete i o h r j :
  ¬ In (Handled, LActiveDelete r j) (remaining i o h).
Proof.
  unfold remaining. intros [Hin _]%filter_In. unfold installed in Hin.
  destruct (positive_finite (pendingTimeout o)),
    (waitForHandlers o && positive_finite (handlingTimeout o));
    cbn in Hin; repeat (destruct Hin as [Hin|Hin]; try discriminate); done.
Qed.

(** The world once a signal is logged and its listeners are taken off
    the record, before any of them has run. *)
Lemma wf_x_signal_begin i s c k fp w :
  wf_x (only_pulled i fp) w → (fp = true → s = Pulled) →
  emits w !! i = Some c →
  listeners w !! i
  = Some (remaining i (options (event c)) (history w)
          ++ repeat (Handled, LActiveDelete (target c) i) k) →
  wf_x (signal_flags i s c k (history w))
    (set_history (λ h, h ++ [(i, s)])
       (set_listeners
          (alter (λ _, List.filter (λ x, negb (Signal_eqb (fst x) s))
                         (remaining i (options (event c)) (history w)
                          ++ repeat (Handled, LActiveDelete (target c) i) k)) i) w)).
Proof.
  intros [He Hl Hp Ht Hv Ha Hj Hq Hs Hh] Hfp Hc Hli.
  constructor; try done.
  - intros j. specialize (Hl j). fields. rewrite lookup_alter.
    case_decide as Hij.
    + subst j. rewrite Hc. rewrite Hli. cbn [fmap option_fmap option_map].
      rewrite kept_shape. by eexists.
    + destruct (emits w !! j) as [cj|]; [|done].
      destruct Hl as [k' Hl]. exists k'. by rewrite remaining_other.
  - intros j cj Hcj. specialize (Hp j cj Hcj). fields. fields in Hcj.
    destruct (promise cj) as [|v|[]]; try done.
    + destruct Hp as [[Hp1|[_ [=]]] [Hp2|[_ [=]]]].
      destruct (decide (j = i)) as [->|Hji].
      * rewrite Hc in Hcj. injection Hcj as <-.
        rewrite !signalled_snoc, Hp1, Hp2, bool_decide_eq_true_2 by done. cbn.
        split.
        -- case_bool_decide as E; [|by left]. right. split; [done|].
           cbn. by rewrite E, Hp1.
        -- case_bool_decide as E; [|by left]. right. split; [done|].
           cbn. by rewrite E, Hp2.
      * split; left; rewrite signalled_snoc_other; auto.
    + by apply signalled_mono.
    + by apply signalled_mono.
  - intros t a Hta. destruct (Ht t a Hta) as [? Ha']. split; [done|].
    destruct a as [p msg d|]; [|done].
    destruct Ha' as (cp & Hcp & Hpf & Hd). exists cp. split; [done|]. split; [done|].
    fields. destruct Hd as [(?&?&?&[Hun|[_ [=]]])|(?&?&?&?&?)]; [left|right].
    + repeat split; try done.
      rewrite signalled_snoc, Hun. cbn.
      case_bool_decide as E1; [|by left]. case_bool_decide as E2; [|by left].
      right. subst. rewrite Hc in Hcp. injection Hcp as <-.
      split; [done|]. by rewrite Hun, Hpf.
    + repeat split; try done. by apply signalled_mono.
  - intros p cp Hcp. destruct (Hv p cp Hcp) as [Hv1 Hv2]. split; [done|].
    intros t Hpt. destruct (Hv2 t Hpt) as (? & ? & ?). repeat split; try done.
    fields. by apply signalled_mono.
  - intros p cp Hcp Hpend Hpf Hun. fields in Hun. apply signalled_mono_false in Hun.
    by apply Ha.
  - intros r st Hrs. destruct (Hs r st Hrs) as (Hs1 & Hs2 & Hs3).
    split; [done|]. split; [done|].
    intros j e Hje. destruct (Hs3 j e Hje) as (Hid & Hrec & Hwait & [[Hpu Hin]|[_ [=]]]).
    split; [done|]. split; [done|]. split; [done|].
    fields. rewrite lookup_alter.
    destruct (decide (j = i)) as [->|Hji].
    + rewrite decide_True by done.
      rewrite Hli in Hin |- *. cbn in Hin |- *.
      destruct Hrec as (c' & Hc' & _ & Htg). rewrite Hid, Hc in Hc'. injection Hc' as <-.
      subst r.
      destruct (decide (s = Handled)) as [->|Hsh].
      * right. split; [done|]. cbn. apply in_app_or in Hin as [Hin|Hin].
        -- by apply not_installed_delete in Hin.
        -- destruct k; [done|]. done.
      * left. split.
        -- left. destruct Hpu as [Hpu|[_ Hpu]].
           ++ apply pulled_unhandled_snoc; [by right|done].
           ++ cbn in Hpu. rewrite (Hfp Hpu). apply pulled_unhandled_now.
        -- apply filter_In. split; [done|]. cbn. unfold Signal_eqb.
           by rewrite bool_decide_eq_false_2 by congruence.
    + rewrite decide_False by done. left. split; [|done].
      left. destruct Hpu as [Hpu|[? _]]; [|done].
      apply pulled_unhandled_snoc; [by left|done].
  - intros j s'. fields. rewrite in_app_iff. intros [Hin|[[= <- <-]|[]]].
    + by eapply Hh.
    + apply He. by eexists.
Qed.

(** Deleting a record from [active] where its emit call filed it. *)
Lemma wf_x_delete_active x r i w :
  wf_x x w → (∀ c, emits w !! i = Some c → target c = r) →
  wf_x (if decide (fx_record x = i) then clear_delete x else x)
    (set_active r (delete i) w).
Proof.
  intros [He Hl Hp Ht Hv Ha Hj Hq Hs Hh] Htg.
  assert (Hsub : ∀ r' s', queues (pool (set_active r (delete i) w)) !! r' = Some s' →
            ∃ s0, queues (pool w) !! r' = Some s0 ∧ pending s' = pending s0
                  ∧ waitingSoNotify s' = waitingSoNotify s0
                  ∧ (∀ j e, active s' !! j = Some e →
                       active s0 !! j = Some e ∧ (r' = r → j ≠ i))).
  { intros r' s'. fields. rewrite lookup_alter. case_decide as Hr.
    - subst r'. destruct (queues (pool w) !! r) as [s0|]; [|done]. intros [= <-].
      exists s0. split; [done|]. split; [done|]. split; [done|].
      intros j e Hje. cbn in Hje. apply lookup_delete_Some in Hje as [Hne Hje].
      split; [done|]. intros _. congruence.
    - intros Hs'. exists s'. repeat split; try done. }
  constructor; try done.
  - intros j c Hc. specialize (Hp j c Hc). case_decide; done.
  - intros t a Hta. specialize (Ht t a Hta). case_decide; done.
  - intros r' s' Hrs'. destruct (Hsub r' s' Hrs') as (s0 & H0 & E1 & E2 & Hact).
    destruct (Hs r' s0 H0) as (Hs1 & Hs2 & Hs3).
    split; [by rewrite E1|]. split; [by rewrite E2|].
    intros j e Hje. destruct (Hact j e Hje) as [Hje0 Hne].
    destruct (Hs3 j e Hje0) as (Hid & Hrec & Hwait & Hd).
    split; [done|]. split; [done|]. split; [done|].
    destruct Hd as [Hd|[Hji Hd]].
    + left. destruct Hd as [Hd ?]. split; [|done].
      destruct Hd as [?|[-> ?]]; [by left|right]. case_decide; done.
    + case_decide as Hx; [exfalso|by right].
      destruct Hrec as (c & Hc & _ & Htc). rewrite Hid in Hc.
      apply Hne; [|congruence]. rewrite <- Htc. apply Htg. congruence.
Qed.

Lemma wf_x_weaken x x' w : flags_le x x' → wf_x x w → wf_x x' w.
Proof.
  intros (Hr & H1 & H2 & H3 & H4 & H5) [He Hl Hp Ht Hv Ha Hj Hq Hs Hh].
  constructor; try done.
  - intros i c Hc. specialize (Hp i c Hc). destruct (promise c); [|done..].
    destruct Hp as [Hp1 Hp2]. split.
    + destruct Hp1 as [?|[? ?]]; [by left|right]. split; [congruence|auto].
    + destruct Hp2 as [?|[? ?]]; [by left|right]. split; [congruence|auto].
  - intros t a Hta. destruct (Ht t a Hta) as [? Ha']. split; [done|].
    destruct a as [p msg d|]; [|done].
    destruct Ha' as (c & ? & ? & Hd). exists c. split; [done|]. split; [done|].
    destruct Hd as [(?&?&?&Hd)|?]; [left|by right]. repeat split; try done.
    destruct Hd as [?|[? ?]]; [by left|right]. split; [congruence|auto].
  - intros r s Hrs. destruct (Hs r s Hrs) as (? & ? & Hact).
    split; [done|]. split; [done|].
    intros i e Hie. destruct (Hact i e Hie) as (? & ? & ? & Hd).
    repeat (split; [done|]).
    destruct Hd as [[Hd ?]|[? ?]]; [left|right].
    + split; [|done]. destruct Hd as [?|[? ?]]; [by left|right].
      split; [congruence|auto].
    + split; [congruence|auto].
Qed.

Lemma wf_x_done x w :
  fx_resolve x = false → fx_reject x = false → fx_clear x = false →
  fx_delete x = false → fx_pulled x = false →
  wf_x x w → wf w.
Proof.
  intros H1 H2 H3 H4 H5 [He Hl Hp Ht Hv Ha Hj Hq Hs Hh]. constructor; try done.
  - intros i c Hc. specialize (Hp i c Hc). destruct (promise c); [|done..].
    destruct Hp as [[?|[_ ?]] [?|[_ ?]]]; try congruence. done.
  - intros t a Hta. destruct (Ht t a Hta) as [? Ha']. split; [done|].
    destruct a as [p msg d|]; [|done].
    destruct Ha' as (c & ? & ? & Hd). exists c. split; [done|]. split; [done|].
    destruct Hd as [(?&?&?&Hs')|?]; [left|by right].
    repeat split; try done. destruct Hs' as [?|[_ ?]]; [done|congruence].
  - intros r s Hrs. destruct (Hs r s Hrs) as (? & ? & Hact).
    split; [done|]. split; [done|].
    intros i e Hie.
    destruct (Hact i e Hie) as (? & ? & ? & [[[?|[_ ?]] ?]|[_ ?]]); try congruence.
    done.
Qed.

Lemma wf_only_pulled i w : wf w → wf_x (only_pulled i false) w.
Proof.
  intros Hw. apply wf_x_no_flags in Hw. revert Hw.
  intros [He Hl Hp Ht Hv Ha Hj Hq Hs Hh]. constructor; try done.
  - intros j c Hc. specialize (Hp j c Hc). destruct (promise c); [|done..].
    destruct Hp as [[?|[_ [=]]] [?|[_ [=]]]]. split; by left.
  - intros t a Hta. destruct (Ht t a Hta) as [? Ha']. split; [done|].
    destruct a as [p msg d|]; [|done].
    destruct Ha' as (c & ? & ? & Hd). exists c. split; [done|]. split; [done|].
    destruct Hd as [(?&?&?&[?|[_ [=]]])|?]; [left|by right].
    repeat split; try done. by left.
  - intros r s Hrs. destruct (Hs r s Hrs) as (? & ? & Hact).
    split; [done|]. split; [done|].
    intros j e Hje.
    destruct (Hact j e Hje) as (? & ? & ? & [[[?|[_ [=]]] ?]|[_ [=]]]).
    repeat (split; [done|]). left. split; [by left|done].
Qed.

Lemma settle_fields p st w :
  history (settle p st w) = history w ∧ listeners (settle p st w) = listeners w
  ∧ timers (settle p st w) = timers w ∧ nextTimer (settle p st w) = nextTimer w
  ∧ pool (settle p st w) = pool w
  ∧ (∀ i c0, emits w !! i = Some c0 →
       ∃ c', emits (settle p st w) !! i = Some c'
             ∧ event c' = event c0 ∧ target c' = target c0
             ∧ pendingTimer c' = pendingTimer c0
             ∧ handlingTimer c' = handlingTimer c0
             ∧ (is_pending st = false → i = p → promise c' ≠ Pending)).
Proof.
  unfold settle. destruct (emits w !! p) as [c|] eqn:Hc.
  - destruct (is_pending (promise c)) eqn:Hpc.
    + repeat split; try done. intros i c0 H0. fields. rewrite lookup_insert.
      case_decide as Hi.
      * subst i. rewrite Hc in H0. injection H0 as <-. eexists. repeat split; try done.
        cbn. intros Hst _ ->. done.
      * exists c0. by repeat split.
    + repeat split; try done. intros i c0 H0. exists c0. repeat split; try done.
      intros _ ->. rewrite Hc in H0. injection H0 as <-. intros Hp. by rewrite Hp in Hpc.
  - repeat split; try done. intros i c0 H0. exists c0. repeat split; try done.
    intros _ ->. congruence.
Qed.

(** *** The listeners of a signal, one after the other *)

Lemma phase_resolve x v i c (b : bool) w :
  wf_x x w → fx_record x = i → emits w !! i = Some c →
  (b = true → signalled i (resolvingEvent c) (history w) = true) →
  (b = false → fx_resolve x = false) →
  wf_x (clear_resolve x) (run_listeners v (if b then [LResolve i] else []) w).
Proof.
  intros Hw Hx Hc Hsig Hb. destruct b; cbn [run_listeners run_listener].
  - pose proof (wf_x_settle x i (Fulfilled v) w Hw) as H.
    rewrite decide_True in H by done.
    eapply wf_x_weaken; [|apply H; [by eexists|]].
    + unfold flags_le. cbn. repeat split; done.
    + cbn. intros c'. rewrite Hc. intros [= <-]. by apply Hsig.
  - eapply wf_x_weaken; [|done]. unfold flags_le. cbn. repeat split; try done.
    rewrite Hb; done.
Qed.

Lemma phase_reject x v i c (b : bool) w :
  wf_x x w → fx_record x = i → emits w !! i = Some c →
  (b = true → signalled i Failed (history w) = true) →
  (b = false → fx_reject x = false) →
  wf_x (clear_reject x) (run_listeners v (if b then [LReject i] else []) w).
Proof.
  intros Hw Hx Hc Hsig Hb. destruct b; cbn [run_listeners run_listener].
  - pose proof (wf_x_settle x i (Rejected (Failure v)) w Hw) as H.
    rewrite decide_True in H by done.
    eapply wf_x_weaken; [|apply H; [by eexists|]].
    + unfold flags_le. cbn. repeat split; done.
    + cbn. by apply Hsig.
  - eapply wf_x_weaken; [|done]. unfold flags_le. cbn. repeat split; try done.
    rewrite Hb; done.
Qed.

Lemma phase_clear x v i c (b : bool) w :
  wf_x x w → fx_record x = i → emits w !! i = Some c →
  (b = true → signalled i Pulled (history w) = true) →
  (b = false → fx_clear x = false) →
  wf_x (clear_clear x) (run_listeners v (if b then [LClearPendingTimer i] else []) w).
Proof.
  intros Hw Hx Hc Hsig Hb. destruct b; cbn [run_listeners run_listener].
  - rewrite Hc. cbn [mbind option_bind].
    pose proof (wf_x_clear_pending x i c w Hw Hc) as H.
    rewrite decide_True in H by done. apply H. right. by apply Hsig.
  - eapply wf_x_weaken; [|done]. unfold flags_le. cbn. repeat split; try done.
    rewrite Hb; done.
Qed.

Lemma phase_arm x v i c (b : bool) w :
  wf_x x w → emits w !! i = Some c →
  (b = true → handlingTimer c = None ∧ mode c = true
              ∧ positive_finite (handlingTimeout (options (event c))) = true
              ∧ signalled i Pulled (history w) = true) →
  wf_x x (run_listeners v
            (if b then [LArmHandlingTimer i (handlingTimeout (options (event c)))]
             else []) w).
Proof.
  intros Hw Hc Hb. destruct b; cbn [run_listeners]; [|done].
  destruct Hb as (? & ? & ? & ?); [done|]. by eapply wf_x_arm.
Qed.

Lemma phase_delete x v r i n w :
  wf_x x w → fx_record x = i → (∀ c, emits w !! i = Some c → target c = r) →
  (n = 0 → fx_delete x = false) →
  wf_x (clear_delete x) (run_listeners v (repeat (LActiveDelete r i) n) w).
Proof.
  intros Hw Hx Htg Hn.
  assert (Hstep : ∀ n w, wf_x (clear_delete x) w →
            (∀ c, emits w !! i = Some c → target c = r) →
            wf_x (clear_delete x) (run_listeners v (repeat (LActiveDelete r i) n) w)).
  { clear. intros n. induction n as [|n IH]; intros w Hw Htg; cbn; [done|].
    apply IH; [|done].
    pose proof (wf_x_delete_active (clear_delete x) r i w Hw Htg) as H.
    case_decide; [|done]. revert H. apply wf_x_weaken. unfold flags_le. by cbn. }
  destruct n as [|n].
  - cbn. eapply wf_x_weaken; [|done]. unfold flags_le. cbn. repeat split; try done.
    by rewrite Hn.
  - cbn [repeat run_listeners run_listener]. apply Hstep; [|done].
    pose proof (wf_x_delete_active x r i w Hw Htg) as H.
    by rewrite decide_True in H.
Qed.

(** A signal on a record keeps the invariant, also when [pull] has just
    filed the record under [active] and signals "pulled". *)
Lemma wf_signal i s v fp w :
  wf_x (only_pulled i fp) w → (fp = true → s = Pulled) → is_Some (emits w !! i) →
  wf (signal i s v w).
Proof.
  intros Hw Hfp [c Hc].
  pose proof (wfx_listeners _ _ Hw i) as Hli. rewrite Hc in Hli. destruct Hli as [k Hli].
  pose proof (wf_x_signal_begin i s c k fp w Hw Hfp Hc Hli) as H0.
  assert (Hht : signalled i Pulled (history w) = false → handlingTimer c = None).
  { intros Hun. destruct (handlingTimer c) eqn:E; [|done].
    destruct (wfx_vars _ _ Hw i c Hc) as [_ Hv2]. destruct (Hv2 _ E) as (_ & Hs & _).
    congruence. }
  unfold signal. rewrite Hli. cbn [from_option]. unfold Datatypes.id. rewrite called_shape.
  set (w0 := set_history _ (set_listeners _ w)) in *.
  assert (Hh0 : history w0 = history w ++ [(i, s)]) by done.
  assert (Hc0 : emits w0 !! i = Some c) by done.
  unfold called. rewrite !run_listeners_app.
  unfold signal_flags in H0. unfold resolvingEvent, mode in H0.
  set (o := options (event c)) in *.
  set (fresh := negb (signalled i s (history w))) in *.
  (* resolve *)
  set (bR := fresh && bool_decide (s = (if waitForHandlers o then Handled else Pulled))) in *.
  set (bJ := fresh && bool_decide (s = Failed)) in *.
  set (bC := fresh && bool_decide (s = Pulled) && positive_finite (pendingTimeout o)) in *.
  set (bA := fresh && bool_decide (s = Pulled) && waitForHandlers o
             && positive_finite (handlingTimeout o)).
  set (n := if bool_decide (s = Handled) then k else 0).
  match type of H0 with wf_x ?x _ => set (x0 := x) in * end.
  set (w1 := run_listeners v (if bR then [LResolve i] else []) w0).
  assert (H1 : wf_x (clear_resolve x0) w1).
  { apply (phase_resolve _ v i c bR w0 H0); [done|done| |done].
    intros [_ E%bool_decide_eq_true]%andb_prop.
    rewrite Hh0. unfold resolvingEvent, mode. fold o. rewrite <- E.
    apply signalled_snoc_eq. }
  assert (F1 : history w1 = history w0
               ∧ ∃ c1, emits w1 !! i = Some c1 ∧ event c1 = event c ∧ target c1 = target c
                       ∧ pendingTimer c1 = pendingTimer c
                       ∧ handlingTimer c1 = handlingTimer c).
  { unfold w1. destruct bR; cbn [run_listeners run_listener].
    - destruct (settle_fields i (Fulfilled v) w0) as (? & _ & _ & _ & _ & Hf).
      split; [done|]. destruct (Hf i c Hc0) as (c1 & ? & ? & ? & ? & ? & _). by exists c1.
    - split; [done|]. by exists c. }
  destruct F1 as (Hh1 & c1 & Hc1 & Ee1 & Et1 & Ep1 & Eh1).
  (* reject *)
  set (w2 := run_listeners v (if bJ then [LReject i] else []) w1).
  assert (H2 : wf_x (clear_reject (clear_resolve x0)) w2).
  { apply (phase_reject _ v i c1 bJ w1 H1); [done|done| |done].
    intros [_ E%bool_decide_eq_true]%andb_prop.
    rewrite Hh1, Hh0, E. apply signalled_snoc_eq. }
  assert (F2 : history w2 = history w0
               ∧ ∃ c2, emits w2 !! i = Some c2 ∧ event c2 = event c ∧ target c2 = target c
                       ∧ pendingTimer c2 = pendingTimer c
                       ∧ handlingTimer c2 = handlingTimer c).
  { unfold w2. destruct bJ; cbn [run_listeners run_listener].
    - destruct (settle_fields i (Rejected (Failure v)) w1) as (? & _ & _ & _ & _ & Hf).
      split; [congruence|]. destruct (Hf i c1 Hc1) as (c2 & ? & ? & ? & ? & ? & _).
      exists c2. repeat split; congruence.
    - split; [done|]. by exists c1. }
  destruct F2 as (Hh2 & c2 & Hc2 & Ee2 & Et2 & Ep2 & Eh2).
  (* clear the pending timer *)
  set (w3 := run_listeners v (if bC then [LClearPendingTimer i] else []) w2).
  assert (H3 : wf_x (clear_clear (clear_reject (clear_resolve x0))) w3).
  { apply (phase_clear _ v i c2 bC w2 H2); [done|done| |done].
    intros [[_ E%bool_decide_eq_true]%andb_prop _]%andb_prop.
    rewrite Hh2, Hh0, E. apply signalled_snoc_eq. }
  assert (F3 : history w3 = history w0 ∧ emits w3 = emits w2).
  { unfold w3. destruct bC; cbn [run_listeners run_listener]; [|done].
    unfold clearTimeout. by destruct (_ ≫= _). }
  destruct F3 as (Hh3 & He3).
  (* arm the handling timer *)
  set (w4 := run_listeners v
               (if bA then [LArmHandlingTimer i (handlingTimeout o)] else []) w3).
  assert (H4 : wf_x (clear_clear (clear_reject (clear_resolve x0))) w4).
  { unfold w4, o. rewrite <- Ee2.
    apply (phase_arm _ v i c2 bA w3 H3); [by rewrite He3|].
    intros [[[Hf E%bool_decide_eq_true]%andb_prop Hm]%andb_prop Hpf]%andb_prop.
    unfold mode. rewrite Ee2, Eh2, Hh3, Hh0, E. fold o.
    split; [|split; [done|split; [done|apply signalled_snoc_eq]]].
    apply Hht. subst s. unfold fresh in Hf. by apply negb_true_iff in Hf. }
  (* delete from active *)
  assert (H5 : wf_x (clear_delete (clear_clear (clear_reject (clear_resolve x0))))
                 (run_listeners v (repeat (LActiveDelete (target c) i) n) w4)).
  { apply (phase_delete _ v (target c) i n w4 H4); [done| |].
    - intros c4 Hc4. unfold w4 in Hc4.
      assert (∃ c3, emits w3 !! i = Some c3 ∧ target c4 = target c3) as (c3 & Hc3 & ->).
      { destruct bA; cbn [run_listeners run_listener] in Hc4; [|by exists c4].
        fields in Hc4. rewrite lookup_alter_eq in Hc4.
        destruct (emits w3 !! i) as [c3|]; [|done]. injection Hc4 as <-. by exists c3. }
      rewrite He3, Hc2 in Hc3. injection Hc3 as <-. done.
    - cbn. unfold n. case_bool_decide; [|done]. intros ->. done. }
  revert H5. apply wf_x_done; cbn; try done.
Qed.

(** *** The steps of [pull] *)

Lemma wf_set_queues f w :
  wf w → queues_ok (set_queues f w) → wf (set_queues f w).
Proof. intros [] Hq. constructor; done. Qed.

Lemma wf_set_waitingSoNotify r n w :
  wf w →
  (∀ q, n = Some q → ∃ c, pulls w !! q = Some c ∧ recipient c = r) →
  wf (set_waitingSoNotify r n w).
Proof.
  intros Hw Hn. apply wf_set_queues; [done|].
  intros r' s'. fields. rewrite lookup_alter. case_decide as Hr.
  - subst r'. destruct (queues (pool w) !! r) as [s0|] eqn:H0; [|done].
    intros [= <-]. destruct (wf_queues w Hw r s0 H0) as (? & ? & ?).
    split; [done|]. split; [|done]. done.
  - intros Hs'. by apply (wf_queues w Hw).
Qed.

Lemma wf_set_pending r l w :
  wf w → (∀ e, In e l → record_of w e r) → wf (set_pending r l w).
Proof.
  intros Hw Hl. apply wf_set_queues; [done|].
  intros r' s'. fields. rewrite lookup_alter. case_decide as Hr.
  - subst r'. destruct (queues (pool w) !! r) as [s0|] eqn:H0; [|done].
    intros [= <-]. destruct (wf_queues w Hw r s0 H0) as (? & ? & ?).
    split; [done|]. split; done.
  - intros Hs'. by apply (wf_queues w Hw).
Qed.

(** The closure of a call of [pull] changes, its recipient does not. *)
Lemma wf_update_pull q c c' w :
  wf w → pulls w !! q = Some c → recipient c' = recipient c →
  (∀ e, result c' = Fulfilled e → record_of w e (recipient c)) →
  wf (set_pulls (insert q c') w).
Proof.
  intros [He Hl Hp Ht Hv Ha Hj Hq Hs Hh] Hc Hrc Hres.
  assert (Hlk : ∀ q' cq, pulls w !! q' = Some cq →
            ∃ cq', <[q:=c']> (pulls w) !! q' = Some cq' ∧ recipient cq' = recipient cq).
  { intros q' cq Hq'. rewrite lookup_insert. case_decide as E.
    - subst q'. rewrite Hc in Hq'. injection Hq' as <-. by exists c'.
    - by exists cq. }
  constructor; try done.
  - eapply Forall_impl; [apply Hj|]. intros j Hjok.
    destruct j; cbn in *; try done.
    destruct Hjok as (cq & Hcq & ?). destruct (Hlk _ _ Hcq) as (cq' & ? & E).
    exists cq'. by rewrite E.
  - destruct Hq as [Hq1 Hq2]. split.
    + intros q'. fields. rewrite <- Hq1, lookup_insert. case_decide; [subst|done].
      rewrite Hc. split; by eexists.
    + intros q' cq e. fields. rewrite lookup_insert. case_decide as E.
      * subst q'. intros [= <-] Hr. rewrite Hrc. by apply Hres.
      * apply Hq2.
  - intros r s Hrs. destruct (Hs r s Hrs) as (? & Hslot & ?).
    split; [done|]. split; [|done].
    intros q' Hq'. destruct (Hslot q' Hq') as (cq & Hcq & ?).
    destruct (Hlk _ _ Hcq) as (cq' & ? & E). exists cq'. split; [done|]. congruence.
Qed.

Lemma wf_new_pull c0 w :
  wf w → result c0 = Pending →
  wf (bump_nextPull (set_pulls (insert (nextPull w) c0) w)).
Proof.
  intros [He Hl Hp Ht Hv Ha Hj Hq Hs Hh] Hres.
  destruct Hq as [Hq1 Hq2].
  assert (Hfresh : pulls w !! nextPull w = None).
  { destruct (pulls w !! nextPull w) eqn:E; [|done].
    assert (nextPull w < nextPull w) by (apply Hq1; by eexists). lia. }
  assert (Hlk : ∀ q' cq, pulls w !! q' = Some cq →
            <[nextPull w:=c0]> (pulls w) !! q' = Some cq).
  { intros q' cq Hq'. rewrite lookup_insert_ne; [done|]. congruence. }
  constructor; try done.
  - intros t a Hta. destruct (Ht t a Hta) as [? Ha']. split; [done|].
    destruct a; [done|]. fields. lia.
  - eapply Forall_impl; [apply Hj|]. intros j Hjok.
    destruct j; cbn in *; try lia; try done.
    destruct Hjok as (cq & Hcq & ?). exists cq. split; [by apply Hlk|done].
  - split.
    + intros q'. fields. rewrite lookup_insert. case_decide as E.
      * subst q'. split; [lia|by eexists].
      * rewrite Hq1. lia.
    + intros q' cq e. fields. rewrite lookup_insert. case_decide as E.
      * intros [= <-]. congruence.
      * apply Hq2.
  - intros r s Hrs. destruct (Hs r s Hrs) as (? & Hslot & ?).
    split; [done|]. split; [|done].
    intros q' Hq'. destruct (Hslot q' Hq') as (cq & Hcq & ?).
    exists cq. split; [by apply Hlk|done].
Qed.

Lemma wf_setTimeout_pull q d w :
  wf w → q < nextPull w → wf (setTimeout (TPullTimeout q d) w).
Proof.
  intros [He Hl Hp Ht Hv Ha Hj Hq Hs Hh] Hlt.
  constructor; try done.
  - intros t a. fields. rewrite lookup_insert. case_decide as E.
    + subst t. intros [= <-]. split; [lia|done].
    + intros Hta. destruct (Ht t a Hta) as [? Ha']. split; [lia|done].
  - intros p c Hc. destruct (Hv p c Hc) as [Hv1 Hv2]. fields. split.
    + intros t Hpt. destruct (Hv1 t Hpt) as [? Hv1']. split; [lia|].
      intros a. rewrite lookup_insert_ne by lia. apply Hv1'.
    + intros t Hpt. destruct (Hv2 t Hpt) as (? & ? & Hv2'). split; [lia|]. split; [done|].
      intros a. rewrite lookup_insert_ne by lia. apply Hv2'.
  - intros p c Hc Hpend Hpf Hun. destruct (Ha p c Hc Hpend Hpf Hun) as (t & Hpt & Hta).
    exists t. split; [done|]. fields. rewrite lookup_insert_ne; [done|].
    destruct (Ht t _ Hta). lia.
Qed.

Lemma wf_pull recipientId timeout w : wf w → wf (snd (pull recipientId timeout w)).
Proof.
  intros Hw. unfold pull. destruct (recipient_key recipientId) as [r|]; [|done].
  cbn zeta. pose proof (wf_ensure_stub r w Hw) as Hw'.
  pose proof (ensure_stub_lookup r w) as Hsome.
  set (w1 := ensure_stub r w) in *.
  case_match; cbn [snd].
  - apply wf_enqueue; [by apply wf_new_pull|]. cbn. lia.
  - apply wf_setTimeout_pull; [|cbn; lia].
    apply wf_set_waitingSoNotify; [by apply wf_new_pull|].
    intros q [= <-]. fields. rewrite lookup_insert_eq. by eexists.
Qed.

Lemma run_listener_emits v l w i c0 :
  emits w !! i = Some c0 →
  ∃ c', emits (run_listener v l w) !! i = Some c'
        ∧ event c' = event c0 ∧ target c' = target c0.
Proof.
  intros H0. destruct l as [p|p|p|p d|r j]; cbn [run_listener].
  - destruct (settle_fields p (Fulfilled v) w) as (_ & _ & _ & _ & _ & Hf).
    destruct (Hf i c0 H0) as (c' & ? & ? & ? & _). by exists c'.
  - destruct (settle_fields p (Rejected (Failure v)) w) as (_ & _ & _ & _ & _ & Hf).
    destruct (Hf i c0 H0) as (c' & ? & ? & ? & _). by exists c'.
  - unfold clearTimeout. destruct (_ ≫= _); by exists c0.
  - fields. rewrite lookup_alter. case_decide as E.
    + subst. rewrite H0. cbn. by eexists.
    + by exists c0.
  - by exists c0.
Qed.

Lemma run_listeners_emits v ls w i c0 :
  emits w !! i = Some c0 →
  ∃ c', emits (run_listeners v ls w) !! i = Some c'
        ∧ event c' = event c0 ∧ target c' = target c0.
Proof.
  revert w c0. induction ls as [|l ls IH]; intros w c0 H0; cbn; [by exists c0|].
  destruct (run_listener_emits v l w i c0 H0) as (c1 & H1 & E1 & E2).
  destruct (IH _ _ H1) as (c' & ? & ? & ?). exists c'. repeat split; congruence.
Qed.

Lemma signal_record_of i s v w e r :
  record_of w e r → record_of (signal i s v w) e r.
Proof.
  intros (c0 & H0 & ? & ?). unfold signal.
  destruct (run_listeners_emits v
              (map snd (List.filter (λ x, Signal_eqb (fst x) s) (default [] (listeners w !! i))))
              (set_history (λ h, h ++ [(i, s)])
                 (set_listeners
                    (alter (λ _, List.filter (λ x, negb (Signal_eqb (fst x) s))
                                   (default [] (listeners w !! i))) i) w))
              (id e) c0 H0) as (c' & ? & ? & ?).
  exists c'. repeat split; congruence.
Qed.

(** [pull] files the record it is about to hand over under [active]. *)
Lemma wf_track r e w :
  wf w → is_Some (queues (pool w) !! r) → record_of w e r →
  waitForHandlers (options e) = true →
  wf_x (only_pulled (id e) true)
    (once (id e) Handled (LActiveDelete r (id e)) (set_active r (insert (id e) e) w)).
Proof.
  intros Hw [s0 Hs0] Hrec Hwait.
  pose proof (wf_only_pulled (id e) w Hw) as Hx.
  destruct Hx as [He Hl Hp Ht Hv Ha Hj Hq Hs Hh].
  destruct Hrec as (c & Hc & Hev & Htg).
  assert (Hli : ∀ j ls, listeners w !! j = Some ls →
            ∃ ls', <[id e:=default [] (listeners w !! id e)
                           ++ [(Handled, LActiveDelete r (id e))]]> (listeners w) !! j
                   = Some ls' ∧ ∀ x, In x ls → In x ls').
  { intros j ls Hj'. rewrite lookup_insert. case_decide as E.
    - subst j. rewrite Hj'. cbn. eexists. split; [done|]. intros x ?.
      apply in_or_app. by left.
    - by exists ls. }
  constructor; try done.
  - intros j. specialize (Hl j). fields. rewrite lookup_insert. case_decide as E.
    + subst j. rewrite Hc in Hl |- *. destruct Hl as [k Hl]. exists (S k).
      rewrite Hl. cbn [from_option]. unfold Datatypes.id.
      rewrite <- app_assoc. do 2 f_equal. rewrite Htg.
      cbn [repeat]. by rewrite repeat_cons.
    + done.
  - intros r' s'. fields. rewrite lookup_alter. case_decide as Hr.
    + subst r'. rewrite Hs0. intros [= <-].
      destruct (Hs r s0 Hs0) as (Hs1 & Hs2 & Hs3).
      split; [done|]. split; [done|].
      intros j e'. cbn [active]. rewrite lookup_insert. case_decide as E.
      * subst j. intros [= <-]. split; [done|]. split; [by exists c|]. split; [done|].
        left. split; [by right|]. fields. rewrite lookup_insert_eq. cbn.
        apply in_or_app. right. by left.
      * intros Hje. destruct (Hs3 j e' Hje) as (? & ? & ? & [[Hd Hin]|[_ [=]]]).
        repeat (split; [done|]). left. split.
        -- destruct Hd as [?|[_ [=]]]. by left.
        -- fields. rewrite lookup_insert_ne by done. done.
    + intros Hs'. destruct (Hs r' s' Hs') as (Hs1 & Hs2 & Hs3).
      split; [done|]. split; [done|].
      intros j e' Hje. destruct (Hs3 j e' Hje) as (? & ? & ? & [[Hd Hin]|[_ [=]]]).
      repeat (split; [done|]). left. split.
      * destruct Hd as [?|[_ [=]]]. by left.
      * fields. destruct (listeners w !! j) as [ls|] eqn:Hlj; [|done].
        destruct (Hli j ls Hlj) as (ls' & -> & Hsub). by apply Hsub.
Qed.

(** *** Notifier, jobs and timers *)

Lemma wf_call_notifier q w : wf w → wf (call_notifier q w).
Proof.
  intros Hw. unfold call_notifier. destruct (pulls w !! q) as [c|] eqn:Hc; [|done].
  assert (Hw1 : wf (set_waitingSoNotify (recipient c) None w)).
  { by apply wf_set_waitingSoNotify. }
  destruct (notified c); [done|].
  apply wf_enqueue.
  - eapply (wf_update_pull q c); [done|done|done|].
    cbn. intros e He. by apply (proj2 (wf_pulls w Hw) q c e).
  - cbn. apply (proj1 (wf_pulls w Hw)). by eexists.
Qed.

Lemma wf_settle_race q st next w :
  wf w → q < nextPull w →
  (∀ w', nextPull w' = nextPull w → job_ok w' next) →
  wf (settle_race q st next w).
Proof.
  intros Hw Hq Hnext. unfold settle_race.
  destruct (pulls w !! q) as [c|] eqn:Hc; [|done].
  destruct (is_pending (waited c)); [|done].
  apply wf_enqueue; [|by apply Hnext].
  eapply (wf_update_pull q c); [done|done|done|].
  cbn. intros e He. by apply (proj2 (wf_pulls w Hw) q c e).
Qed.

Lemma wf_pull_catch q e w : wf w → wf (pull_catch q e w).
Proof.
  intros Hw. unfold pull_catch. destruct (pulls w !! q) as [c|] eqn:Hc; [|done].
  eapply (wf_update_pull q c); [by apply wf_set_waitingSoNotify|done|done|].
  cbn. done.
Qed.

Lemma wf_pull_then q w : wf w → q < nextPull w → wf (pull_then q w).
Proof.
  intros Hw Hq. unfold pull_then.
  destruct (pulls w !! q) as [c|] eqn:Hc; [|done].
  set (r := recipient c).
  assert (Hw1 : wf (set_waitingSoNotify r None w)) by by apply wf_set_waitingSoNotify.
  set (w1 := set_waitingSoNotify r None w) in *.
  destruct (pending (stub_of r w1)) as [|ev rest] eqn:Hpend.
  { apply wf_enqueue; [done|]. cbn. done. }
  destruct (queues (pool w1) !! r) as [s1|] eqn:Hs1; last first.
  { unfold stub_of in Hpend. by rewrite Hs1 in Hpend. }
  assert (Hs1' : pending s1 = ev :: rest).
  { unfold stub_of in Hpend. by rewrite Hs1 in Hpend. }
  destruct (wf_queues w1 Hw1 r s1 Hs1) as (Hp1 & _ & _).
  assert (Hrec : record_of w1 ev r) by (apply Hp1; rewrite Hs1'; by left).
  assert (Hw2 : wf (set_pending r rest w1)).
  { apply wf_set_pending; [done|]. intros e He. apply Hp1. rewrite Hs1'. by right. }
  set (w2 := set_pending r rest w1) in *.
  assert (Hsome2 : is_Some (queues (pool w2) !! r)).
  { apply is_Some_queues_alter. by eexists. }
  set (w3 := if event_waitForHandlers ev
             then once (id ev) Handled (LActiveDelete r (id ev))
                    (set_active r (insert (id ev) ev) w2)
             else w2).
  assert (Hw3 : wf_x (only_pulled (id ev) (event_waitForHandlers ev)) w3).
  { unfold w3. destruct (event_waitForHandlers ev) eqn:Hwait.
    - by apply wf_track.
    - by apply wf_only_pulled. }
  assert (Hem3 : emits w3 = emits w ∧ pulls w3 = pulls w).
  { unfold w3. by destruct (event_waitForHandlers ev). }
  destruct Hem3 as [Hem3 Hpl3].
  assert (Hrec3 : record_of w3 ev r).
  { destruct Hrec as (c0 & ? & ? & ?). exists c0. by rewrite Hem3. }
  assert (Hw4 : wf (signal (id ev) Pulled VUndefined w3)).
  { eapply wf_signal; [done|done|]. destruct Hrec3 as (c0 & -> & _). by eexists. }
  apply wf_enqueue; [done|].
  cbn. exists c.
  destruct (listener_frame_signal (id ev) Pulled VUndefined w3) as (-> & _).
  rewrite Hpl3. split; [done|]. by apply signal_record_of.
Qed.

Lemma wf_emit_then p w : wf w → job_ok w (JEmitThen p) → wf (run_job (JEmitThen p) w).
Proof.
  intros Hw (c & Hc & Hpend). cbn [run_job]. rewrite Hc. cbn [mbind option_bind].
  apply wf_x_no_flags in Hw.
  pose proof (wf_x_clear_pending no_flags p c w Hw Hc (or_introl Hpend)) as H1.
  assert (H2 : wf_x no_flags (clearTimeout (pendingTimer c) w)).
  { revert H1. case_decide; [|done]. apply wf_x_weaken. unfold flags_le. by cbn. }
  apply wf_x_no_flags. apply (wf_x_clear_handling no_flags p c); [done|].
  unfold clearTimeout. by destruct (pendingTimer c).
Qed.

Lemma wf_run_job j w : wf w → job_ok w j → wf (run_job j w).
Proof.
  intros Hw Hj. destruct j as [q|q e|q|q e|q e|q ev|p|p]; cbn [run_job].
  - apply wf_settle_race; [done|done|]. intros w' Hw'. cbn. by rewrite Hw'.
  - apply wf_settle_race; [done|done|]. intros w' Hw'. cbn. by rewrite Hw'.
  - by apply wf_pull_then.
  - by apply wf_enqueue.
  - by apply wf_pull_catch.
  - destruct Hj as (c & Hc & Hrec).
    assert (set_pulls (alter (λ c, {| recipient := recipient c; notified := notified c;
                                      waited := waited c; result := Fulfilled ev |}) q) w
            = set_pulls (insert q {| recipient := recipient c; notified := notified c;
                                     waited := waited c; result := Fulfilled ev |}) w) as ->.
    { unfold set_pulls. do 2 f_equal. apply map_eq. intros q'.
      rewrite lookup_alter, lookup_insert. case_decide; [subst|done]. by rewrite Hc. }
    eapply (wf_update_pull q c); [done|done|done|]. cbn. by intros e [= <-].
  - apply wf_enqueue; [done|]. done.
  - by apply wf_emit_then.
Qed.

(** A timer fires. *)
Lemma wf_fire t a w :
  wf w → timers w !! t = Some a → wf (run_timer a (set_timers (delete t) w)).
Proof.
  intros Hw Hta. destruct (wf_timers w Hw t a Hta) as [Hlt Ha].
  destruct a as [p msg d|q d]; cbn [run_timer].
  - destruct Ha as (c & Hc & Hpf & Hd).
    (* the promise is settled first, then the timer taken away *)
    assert (Hcomm : settle p (Rejected (ETIMEDOUT msg)) (set_timers (delete t) w)
                    = set_timers (delete t) (settle p (Rejected (ETIMEDOUT msg)) w)).
    { unfold settle. fields. destruct (emits w !! p); [|done].
      by destruct (is_pending _). }
    rewrite Hcomm.
    apply wf_x_no_flags in Hw.
    pose proof (wf_x_settle no_flags p (Rejected (ETIMEDOUT msg)) w Hw) as H1.
    assert (H2 : wf_x no_flags (settle p (Rejected (ETIMEDOUT msg)) w)).
    { eapply wf_x_weaken; [|apply H1; [by eexists|done]].
      case_decide; unfold flags_le; by cbn. }
    destruct (settle_fields p (Rejected (ETIMEDOUT msg)) w)
      as (Hh & _ & Ht' & _ & _ & Hf).
    destruct (Hf p c Hc) as (c' & Hc' & _ & _ & Ep & Eh & Hnp).
    specialize (Hnp eq_refl eq_refl).
    apply wf_x_no_flags.
    destruct Hd as [(_ & Hpt & _)|(_ & Hht & _)].
    + pose proof (wf_x_clear_pending no_flags p c' _ H2 Hc' (or_introl Hnp)) as H3.
      rewrite Ep, Hpt in H3. cbn [clearTimeout] in H3.
      revert H3. case_decide; [|done]. apply wf_x_weaken. unfold flags_le. by cbn.
    + pose proof (wf_x_clear_handling no_flags p c' _ H2 Hc') as H3.
      rewrite Eh, Hht in H3. done.
  - apply wf_enqueue; [|done].
    destruct Hw as [He Hl Hp Ht Hv Ha' Hj Hq Hs Hh]. constructor; try done.
    + intros t' a'. fields. rewrite lookup_delete. case_decide; [done|]. apply Ht.
    + intros p c Hc. destruct (Hv p c Hc) as [Hv1 Hv2]. fields. split.
      * intros t' Hpt. destruct (Hv1 t' Hpt) as [? Hv1']. split; [done|].
        intros a'. rewrite lookup_delete. case_decide; [done|]. apply Hv1'.
      * intros t' Hpt. destruct (Hv2 t' Hpt) as (? & ? & Hv2'). split; [done|].
        split; [done|].
        intros a'. rewrite lookup_delete. case_decide; [done|]. apply Hv2'.
    + intros p c Hc Hpend Hpf Hun.
      destruct (Ha' p c Hc Hpend Hpf Hun) as (t' & Hpt & Hta').
      exists t'. split; [done|]. fields. rewrite lookup_delete_ne; [done|].
      intros <-. congruence.
Qed.

(** *** An emit call *)

(** What the executor leaves behind, field by field. *)
Lemma emit_executor_fields r ev w :
  listeners w !! id ev = None →
  let o := options ev in
  let armed := positive_finite (pendingTimeout o) in
  let w' := emit_executor r ev w in
  emits w' = <[id ev := {| event := ev; target := r; promise := Pending;
                           pendingTimer := if armed then Some (nextTimer w) else None;
                           handlingTimer := None |}]> (emits w)
  ∧ listeners w' = <[id ev := installed (id ev) o]> (listeners w)
  ∧ timers w' = (if armed
                 then <[nextTimer w := TEmitTimeout (id ev) pendingMessage (pendingTimeout o)]>
                        (timers w)
                 else timers w)
  ∧ nextTimer w' = (if armed then S (nextTimer w) else nextTimer w)
  ∧ pool w' = pool w ∧ nextId w' = nextId w ∧ pulls w' = pulls w
  ∧ nextPull w' = nextPull w ∧ jobs w' = jobs w ∧ history w' = history w.
Proof.
  intros Hnone o armed w'. unfold w', emit_executor, installed. fold o. fold armed.
  destruct armed, (waitForHandlers o), (positive_finite (handlingTimeout o)); cbn;
    rewrite ?lookup_insert_eq, ?insert_insert_eq, ?alter_insert_eq, Hnone; cbn;
    repeat split; done.
Qed.

Lemma wf_push_record r n a opts w :
  wf w → is_Some (queues (pool w) !! r) →
  let ev := new_Event (nextId w) n a opts in
  wf (emit_executor r ev (set_pending r (pending (stub_of r w) ++ [ev]) (bump_nextId w))).
Proof.
  intros Hw [s0 Hs0] ev.
  set (w0 := set_pending r (pending (stub_of r w) ++ [ev]) (bump_nextId w)).
  destruct Hw as [He Hl Hp Ht Hv Ha Hj Hq Hs Hh].
  destruct He as [He1 He2].
  assert (Hfresh : emits w !! nextId w = None).
  { destruct (emits w !! nextId w) eqn:E; [|done].
    assert (nextId w < nextId w) by (apply He1; by eexists). lia. }
  assert (Hlfresh : listeners w !! nextId w = None).
  { specialize (Hl (nextId w)). by rewrite Hfresh in Hl. }
  destruct (emit_executor_fields r ev w0 Hlfresh)
    as (Eem & Eli & Eti & Ent & Epo & Eni & Epu & Enp & Ejo & Ehi).
  cbn [id ev new_Event options] in *. fold ev in Eem, Eli, Eti, Ent.
  set (w' := emit_executor r ev w0) in *.
  set (armed := positive_finite (pendingTimeout opts)) in *.
  set (c0 := {| event := ev; target := r; promise := Pending;
                pendingTimer := if armed then Some (nextTimer w) else None;
                handlingTimer := None |}) in *.
  change (emits w0) with (emits w) in Eem. change (listeners w0) with (listeners w) in Eli.
  change (timers w0) with (timers w) in Eti. change (nextTimer w0) with (nextTimer w) in *.
  change (nextId w0) with (S (nextId w)) in Eni. change (pulls w0) with (pulls w) in Epu.
  change (nextPull w0) with (nextPull w) in Enp. change (jobs w0) with (jobs w) in Ejo.
  change (history w0) with (history w) in Ehi.
  assert (Hunsig : ∀ s, signalled (nextId w) s (history w) = false).
  { intros s. unfold signalled. apply not_true_is_false. intros Hex.
    apply existsb_exists in Hex as ([j s'] & Hin & Hjs). cbn in Hjs.
    apply andb_prop in Hjs as [Hj' _]. apply Nat.eqb_eq in Hj'. subst j.
    apply Hh in Hin. lia. }
  assert (Hold : ∀ i c, emits w !! i = Some c → emits w' !! i = Some c ∧ i ≠ nextId w).
  { intros i c Hc. assert (i ≠ nextId w) by congruence.
    rewrite Eem, lookup_insert_ne by done. done. }
  assert (Hnew : ∀ i c, emits w' !! i = Some c →
            (i = nextId w ∧ c = c0) ∨ (i ≠ nextId w ∧ emits w !! i = Some c)).
  { intros i c. rewrite Eem, lookup_insert. case_decide as E.
    - intros [= <-]. by left.
    - intros ?. right. split; [congruence|done]. }
  assert (Hrec : ∀ e r', record_of w e r' → record_of w' e r').
  { intros e r' (c & Hc & ? & ?). exists c. split; [by apply Hold|done]. }
  assert (Hti : ∀ t x, timers w !! t = Some x → timers w' !! t = Some x).
  { intros t x Hta. rewrite Eti. destruct armed; [|done].
    rewrite lookup_insert_ne; [done|]. destruct (Ht t x Hta). lia. }
  assert (Hnt : nextTimer w ≤ nextTimer w').
  { rewrite Ent. destruct armed; lia. }
  constructor.
  - split.
    + intros i. rewrite Eem, Eni, lookup_insert. case_decide as E.
      * subst i. split; [lia|by eexists].
      * rewrite He1. lia.
    + intros i c Hc. destruct (Hnew i c Hc) as [[-> ->]|[_ Hc']]; [done|eauto].
  - intros i. rewrite Eem, Eli, Ehi, !lookup_insert. case_decide as E.
    + subst i. exists 0. cbn [repeat event c0 ev new_Event options].
      rewrite app_nil_r. f_equal. unfold remaining. symmetry.
      rewrite (List.filter_ext _ (λ _, true)).
      * generalize (installed (nextId w) opts). clear.
        intros l. induction l as [|x l IH]; simpl; [done|]. by f_equal.
      * intros [s l]. cbn. by rewrite Hunsig.
    + apply Hl.
  - intros i c Hc. rewrite Ehi.
    destruct (Hnew i c Hc) as [[-> ->]|[_ Hc']]; [|by apply Hp].
    cbn. by rewrite !Hunsig.
  - intros t x. rewrite Eti, Ent, Ehi, Enp.
    assert (Hcase : ∀ t0 x0, timers w !! t0 = Some x0 →
              t0 < (if armed then S (nextTimer w) else nextTimer w)
              ∧ match x0 with
                | TEmitTimeout p msg d =>
                    ∃ c, emits w' !! p = Some c ∧ positive_finite d = true
                      ∧ (msg = pendingMessage ∧ pendingTimer c = Some t0
                         ∧ d = pendingTimeout (options (event c))
                         ∧ signalled p Pulled (history w) = false
                         ∨ msg = handlingMessage ∧ handlingTimer c = Some t0
                           ∧ d = handlingTimeout (options (event c))
                           ∧ mode c = true ∧ signalled p Pulled (history w) = true)
                | TPullTimeout q _ => q < nextPull w
                end).
    { intros t' a' Hta. destruct (Ht t' a' Hta) as [? Ha']. split.
      - destruct armed; lia.
      - destruct a' as [p msg d|]; [|done].
        destruct Ha' as (c & Hc & ? & ?). exists c. split; [by apply Hold|done]. }
    destruct armed eqn:Harm; [|apply Hcase].
    rewrite lookup_insert. case_decide as E; [|apply Hcase].
    subst t. intros [= <-]. split; [lia|].
    exists c0. rewrite Eem, lookup_insert_eq. split; [done|]. split; [done|].
    left. cbn. by rewrite Hunsig.
  - intros p c Hc. rewrite Ehi.
    destruct (Hnew p c Hc) as [[-> ->]|[Hne Hc']].
    + cbn. split; [|done]. intros t Ht'. destruct armed eqn:Harm; [|done].
      injection Ht' as <-. rewrite Ent, Eti, ?Harm. split; [lia|].
      intros a'. rewrite lookup_insert_eq. intros [= <-]. by eexists.
    + destruct (Hv p c Hc') as [Hv1 Hv2]. split.
      * intros t Hpt. destruct (Hv1 t Hpt) as [? Hv1']. split; [lia|].
        intros a'. rewrite Eti. destruct armed; [|apply Hv1'].
        rewrite lookup_insert_ne by lia. apply Hv1'.
      * intros t Hpt. destruct (Hv2 t Hpt) as (? & ? & Hv2'). split; [lia|].
        split; [done|].
        intros a'. rewrite Eti. destruct armed; [|apply Hv2'].
        rewrite lookup_insert_ne by lia. apply Hv2'.
  - intros p c Hc Hpend Hpf Hun. rewrite Ehi in Hun.
    destruct (Hnew p c Hc) as [[-> ->]|[Hne Hc']].
    + cbn in Hpf |- *. fold armed in Hpf. rewrite Hpf. eexists. split; [done|].
      by rewrite Eti, Hpf, lookup_insert_eq.
    + destruct (Ha p c Hc' Hpend Hpf Hun) as (t & ? & ?). exists t. split; [done|].
      by apply Hti.
  - unfold jobs_ok. rewrite Ejo. eapply Forall_impl; [apply Hj|]. intros j Hjok.
    destruct j; cbn in *; rewrite ?Enp, ?Epu; try done.
    + destruct Hjok as (cq & ? & ?). exists cq. split; [done|]. by apply Hrec.
    + destruct Hjok as (c & Hc & ?). exists c. split; [by apply Hold|done].
    + destruct Hjok as (c & Hc & ?). exists c. split; [by apply Hold|done].
  - destruct Hq as [Hq1 Hq2]. split.
    + intros q. rewrite Epu, Enp. apply Hq1.
    + intros q cq e. rewrite Epu. intros ? ?. apply Hrec. by eapply Hq2.
  - intros r' s'. rewrite Epo. unfold w0. fields. rewrite lookup_alter.
    assert (Hstub : ∀ s1, stub_ok w r' s1 → stub_ok w' r' s1).
    { intros s1 (H1 & H2 & H3). split; [intros e ?; by apply Hrec, H1|].
      split; [by rewrite Epu|].
      intros i e Hie. destruct (H3 i e Hie) as (Hid & Hre & ? & ? & Hin).
      split; [done|]. split; [by apply Hrec|]. split; [done|]. rewrite Ehi.
      split; [done|]. rewrite Eli, lookup_insert_ne; [done|].
      destruct Hre as (c & Hc & _). rewrite Hid in Hc. intros <-. congruence. }
    case_decide as E.
    + subst r'. rewrite Hs0. intros [= <-].
      destruct (Hstub s0 (Hs r s0 Hs0)) as (H1 & H2 & H3).
      split; [|split; done].
      intros e. cbn [pending]. unfold stub_of. rewrite Hs0. cbn [from_option].
      unfold Datatypes.id. rewrite in_app_iff. intros [Hin|[<-|[]]]; [by apply H1|].
      exists c0. rewrite Eem. cbn [id ev new_Event]. by rewrite lookup_insert_eq.
    + intros Hs'. by apply Hstub, Hs.
  - intros i s. rewrite Ehi, Eni. intros Hin. apply Hh in Hin. lia.
Qed.

(** The executor and the notifier work on disjoint parts of the state. *)
Lemma emit_executor_call_notifier r ev q w :
  emit_executor r ev (call_notifier q w) = call_notifier q (emit_executor r ev w).
Proof.
  unfold call_notifier.
  assert (Hp : pulls (emit_executor r ev w) = pulls w).
  { unfold emit_executor.
    by destruct (positive_finite (pendingTimeout (options ev))),
      (waitForHandlers (options ev) && positive_finite (handlingTimeout (options ev))). }
  rewrite Hp. destruct (pulls w !! q) as [c|]; [|done].
  unfold emit_executor.
  by destruct (notified c), (positive_finite (pendingTimeout (options ev))),
    (waitForHandlers (options ev) && positive_finite (handlingTimeout (options ev))).
Qed.

Lemma wf_emitWithOptions r n a o w :
  wf w → wf (emitWithOptions r n a o w).2.
Proof.
  intros Hw. unfold emitWithOptions.
  destruct (recipient_key r) as [k|]; [|done].
  pose proof (wf_ensure_stub k w Hw) as Hw1.
  pose proof (ensure_stub_lookup k w) as Hk.
  set (w1 := ensure_stub k w) in *.
  destruct (length_ge _ _); [done|]. cbn [snd].
  set (ev := new_Event _ _ _ _).
  set (w2 := set_pending k _ (bump_nextId w1)).
  assert (Hw2 : wf (emit_executor k ev w2)).
  { apply wf_push_record; [done|by eexists]. }
  destruct (waitingSoNotify (stub_of k w2)); [|done].
  rewrite emit_executor_call_notifier. by apply wf_call_notifier.
Qed.

Lemma wf_step l w w' : wf w → step l w = Some w' → wf w'.
Proof.
  intros Hw. destruct l as [r n a o|r n a|r n a|r t|i s v|t|]; cbn [step].
  - intros [= <-]. by apply wf_emitWithOptions.
  - intros [= <-]. by apply wf_emitWithOptions.
  - intros [= <-]. by apply wf_emitWithOptions.
  - intros [= <-]. by apply wf_pull.
  - destruct (i <? nextId w) eqn:Hi; [|done]. intros [= <-].
    apply Nat.ltb_lt in Hi.
    apply (wf_signal i s v false); [by apply wf_only_pulled|done|].
    by apply (wf_emits w Hw).
  - destruct (jobs w) eqn:Hj; [|done].
    destruct (timers w !! t) as [a|] eqn:Ht; [|done]. intros [= <-].
    by apply wf_fire.
  - destruct (jobs w) as [|j rest] eqn:Hj; [done|]. intros [= <-].
    destruct (wf_dequeue j rest w Hw Hj) as [Hw1 Hjok].
    apply wf_run_job; [done|]. by apply (job_ok_ext w).
Qed.

Lemma wf_run ls : ∀ w w', wf w → run ls w = Some w' → wf w'.
Proof.
  induction ls as [|l ls IH]; intros w w' Hw; cbn.
  - by intros [= <-].
  - destruct (step l w) as [w1|] eqn:Hs; [|done]. cbn.
    apply IH. by eapply wf_step.
Qed.

(** Every state the pool can reach satisfies the invariant. *)
Lemma wf_reachable w : reachable w → wf w.
Proof.
  intros (opts & ls & Hrun). eapply wf_run; [|exact Hrun]. apply wf_constructor.
Qed.

End PoolInvariant.

(** ** What holds in every state a pool can reach *)

Section PoolReachable.
Import Pool Inv.

Lemma reachable_after ls w :
  run ls (constructor no_overrides) = Some w → reachable (Scenario.after ls).
Proof.
  intros Hrun. exists no_overrides, ls. unfold Scenario.after. by rewrite Hrun.
Qed.

Lemma reachable_step l w w' : reachable w → step l w = Some w' → reachable w'.
Proof.
  intros (opts & ls & Hrun) Hstep. exists opts, (ls ++ [l]).
  revert Hrun. generalize (constructor opts). induction ls as [|x ls IH]; intros w0; cbn.
  - intros [= ->]. by rewrite Hstep.
  - destruct (step x w0) as [w1|]; [|done]. cbn. apply IH.
Qed.

Lemma stub_of_lookup r w s : queues (pool w) !! r = Some s → stub_of r w = s.
Proof. unfold stub_of. by intros ->. Qed.

Lemma stub_of_pending_lookup r w e :
  In e (pending (stub_of r w)) → queues (pool w) !! r = Some (stub_of r w).
Proof. unfold stub_of. by destruct (queues (pool w) !! r). Qed.

Lemma stub_of_active_lookup r w i e :
  active (stub_of r w) !! i = Some e → queues (pool w) !! r = Some (stub_of r w).
Proof. unfold stub_of. by destruct (queues (pool w) !! r). Qed.

End PoolReachable.

(** X1: in every state the pool can reach, each record waiting in the
    pending queue of a recipient is one an emit call created for that
    very recipient: its identifier is below the counter of identifiers,
    and the closure of the emit call kept under that identifier holds
    the same record and names the recipient as its target. *)
Theorem pending_records_emitted (w : Pool.World) (r : string) (e : Pool.Event) :
  Inv.reachable w →
  In e (Pool.pending (Pool.stub_of r w)) →
  Pool.id e < Pool.nextId w
  ∧ ∃ c, Pool.emits w !! Pool.id e = Some c ∧ Pool.event c = e ∧ Pool.target c = r.
Proof.
  intros Hw He. apply wf_reachable in Hw.
  pose proof (stub_of_pending_lookup r w e He) as Hs.
  destruct (Inv.wf_queues w Hw r _ Hs) as [Hp _].
  destruct (Hp e He) as (c & Hc & Hev & Hr).
  split; [|by exists c].
  apply (Inv.wf_emits w Hw). by exists c.
Qed.

Lemma pending_records_emitted_witness :
  Pool.id Scenario.record < Pool.nextId (Scenario.after Scenario.emitted)
  ∧ ∃ c, Pool.emits (Scenario.after Scenario.emitted) !! Pool.id Scenario.record = Some c
         ∧ Pool.event c = Scenario.record ∧ Pool.target c = "r"%string.
Proof.
  apply (pending_records_emitted (Scenario.after Scenario.emitted) "r" Scenario.record).
  - eapply reachable_after. vm_compute. reflexivity.
  - vm_compute. left. reflexivity.
Defined.

Section PoolHistory.
Import Pool Inv.

Lemma signalled_here i s : signalled i s [(i, s)] = true.
Proof. apply (signalled_snoc_eq i s []). Qed.

Lemma pulled_unhandled_pulled i h : pulled_unhandled i h → signalled i Pulled h = true.
Proof.
  intros (h1 & h2 & -> & _). rewrite signalled_app.
  change ((i, Pulled) :: h2) with ([(i, Pulled)] ++ h2).
  by rewrite signalled_app, signalled_here, orb_true_r.
Qed.

(** A log ending in "handled" for [i] has no "pulled" for [i] after the
    last "handled". *)
Lemma pulled_unhandled_not_last i h : ¬ pulled_unhandled i (h ++ [(i, Handled)]).
Proof.
  intros (h1 & h2 & Heq & Hno).
  destruct h2 as [|x h3 _] using rev_ind.
  - apply (app_inj_tail h h1) in Heq as [_ [=]].
  - change ((i, Pulled) :: h3 ++ [x]) with (((i, Pulled) :: h3) ++ [x]) in Heq.
    rewrite app_assoc in Heq. apply app_inj_tail in Heq as [_ <-].
    by rewrite signalled_snoc_eq in Hno.
Qed.

End PoolHistory.

(** X2: in every reachable state, a record kept in a recipient's [active]
    map is filed under its own identifier, was created by an emit call
    for that recipient whose options ask to wait for the handlers, and
    has been signalled "pulled" with no "handled" since. *)
Theorem active_records_await_handlers (w : Pool.World) (r : string) (i : nat)
    (e : Pool.Event) :
  Inv.reachable w →
  Pool.active (Pool.stub_of r w) !! i = Some e →
  Pool.id e = i
  ∧ waitForHandlers (Pool.options e) = true
  ∧ (∃ c, Pool.emits w !! i = Some c ∧ Pool.event c = e ∧ Pool.target c = r)
  ∧ Inv.signalled i Pulled (Pool.history w) = true
  ∧ Inv.pulled_unhandled i (Pool.history w).
Proof.
  intros Hw He. apply wf_reachable in Hw.
  pose proof (stub_of_active_lookup r w i e He) as Hs.
  destruct (Inv.wf_queues w Hw r _ Hs) as (_ & _ & Ha).
  destruct (Ha i e He) as (Hid & (c & Hc & Hev & Hr) & Hmode & Hpu & _).
  split; [done|]. split; [done|]. split.
  { exists c. by rewrite <- Hid. }
  split; [by apply pulled_unhandled_pulled|done].
Qed.

Lemma active_records_await_handlers_witness :
  Pool.id Scenario.record = 0
  ∧ waitForHandlers (Pool.options Scenario.record) = true
  ∧ (∃ c, Pool.emits (Scenario.after Scenario.pulled) !! 0 = Some c
          ∧ Pool.event c = Scenario.record ∧ Pool.target c = "r"%string)
  ∧ Inv.signalled 0 Pulled (Pool.history (Scenario.after Scenario.pulled)) = true
  ∧ Inv.pulled_unhandled 0 (Pool.history (Scenario.after Scenario.pulled)).
Proof.
  apply (active_records_await_handlers (Scenario.after Scenario.pulled) "r" 0
           Scenario.record).
  - eapply reachable_after. vm_compute. reflexivity.
  - vm_compute. reflexivity.
Defined.

(** X3: in every reachable state, right after "handled" is signalled on
    a record that exists, no recipient's [active] map holds it: the
    listener [pull] registered for "handled" has deleted the entry. *)
Theorem handled_releases_active (w : Pool.World) (i : nat) (payload : jsval)
    (r : string) :
  Inv.reachable w →
  i < Pool.nextId w →
  Pool.active (Pool.stub_of r (Pool.signal i Handled payload w)) !! i = None.
Proof.
  intros Hw Hi.
  assert (Hw' : Inv.reachable (Pool.signal i Handled payload w)).
  { apply (reachable_step (Pool.Emit i Handled payload) w); [done|].
    cbn [Pool.step]. apply Nat.ltb_lt in Hi. by rewrite Hi. }
  apply wf_reachable in Hw'.
  destruct (Pool.active _ !! i) as [e|] eqn:He; [|done]. exfalso.
  pose proof (stub_of_active_lookup r _ i e He) as Hs.
  destruct (Inv.wf_queues _ Hw' r _ Hs) as (_ & _ & Ha).
  destruct (Ha i e He) as (_ & _ & _ & Hpu & _).
  rewrite history_signal in Hpu. by apply pulled_unhandled_not_last in Hpu.
Qed.

Lemma handled_releases_active_witness :
  Pool.active (Pool.stub_of "r"
                 (Pool.signal 0 Handled VUndefined (Scenario.after Scenario.pulled))) !! 0
  = None.
Proof.
  apply (handled_releases_active (Scenario.after Scenario.pulled) 0 VUndefined "r").
  - eapply reachable_after. vm_compute. reflexivity.
  - vm_compute. lia.
Defined.



(** X5: in every reachable state, an emit call whose promise is pending,
    whose options give a positive finite [pendingTimeout] and whose
    record has not been signalled "pulled" has its pending timer armed,
    with the message of the pending timeout and that delay. *)
Theorem pending_timeout_armed (w : Pool.World) (i : nat) (c : Pool.EmitCall) :
  Inv.reachable w →
  Pool.emits w !! i = Some c →
  Pool.promise c = Pending →
  positive_finite (pendingTimeout (Pool.options (Pool.event c))) = true →
  Inv.signalled i Pulled (Pool.history w) = false →
  ∃ t, Pool.pendingTimer c = Some t
       ∧ Pool.timers w !! t
         = Some (Pool.TEmitTimeout i "pending event timed out"
                   (pendingTimeout (Pool.options (Pool.event c)))).
Proof.
  intros Hw Hc Hp Hpos Hun. apply wf_reachable in Hw.
  apply (Inv.wf_armed w Hw i c Hc Hp Hpos Hun).
Qed.

Lemma pending_timeout_armed_witness :
  ∃ c t, Pool.emits (Scenario.after Scenario.emitted) !! 0 = Some c
         ∧ Pool.pendingTimer c = Some t
         ∧ Pool.timers (Scenario.after Scenario.emitted) !! t
           = Some (Pool.TEmitTimeout 0 "pending event timed out"
                     (pendingTimeout (Pool.options (Pool.event c)))).
Proof.
  assert (Hc : ∃ c, Pool.emits (Scenario.after Scenario.emitted) !! 0 = Some c
                    ∧ Pool.promise c = Pending
                    ∧ positive_finite (pendingTimeout (Pool.options (Pool.event c))) = true).
  { eexists. split; [vm_compute; reflexivity|]. split; vm_compute; reflexivity. }
  destruct Hc as (c & Hc & Hp & Hpos).
  destruct (pending_timeout_armed (Scenario.after Scenario.emitted) 0 c) as (t & Ht).
  - eapply reachable_after. vm_compute. reflexivity.
  - exact Hc.
  - exact Hp.
  - exact Hpos.
  - vm_compute. reflexivity.
  - exists c, t. split; [exact Hc|exact Ht].
Defined.

(** X6: in every reachable state an armed timer of an emit call is the
    one a variable of that call holds, and its delay is positive and
    finite.  With the message of the pending timeout it is the pending
    timer of a record not yet signalled "pulled"; otherwise it carries
    the message of the handling timeout and is the handling timer of an
    emitter waiting for its handlers, whose record has been signalled
    "pulled". *)
Theorem emit_timer_belongs (w : Pool.World) (t p : nat) (message : string) (d : num) :
  Inv.reachable w →
  Pool.timers w !! t = Some (Pool.TEmitTimeout p message d) →
  ∃ c, Pool.emits w !! p = Some c
       ∧ positive_finite d = true
       ∧ ((message = "pending event timed out"%string
           ∧ Pool.pendingTimer c = Some t
           ∧ d = pendingTimeout (Pool.options (Pool.event c))
           ∧ Inv.signalled p Pulled (Pool.history w) = false)
          ∨ (message = "event handling timed otu"%string
             ∧ Pool.handlingTimer c = Some t
             ∧ d = handlingTimeout (Pool.options (Pool.event c))
             ∧ waitForHandlers (Pool.options (Pool.event c)) = true
             ∧ Inv.signalled p Pulled (Pool.history w) = true)).
Proof.
  intros Hw Ht. apply wf_reachable in Hw.
  destruct (Inv.wf_timers w Hw t _ Ht) as [_ Hc]. exact Hc.
Qed.

Lemma emit_timer_belongs_witness :
  ∃ c, Pool.emits (Scenario.after Scenario.pulled) !! 0 = Some c
       ∧ positive_finite (Fin 700) = true
       ∧ (("event handling timed otu"%string = "pending event timed out"%string
           ∧ Pool.pendingTimer c = Some 1
           ∧ Fin 700 = pendingTimeout (Pool.options (Pool.event c))
           ∧ Inv.signalled 0 Pulled (Pool.history (Scenario.after Scenario.pulled)) = false)
          ∨ ("event handling timed otu"%string = "event handling timed otu"%string
             ∧ Pool.handlingTimer c = Some 1
             ∧ Fin 700 = handlingTimeout (Pool.options (Pool.event c))
             ∧ waitForHandlers (Pool.options (Pool.event c)) = true
             ∧ Inv.signalled 0 Pulled (Pool.history (Scenario.after Scenario.pulled)) = true)).
Proof.
  apply (emit_timer_belongs (Scenario.after Scenario.pulled) 1 0
           "event handling timed otu" (Fin 700)).
  - eapply reachable_after. vm_compute. reflexivity.
  - vm_compute. reflexivity.
Defined.

(** X7: in every reachable state a promise of [pull] that is fulfilled
    holds a record an emit call created for the recipient the pull was
    made for: no record is delivered to another recipient. *)
Theorem pull_delivers_own_records (w : Pool.World) (q : nat) (c : Pool.PullCall)
    (e : Pool.Event) :
  Inv.reachable w →
  Pool.pulls w !! q = Some c →
  Pool.result c = Fulfilled e →
  ∃ c', Pool.emits w !! Pool.id e = Some c'
        ∧ Pool.event c' = e ∧ Pool.target c' = Pool.recipient c.
Proof.
  intros Hw Hc He. apply wf_reachable in Hw.
  destruct (Inv.wf_pulls w Hw) as [_ Hres]. apply (Hres q c e Hc He).
Qed.

Lemma pull_delivers_own_records_witness :
  ∃ c c', Pool.pulls (Scenario.after Scenario.pulled) !! 0 = Some c
          ∧ Pool.emits (Scenario.after Scenario.pulled) !! Pool.id Scenario.record = Some c'
          ∧ Pool.event c' = Scenario.record ∧ Pool.target c' = Pool.recipient c.
Proof.
  assert (Hc : ∃ c, Pool.pulls (Scenario.after Scenario.pulled) !! 0 = Some c
                    ∧ Pool.result c = Fulfilled Scenario.record).
  { eexists. split; vm_compute; reflexivity. }
  destruct Hc as (c & Hc & He).
  destruct (pull_delivers_own_records (Scenario.after Scenario.pulled) 0 c
              Scenario.record) as (c' & H).
  - eapply reachable_after. vm_compute. reflexivity.
  - exact Hc.
  - exact He.
  - exists c, c'. split; [exact Hc|exact H].
Defined.

(** ** The signals of the pool itself *)

Section PoolSignals.
Import Pool Inv Callers.

Lemma history_call_notifier q w : history (call_notifier q w) = history w.
Proof. unfold call_notifier. by repeat case_match. Qed.

Lemma history_emitWithOptions r n a o w :
  history (snd (emitWithOptions r n a o w)) = history w.
Proof.
  unfold emitWithOptions. destruct (recipient_key r) as [k|]; [|done]. cbn zeta.
  destruct (ensure_stub_frame k w) as (_ & _ & _ & _ & _ & _ & _ & _ & Hh & _).
  case_match; cbn [snd]; [done|].
  match goal with |- context [emit_executor k ?ev ?w0] =>
    destruct (emit_executor_frame k ev w0) as (_ & _ & _ & _ & _ & ->) end.
  case_match; rewrite ?history_call_notifier; done.
Qed.

Lemma history_pull r t w : history (snd (pull r t w)) = history w.
Proof.
  unfold pull. destruct (recipient_key r) as [k|]; [|done]. cbn zeta.
  destruct (ensure_stub_frame k w) as (_ & _ & _ & _ & _ & _ & _ & _ & Hh & _).
  by case_match.
Qed.

Lemma history_settle p st w : history (settle p st w) = history w.
Proof. unfold settle. by repeat case_match. Qed.

Lemma history_run_timer a w : history (run_timer a w) = history w.
Proof. destruct a; cbn; [apply history_settle|done]. Qed.

(** A job adds to the log at most the "pulled" of [pull]. *)
Lemma history_run_job j w :
  history (run_job j w) = history w
  ∨ ∃ i, history (run_job j w) = history w ++ [(i, Pulled)].
Proof.
  destruct j; cbn [run_job]; try by left.
  - left. unfold settle_race. by repeat case_match.
  - left. unfold settle_race. by repeat case_match.
  - unfold pull_then. destruct (pulls w !! q) as [c|]; [|by left]. cbn zeta.
    case_match; [by left|]. right. eexists.
    change (history (enqueue ?j ?w0)) with (history w0).
    rewrite history_signal. by case_match.
  - left. unfold pull_catch. by case_match.
  - left. unfold clearTimeout. by repeat case_match.
Qed.

Lemma history_step l w w' i s :
  step l w = Some w' → In (i, s) (history w') →
  In (i, s) (history w) ∨ s = Pulled ∨ emitted_by_caller [l] i s = true.
Proof.
  destruct l as [r n a o|r n a|r n a|r t|j s' v|t|]; cbn [step].
  - intros [= <-]. rewrite history_emitWithOptions. by left.
  - intros [= <-]. unfold emit. rewrite history_emitWithOptions. by left.
  - intros [= <-]. unfold emitAndWait. rewrite history_emitWithOptions. by left.
  - intros [= <-]. rewrite history_pull. by left.
  - case_match; [|done]. intros [= <-]. rewrite history_signal, in_app_iff.
    intros [?|[[= -> ->]|[]]]; [by left|]. right. right. cbn.
    unfold Signal_eqb. by rewrite Nat.eqb_refl, bool_decide_eq_true_2.
  - destruct (jobs w); [|done]. destruct (timers w !! t); [|done].
    intros [= <-]. rewrite history_run_timer. by left.
  - destruct (jobs w) as [|j rest]; [done|]. intros [= <-].
    destruct (history_run_job j (set_jobs (λ _, rest) w)) as [->|[k ->]]; [by left|].
    rewrite in_app_iff. intros [?|[[= -> ->]|[]]]; [by left|]. right. by left.
Qed.

Lemma history_run ls : ∀ w w' i s,
  run ls w = Some w' → In (i, s) (history w') →
  In (i, s) (history w) ∨ s = Pulled ∨ emitted_by_caller ls i s = true.
Proof.
  induction ls as [|l ls IH]; intros w w' i s; cbn [run].
  - intros [= <-]. by left.
  - destruct (step l w) as [w1|] eqn:Hs; [|done]. cbn. intros Hrun Hin.
    destruct (IH w1 w' i s Hrun Hin) as [H|[H|H]].
    + destruct (history_step l w w1 i s Hs H) as [?|[?|Hl]]; [by left|right; by left|].
      right. right. unfold emitted_by_caller in Hl |- *. cbn [existsb] in Hl |- *.
      rewrite orb_false_r in Hl. by rewrite Hl.
    + right. by left.
    + right. right. unfold emitted_by_caller in H |- *. cbn [existsb].
      by rewrite H, orb_true_r.
Qed.

Lemma signalled_In i s h : signalled i s h = true ↔ In (i, s) h.
Proof.
  unfold signalled. rewrite existsb_exists. split.
  - intros ([j s'] & Hin & H). cbn in H. apply andb_prop in H as [Hj Hs].
    apply Nat.eqb_eq in Hj. unfold Signal_eqb in Hs. apply bool_decide_eq_true in Hs.
    by subst.
  - intros Hin. exists (i, s). split; [done|]. cbn. unfold Signal_eqb.
    by rewrite Nat.eqb_refl, bool_decide_eq_true_2.
Qed.

End PoolSignals.

(** X8: the only signal the pool itself emits on a record is "pulled".
    Whatever a run does, every other signal its log holds ("handled",
    "failed" or any other) was emitted on that record by a caller. *)
Theorem pool_signals_only_pulled (opts : Overrides) (ls : list Pool.Label)
    (w : Pool.World) (i : nat) (s : Signal) :
  Pool.run ls (Pool.constructor opts) = Some w →
  In (i, s) (Pool.history w) →
  s = Pulled ∨ Callers.emitted_by_caller ls i s = true.
Proof.
  intros Hrun Hin.
  destruct (history_run ls _ w i s Hrun Hin) as [[]|H]; done.
Qed.

Lemma pool_signals_only_pulled_witness :
  Handled = Pulled ∨ Callers.emitted_by_caller Scenario.handled 0 Handled = true.
Proof.
  apply (pool_signals_only_pulled no_overrides Scenario.handled
           (Scenario.after Scenario.handled) 0 Handled).
  - vm_compute. reflexivity.
  - vm_compute. right. left. reflexivity.
Defined.

(** X9: the promise of an emitter waiting for its handlers (as
    [emitAndWait] asks for) is never fulfilled by the pool alone: in any
    run in which it is fulfilled, a caller has emitted "handled" on the
    record.  Pulling the record does not fulfil it. *)
Theorem waiting_promise_needs_handled (opts : Overrides) (ls : list Pool.Label)
    (w : Pool.World) (i : nat) (c : Pool.EmitCall) (v : jsval) :
  Pool.run ls (Pool.constructor opts) = Some w →
  Pool.emits w !! i = Some c →
  waitForHandlers (Pool.options (Pool.event c)) = true →
  Pool.promise c = Fulfilled v →
  Callers.emitted_by_caller ls i Handled = true.
Proof.
  intros Hrun Hc Hmode Hp.
  assert (Hw : Inv.wf w).
  { apply wf_reachable. by exists opts, ls. }
  pose proof (Inv.wf_promise w Hw i c Hc) as Hpr. rewrite Hp in Hpr.
  unfold Inv.resolvingEvent, Inv.mode in Hpr. rewrite Hmode in Hpr.
  apply signalled_In in Hpr.
  destruct (history_run ls _ w i Handled Hrun Hpr) as [[]|[[=]|H]]; done.
Qed.

Lemma waiting_promise_needs_handled_witness :
  Callers.emitted_by_caller Scenario.handled 0 Handled = true.
Proof.
  assert (Hc : ∃ c, Pool.emits (Scenario.after Scenario.handled) !! 0 = Some c
                    ∧ waitForHandlers (Pool.options (Pool.event c)) = true
                    ∧ Pool.promise c = Fulfilled VUndefined).
  { eexists. split; [vm_compute; reflexivity|]. split; vm_compute; reflexivity. }
  destruct Hc as (c & Hc & Hmode & Hp).
  apply (waiting_promise_needs_handled no_overrides Scenario.handled
           (Scenario.after Scenario.handled) 0 c VUndefined).
  - vm_compute. reflexivity.
  - exact Hc.
  - exact Hmode.
  - exact Hp.
Defined.

(** ** The pending queues and the limit *)

Section PoolCapacity.
Import Pool.

Lemma pending_call_notifier q w r :
  pending (stub_of r (call_notifier q w)) = pending (stub_of r w).
Proof.
  unfold call_notifier. destruct (pulls w !! q) as [c|]; [|done].
  case_match; apply pending_set_waitingSoNotify.
Qed.

Lemma poolOptions_call_notifier q w :
  poolOptions (pool (call_notifier q w)) = poolOptions (pool w).
Proof. unfold call_notifier. by repeat case_match. Qed.

Lemma stub_of_pool r w w' : pool w' = pool w → stub_of r w' = stub_of r w.
Proof. unfold stub_of. by intros ->. Qed.

(** An emit call below the limit of its pool. *)
Lemma emitWithOptions_accepted rid n a o w k :
  recipient_key rid = Some k →
  length_ge (length (pending (stub_of k w)))
    (maxPendingEvents (poolOptions (pool w))) = false →
  let ev := new_Event (nextId w) n a (assign (poolOptions (pool w)) o) in
  let w' := snd (emitWithOptions rid n a o w) in
  fst (emitWithOptions rid n a o w) = Returned (HEmit (nextId w))
  ∧ (∀ r, pending (stub_of r w')
          = if decide (k = r) then pending (stub_of k w) ++ [ev]
            else pending (stub_of r w))
  ∧ poolOptions (pool w') = poolOptions (pool w)
  ∧ nextId w' = S (nextId w)
  ∧ ∃ c, emits w' !! nextId w = Some c
         ∧ event c = ev ∧ target c = k ∧ promise c = Pending.
Proof.
  intros Hk Hcap ev w'. unfold w', emitWithOptions. rewrite Hk. cbn zeta.
  rewrite stub_of_ensure_stub.
  destruct (ensure_stub_frame k w) as (He & Hn & _ & _ & _ & _ & _ & _ & _ & Ho).
  rewrite Ho, Hcap, Hn. fold ev. cbn [fst snd].
  set (w0 := set_pending k (pending (stub_of k w) ++ [ev]) (bump_nextId (ensure_stub k w))).
  set (w1 := match waitingSoNotify (stub_of k w0) with
             | Some q => call_notifier q w0
             | None => w0
             end).
  assert (Hpend : ∀ r, pending (stub_of r w1)
                       = if decide (k = r) then pending (stub_of k w) ++ [ev]
                         else pending (stub_of r w)).
  { intros r. assert (pending (stub_of r w1) = pending (stub_of r w0)) as ->.
    { unfold w1. case_match; [apply pending_call_notifier|done]. }
    unfold w0. rewrite pending_set_pending.
    - case_decide; [done|]. change (stub_of r (bump_nextId ?x)) with (stub_of r x).
      by rewrite stub_of_ensure_stub.
    - cbn. rewrite ensure_stub_lookup. by eexists. }
  assert (Hopt : poolOptions (pool w1) = poolOptions (pool w)).
  { unfold w1. case_match; rewrite ?poolOptions_call_notifier; cbn; done. }
  assert (Hnid : nextId w1 = S (nextId w)).
  { unfold w1. case_match; rewrite ?call_notifier_nextId; cbn; by rewrite Hn. }
  destruct (emit_executor_frame k ev w1) as (_ & _ & _ & Hni & Hpool & _).
  destruct (emit_executor_emits k ev w1) as (c & Hem & Hev & Htg & Hpr & _).
  split; [done|]. split.
  { intros r. rewrite (stub_of_pool r _ _ Hpool). apply Hpend. }
  split; [by rewrite Hpool|]. split; [by rewrite Hni|].
  exists c. rewrite Hem. cbn [id ev new_Event]. by rewrite lookup_insert_eq.
Qed.

(** An emit call at the limit, or with a recipient the guard refuses. *)
Lemma emitWithOptions_refused rid n a o w :
  (∀ k, recipient_key rid = Some k →
        length_ge (length (pending (stub_of k w)))
          (maxPendingEvents (poolOptions (pool w))) = true) →
  let w' := snd (emitWithOptions rid n a o w) in
  (∀ r, pending (stub_of r w') = pending (stub_of r w))
  ∧ poolOptions (pool w') = poolOptions (pool w).
Proof.
  intros Hfull. cbn zeta. unfold emitWithOptions.
  destruct (recipient_key rid) as [k|]; [|done]. cbn zeta.
  rewrite stub_of_ensure_stub.
  destruct (ensure_stub_frame k w) as (_ & _ & _ & _ & _ & _ & _ & _ & _ & Ho).
  rewrite Ho, (Hfull k eq_refl). cbn [snd]. split; [|done].
  intros r. by rewrite stub_of_ensure_stub.
Qed.

Lemma pull_pending rid t w r :
  pending (stub_of r (snd (pull rid t w))) = pending (stub_of r w)
  ∧ poolOptions (pool (snd (pull rid t w))) = poolOptions (pool w).
Proof.
  unfold pull. destruct (recipient_key rid) as [k|]; [|done]. cbn zeta.
  destruct (ensure_stub_frame k w) as (_ & _ & _ & _ & _ & _ & _ & _ & _ & Ho).
  case_match; cbn [snd].
  - split; [|done]. change (pending (stub_of r (ensure_stub k w)) = pending (stub_of r w)).
    by rewrite stub_of_ensure_stub.
  - split; [|done].
    change (pending (stub_of r (set_waitingSoNotify k (Some (nextPull (ensure_stub k w)))
                                  (ensure_stub k w))) = pending (stub_of r w)).
    by rewrite pending_set_waitingSoNotify, stub_of_ensure_stub.
Qed.

(** A job takes at most one record off one queue and adds none. *)
Lemma run_job_pending j w r :
  (pending (stub_of r (run_job j w)) = pending (stub_of r w)
   ∨ pending (stub_of r w) = default [] (head (pending (stub_of r w)) ≫= λ e, Some [e])
                             ++ pending (stub_of r (run_job j w)))
  ∧ poolOptions (pool (run_job j w)) = poolOptions (pool w).
Proof.
  destruct j; cbn [run_job]; try (split; [by left|done]).
  - unfold settle_race. repeat case_match; (split; [by left|done]).
  - unfold settle_race. repeat case_match; (split; [by left|done]).
  - unfold pull_then. destruct (pulls w !! q) as [c|]; [|split; [by left|done]].
    cbn zeta. set (w0 := set_waitingSoNotify (recipient c) None w).
    assert (Hp0 : ∀ r', pending (stub_of r' w0) = pending (stub_of r' w)).
    { intros r'. apply pending_set_waitingSoNotify. }
    destruct (pending (stub_of (recipient c) w0)) as [|e rest] eqn:Hq.
    + split; [left|done]. apply Hp0.
    + match goal with |- context [signal ?i ?s ?v ?w1] =>
        destruct (listener_frame_signal i s v w1) as (_ & _ & _ & Ho & _ & Hpe & _);
        set (w2 := w1) in * end.
      change (stub_of r (enqueue ?j ?x)) with (stub_of r x).
      change (pool (enqueue ?j ?x)) with (pool x).
      destruct (Hpe r) as [-> _]. rewrite Ho.
      assert (Hs : is_Some (queues (pool w0) !! recipient c)).
      { unfold stub_of in Hq. destruct (queues (pool w0) !! recipient c); [by eexists|done]. }
      assert (Hw2 : pending (stub_of r w2)
                    = if decide (recipient c = r) then rest else pending (stub_of r w)).
      { unfold w2. destruct (event_waitForHandlers e).
        - unfold once. change (stub_of r (set_listeners ?f ?x)) with (stub_of r x).
          rewrite pending_set_active, pending_set_pending by done.
          case_decide; [done|apply Hp0].
        - rewrite pending_set_pending by done. case_decide; [done|apply Hp0]. }
      split.
      * rewrite Hw2. case_decide as E; [|by left]. subst r. right.
        rewrite <- Hp0, Hq. done.
      * unfold w2, w0. destruct (event_waitForHandlers e); reflexivity.
  - unfold pull_catch. destruct (pulls w !! q) as [c|]; [|split; [by left|done]].
    split; [left|done].
    change (pending (stub_of r (set_waitingSoNotify (recipient c) None w))
            = pending (stub_of r w)).
    apply pending_set_waitingSoNotify.
  - unfold clearTimeout. repeat case_match; (split; [by left|done]).
Qed.

Lemma run_timer_pool a w : pool (run_timer a w) = pool w.
Proof. destruct a; cbn; [|done]. unfold settle. by repeat case_match. Qed.

(** What a step does to the length of a pending queue: it grows by one
    only where the limit allows it. *)
Lemma step_pending l w w' r :
  step l w = Some w' →
  poolOptions (pool w') = poolOptions (pool w)
  ∧ (length (pending (stub_of r w')) ≤ length (pending (stub_of r w))
     ∨ length_ge (length (pending (stub_of r w)))
         (maxPendingEvents (poolOptions (pool w))) = false
       ∧ length (pending (stub_of r w')) = S (length (pending (stub_of r w)))).
Proof.
  assert (Hemit : ∀ rid n a o,
    poolOptions (pool (snd (emitWithOptions rid n a o w))) = poolOptions (pool w)
    ∧ (length (pending (stub_of r (snd (emitWithOptions rid n a o w))))
         ≤ length (pending (stub_of r w))
       ∨ length_ge (length (pending (stub_of r w)))
           (maxPendingEvents (poolOptions (pool w))) = false
         ∧ length (pending (stub_of r (snd (emitWithOptions rid n a o w))))
           = S (length (pending (stub_of r w))))).
  { intros rid n a o.
    destruct (recipient_key rid) as [k|] eqn:Hk.
    - destruct (length_ge (length (pending (stub_of k w)))
                  (maxPendingEvents (poolOptions (pool w)))) eqn:Hcap.
      + destruct (emitWithOptions_refused rid n a o w) as [Hp Ho].
        { intros k'. rewrite Hk. by intros [= <-]. }
        split; [done|]. left. by rewrite Hp.
      + destruct (emitWithOptions_accepted rid n a o w k Hk Hcap) as (_ & Hp & Ho & _).
        split; [done|]. rewrite Hp. case_decide as E; [subst k|by left].
        right. split; [done|]. rewrite length_app. cbn. lia.
    - destruct (emitWithOptions_refused rid n a o w) as [Hp Ho].
      { intros k'. by rewrite Hk. }
      split; [done|]. left. by rewrite Hp. }
  destruct l as [rid n a o|rid n a|rid n a|rid t|i s v|t|]; cbn [step].
  - intros [= <-]. apply Hemit.
  - intros [= <-]. apply Hemit.
  - intros [= <-]. apply Hemit.
  - intros [= <-]. destruct (pull_pending rid t w r) as [-> ->]. split; [done|by left].
  - case_match; [|done]. intros [= <-].
    destruct (listener_frame_signal i s v w) as (_ & _ & _ & Ho & _ & Hpe & _).
    destruct (Hpe r) as [-> _]. split; [done|by left].
  - destruct (jobs w); [|done]. destruct (timers w !! t) as [x|]; [|done].
    intros [= <-]. rewrite (stub_of_pool r _ _ (run_timer_pool x _)), run_timer_pool.
    split; [done|by left].
  - destruct (jobs w) as [|j rest]; [done|]. intros [= <-].
    destruct (run_job_pending j (set_jobs (λ _, rest) w) r) as [Hp Ho].
    split; [done|]. left.
    change (stub_of r (set_jobs (λ _, rest) w)) with (stub_of r w) in Hp.
    destruct Hp as [->|Hp]; [done|].
    apply (f_equal length) in Hp. rewrite length_app in Hp. lia.
Qed.

Lemma within_capacity_step m len len' :
  within_capacity m len = true →
  (len' ≤ len ∨ length_ge len m = false ∧ len' = S len) →
  within_capacity m len' = true.
Proof.
  destruct m as [z|]; [|done]. cbn. intros H%Z.leb_le [Hle|[Hlt%Z.leb_gt ->]];
    apply Z.leb_le; lia.
Qed.

Lemma capacity_run ls : ∀ w w',
  run ls w = Some w' →
  (∀ r, within_capacity (maxPendingEvents (poolOptions (pool w)))
          (length (pending (stub_of r w))) = true) →
  poolOptions (pool w') = poolOptions (pool w)
  ∧ ∀ r, within_capacity (maxPendingEvents (poolOptions (pool w)))
           (length (pending (stub_of r w'))) = true.
Proof.
  induction ls as [|l ls IH]; intros w w'; cbn [run].
  - by intros [= <-].
  - destruct (step l w) as [w1|] eqn:Hs; [|done]. cbn. intros Hrun Hw.
    assert (Ho : poolOptions (pool w1) = poolOptions (pool w)).
    { by destruct (step_pending l w w1 ""%string Hs). }
    destruct (IH w1 w' Hrun) as [Ho' Hc].
    + intros r. rewrite Ho. destruct (step_pending l w w1 r Hs) as [_ Hlen].
      by eapply within_capacity_step.
    + rewrite Ho in Ho', Hc. done.
Qed.

Lemma capacity_constructor opts r :
  within_capacity (maxPendingEvents (poolOptions (pool (constructor opts))))
    (length (pending (stub_of r (constructor opts)))) = true.
Proof.
  unfold stub_of. cbn [constructor pool queues]. rewrite lookup_empty. cbn.
  destruct (default _ _) as [z|]; [|done]. apply Z.leb_le. cbn. lia.
Qed.

End PoolCapacity.

(** X10: the options of a pool are those of its constructor, the defaults
    overridden by the caller's, whatever is called on it afterwards. *)
Theorem pool_options_fixed (opts : Overrides) (ls : list Pool.Label) (w : Pool.World) :
  Pool.run ls (Pool.constructor opts) = Some w →
  Pool.poolOptions (Pool.pool w) = assign DefaultOptions opts.
Proof.
  intros Hrun. destruct (capacity_run ls _ w Hrun) as [Ho _]; [|done].
  apply capacity_constructor.
Qed.

Lemma pool_options_fixed_witness :
  Pool.poolOptions (Pool.pool (Scenario.after Scenario.handled))
  = assign DefaultOptions no_overrides.
Proof.
  apply (pool_options_fixed no_overrides Scenario.handled).
  vm_compute. reflexivity.
Defined.

(** X11: no pending queue ever grows beyond the limit the pool was
    constructed with: in every run, every recipient's queue of pending
    records has at most [maxPendingEvents] records (none, if the limit
    is zero or below), and any number with the limit [Infinity]. *)
Theorem pending_within_capacity (opts : Overrides) (ls : list Pool.Label)
    (w : Pool.World) (r : string) :
  Pool.run ls (Pool.constructor opts) = Some w →
  within_capacity (maxPendingEvents (assign DefaultOptions opts))
    (length (Pool.pending (Pool.stub_of r w))) = true.
Proof.
  intros Hrun. destruct (capacity_run ls _ w Hrun) as [_ Hc]; [|apply Hc].
  apply capacity_constructor.
Qed.

Lemma pending_within_capacity_witness :
  within_capacity (maxPendingEvents (assign DefaultOptions no_overrides))
    (length (Pool.pending (Pool.stub_of "r" (Scenario.after Scenario.emitted)))) = true.
Proof.
  apply (pending_within_capacity no_overrides Scenario.emitted).
  vm_compute. reflexivity.
Defined.



(** X13: the guard of every method refuses exactly the values that are
    not strings and the empty string.  The revision with options then
    hands back a promise rejected with the TypeError, the first revision
    throws it; for every other recipient neither happens. *)
Theorem recipient_guard_exact (recipientId : jsval) :
  (recipient_key recipientId = None
   ↔ typeof_string recipientId = false ∨ recipientId = VStr "")
  ∧ (∀ w n a o,
       fst (Pool.emitWithOptions recipientId n a o w) = Returned (HRejected InvalidRecipient)
       ↔ recipient_key recipientId = None)
  ∧ (∀ w t,
       fst (Pool.pull recipientId t w) = Returned (HRejected InvalidRecipient)
       ↔ recipient_key recipientId = None)
  ∧ (∀ v n a,
       fst (Legacy.emit recipientId n a v) = Threw InvalidRecipient
       ↔ recipient_key recipientId = None)
  ∧ (∀ v t k,
       fst (Legacy.pull recipientId t k v) = Threw InvalidRecipient
       ↔ recipient_key recipientId = None).
Proof.
  split; [|split; [|split; [|split]]].
  - destruct (recipient_key recipientId) as [r|] eqn:Hk.
    + apply recipient_key_Some in Hk as [-> Hr]. split; [done|].
      intros [[=]|[= ->]]. done.
    + split; [intros _|done].
      destruct recipientId as [| |b|n|s|o]; try (by left). right.
      destruct (decide (s = ""%string)) as [->|Hs]; [done|].
      by rewrite recipient_key_VStr in Hk.
  - intros w n a o. unfold Pool.emitWithOptions.
    destruct (recipient_key recipientId); [|done]. cbn zeta.
    case_match; cbn; split; done.
  - intros w t. unfold Pool.pull.
    destruct (recipient_key recipientId); [|done]. cbn zeta.
    case_match; cbn; split; done.
  - intros v n a. unfold Legacy.emit.
    destruct (recipient_key recipientId); [|done]. cbn. split; done.
  - intros v t k. unfold Legacy.pull.
    destruct (recipient_key recipientId); [|done]. cbn zeta.
    case_match; cbn; split; done.
Qed.

(** ** A pull with nothing pending *)

Section PoolSuspended.
Import Pool.


Lemma World_eq w w' :
  pool w = pool w' → nextId w = nextId w' → listeners w = listeners w' →
  emits w = emits w' → pulls w = pulls w' → nextPull w = nextPull w' →
  timers w = timers w' → nextTimer w = nextTimer w' → jobs w = jobs w' →
  history w = history w' → w = w'.
Proof. destruct w, w'. cbn. by intros -> -> -> -> -> -> -> -> -> ->. Qed.


End PoolSuspended.



Section PoolWake.
Import Pool Fifo.





End PoolWake.



(** X16: the timer of a pull that fires after the race of that pull is
    settled changes nothing but the table of timers: the rejection is
    dropped, no promise, queue or notifier is touched. *)
Theorem late_pull_timeout_ignored (w : Pool.World) (t q : nat) (d : Z)
    (c : Pool.PullCall) :
  Pool.jobs w = [] →
  Pool.timers w !! t = Some (Pool.TPullTimeout q d) →
  Pool.pulls w !! q = Some c →
  Pool.waited c ≠ Pending →
  ∃ w2, Pool.step (Pool.Fire t) w = Some w2
        ∧ Pool.drain w2 = Pool.set_timers (delete t) w.
Proof.
  intros Hjobs Ht Hc Hw. eexists. split.
  { cbn [Pool.step]. rewrite Hjobs, Ht. reflexivity. }
  cbn [Pool.run_timer].
  erewrite drain_step.
  2: { cbn [Pool.jobs Pool.enqueue Pool.set_jobs Pool.set_timers]. rewrite Hjobs.
       reflexivity. }
  cbn [Pool.run_job]. unfold Pool.settle_race.
  cbn [Pool.pulls Pool.enqueue Pool.set_jobs Pool.set_timers]. rewrite Hc.
  destruct (Pool.waited c) eqn:Hwc; [done| |]; cbn [is_pending];
    (rewrite drain_idle by reflexivity; apply World_eq; try reflexivity;
     cbn [Pool.jobs Pool.enqueue Pool.set_jobs Pool.set_timers]; by rewrite Hjobs).
Qed.

Lemma late_pull_timeout_ignored_witness :
  ∃ w2, Pool.step (Pool.Fire 0) (Pool.drain (Scenario.after Scenario.woken)) = Some w2
        ∧ Pool.drain w2
          = Pool.set_timers (delete 0) (Pool.drain (Scenario.after Scenario.woken)).
Proof.
  assert (Hc : ∃ c, Pool.pulls (Pool.drain (Scenario.after Scenario.woken)) !! 0 = Some c
                    ∧ Pool.waited c ≠ Pending).
  { eexists. split; [vm_compute; reflexivity|]. vm_compute. discriminate. }
  destruct Hc as (c & Hc & Hw).
  apply (late_pull_timeout_ignored (Pool.drain (Scenario.after Scenario.woken)) 0 0 30000 c).
  - vm_compute. reflexivity.
  - vm_compute. reflexivity.
  - exact Hc.
  - exact Hw.
Defined.



(** ** More pulls than records *)

Section PoolCrowd.
Import Pool Crowd.



Lemma settling_ok q0 evs m i : i < m → job_ok q0 evs m (settling (q0 + i) evs i).
Proof.
  intros Hi. unfold settling. destruct (evs !! i) eqn:He; cbn; exists i; done.
Qed.



End PoolCrowd.



(** X19: the reactions the pool schedules come to an end.  From any
    state, running the microtask queue job by job empties it after at
    most [fuel] jobs, whatever the jobs enqueue on their way; running
    longer changes nothing. *)
Theorem microtasks_run_dry (w : Pool.World) (n : nat) :
  Pool.fuel w ≤ n →
  Pool.jobs (Nat.iter n Pool.tick w) = []
  ∧ Nat.iter n Pool.tick w = Pool.drain w.
Proof.
  intros Hn. split; [by apply iter_tick_enough|].
  unfold Pool.drain. apply iter_tick_stable; [|done]. by apply iter_tick_enough.
Qed.

Lemma microtasks_run_dry_witness :
  Pool.jobs (Nat.iter 10 Pool.tick (Scenario.after Scenario.woken)) = []
  ∧ Nat.iter 10 Pool.tick (Scenario.after Scenario.woken)
    = Pool.drain (Scenario.after Scenario.woken).
Proof.
  apply (microtasks_run_dry (Scenario.after Scenario.woken) 10).
  vm_compute. lia.
Defined.

(** ** Signals and the promise of the emitter *)

Section PoolPromise.
Import Pool Inv.









End PoolPromise.



(** ** Nothing clears the timer of a pull *)

Section PoolTimers.
Import Pool Inv Timers.

Lemma handles_ok_wf w : wf w → handles_ok w.
Proof.
  intros Hw. split.
  - intros t a Ht. by destruct (wf_timers w Hw t a Ht).
  - intros p c t Hc [Ht|Ht].
    + destruct (wf_vars w Hw p c Hc) as [H1 _]. destruct (H1 t Ht) as [? Ha].
      split; [done|]. intros q d Hq. by destruct (Ha _ Hq).
    + destruct (wf_vars w Hw p c Hc) as [_ H2]. destruct (H2 t Ht) as (? & _ & Ha).
      split; [done|]. intros q d Hq. by destruct (Ha _ Hq).
Qed.

Lemma armed_ext t q d w w' :
  emits w' = emits w → timers w' = timers w → nextTimer w' = nextTimer w →
  armed_pull t q d w → armed_pull t q d w'.
Proof. unfold armed_pull, handles_ok. by intros -> -> ->. Qed.

(** A new timer of an emit call or of a pull. *)
Lemma armed_setTimeout t q d a w :
  armed_pull t q d w → armed_pull t q d (setTimeout a w).
Proof.
  intros [[Hlt Hv] Ht]. pose proof (Hlt t _ Ht) as Hlt0. split; [split|].
  - intros t' a'. cbn. rewrite lookup_insert. case_decide; [lia|].
    intros H'. apply Hlt in H'. lia.
  - intros p c t' Hc Hh. destruct (Hv p c t' Hc Hh) as [? Hno]. split; [cbn; lia|].
    intros q' d'. cbn. rewrite lookup_insert_ne by lia. apply Hno.
  - cbn. by rewrite lookup_insert_ne by lia.
Qed.

(** A variable of an emit call set to the handle of a timer of that
    call. *)
Lemma armed_set_var t q d w p (f : EmitCall → EmitCall) t' :
  (∀ c, pendingTimer (f c) = Some t' ∧ handlingTimer (f c) = handlingTimer c
        ∨ pendingTimer (f c) = pendingTimer c ∧ handlingTimer (f c) = Some t') →
  t' < nextTimer w → (∀ q' d', timers w !! t' ≠ Some (TPullTimeout q' d')) →
  armed_pull t q d w → armed_pull t q d (set_emits (alter f p) w).
Proof.
  intros Hf Hlt' Hno' [[Hlt Hv] Ht]. split; [split|]; [done| |done].
  intros p' c t0. cbn. rewrite lookup_alter. case_decide as E.
  - subst p'. destruct (emits w !! p) as [c0|] eqn:Hc0; [|done]. cbn. intros [= <-].
    destruct (Hf c0) as [[H1 H2]|[H1 H2]]; rewrite H1, H2.
    + intros [[= <-]|Hh]; [done|]. apply (Hv p c0); [done|by right].
    + intros [Hh|[= <-]]; [|done]. apply (Hv p c0); [done|by left].
  - apply Hv.
Qed.

Lemma armed_settle t q d p st w :
  armed_pull t q d w → armed_pull t q d (settle p st w).
Proof.
  intros Hw. unfold settle. destruct (emits w !! p) as [c|] eqn:Hc; [|done].
  destruct (is_pending (promise c)); [|done].
  destruct Hw as [[Hlt Hv] Ht]. split; [split|]; [done| |done].
  intros p' c' t'. cbn. rewrite lookup_insert. case_decide as E.
  - intros [= <-]. cbn. subst p'. by apply (Hv p c).
  - apply Hv.
Qed.

(** [clearTimeout] on a variable of an emit call. *)
Lemma armed_clear t q d p c h w :
  emits w !! p = Some c → h = pendingTimer c ∨ h = handlingTimer c →
  armed_pull t q d w → armed_pull t q d (clearTimeout h w).
Proof.
  intros Hc Hh [[Hlt Hv] Ht]. unfold clearTimeout. destruct h as [t'|]; [|done].
  assert (Hvar : pendingTimer c = Some t' ∨ handlingTimer c = Some t').
  { destruct Hh as [Hh|Hh]; [left|right]; by rewrite <- Hh. }
  destruct (Hv p c t' Hc Hvar) as [_ Hno].
  assert (t' ≠ t) by (intros ->; by apply (Hno q d)).
  split; [split|].
  - intros t0 a. cbn. rewrite lookup_delete. case_decide; [done|]. apply Hlt.
  - intros p' c' t0 Hc' Hh'. destruct (Hv p' c' t0 Hc' Hh') as [? Hno']. split; [done|].
    intros q' d'. cbn. rewrite lookup_delete. case_decide; [done|]. apply Hno'.
  - cbn. by rewrite lookup_delete_ne.
Qed.

Lemma armed_run_listener t q d v l w :
  armed_pull t q d w → armed_pull t q d (run_listener v l w).
Proof.
  intros Hw. destruct l as [p|p|p|p dl|r j]; cbn [run_listener].
  - by apply armed_settle.
  - by apply armed_settle.
  - destruct (emits w !! p) as [c|] eqn:Hc; [|done]. cbn.
    apply (armed_clear t q d p c); [done|by left|done].
  - pose proof (armed_setTimeout t q d
                  (TEmitTimeout p "event handling timed otu" dl) w Hw) as Hw'.
    apply (armed_set_var t q d _ p _ (nextTimer w)); [| | |done].
    + intros c. right. done.
    + cbn. lia.
    + intros q' d'. cbn. by rewrite lookup_insert_eq.
  - by apply (armed_ext t q d w).
Qed.

Lemma armed_run_listeners t q d v ls : ∀ w,
  armed_pull t q d w → armed_pull t q d (run_listeners v ls w).
Proof.
  induction ls as [|l ls IH]; intros w Hw; cbn; [done|].
  by apply IH, armed_run_listener.
Qed.

Lemma armed_signal t q d i s v w :
  armed_pull t q d w → armed_pull t q d (signal i s v w).
Proof.
  intros Hw. unfold signal. apply armed_run_listeners. by apply (armed_ext t q d w).
Qed.

Lemma emit_executor_timers r ev w :
  timers (emit_executor r ev w)
  = (if positive_finite (pendingTimeout (options ev))
     then <[nextTimer w := TEmitTimeout (id ev) "pending event timed out"
                             (pendingTimeout (options ev))]> (timers w)
     else timers w)
  ∧ nextTimer (emit_executor r ev w)
    = (if positive_finite (pendingTimeout (options ev))
       then S (nextTimer w) else nextTimer w).
Proof.
  unfold emit_executor.
  by destruct (positive_finite (pendingTimeout (options ev))),
    (waitForHandlers (options ev) && positive_finite (handlingTimeout (options ev))).
Qed.

Lemma armed_emit_executor t q d r ev w :
  armed_pull t q d w → armed_pull t q d (emit_executor r ev w).
Proof.
  intros [[Hlt Hv] Ht]. pose proof (Hlt t _ Ht) as Hlt0.
  destruct (emit_executor_emits r ev w) as (c & Hem & _ & _ & _ & Hh & Hp).
  destruct (emit_executor_timers r ev w) as [Hti Hnt].
  unfold armed_pull, handles_ok. rewrite Hem, Hti, Hnt.
  destruct (positive_finite (pendingTimeout (options ev))).
  - split; [split|].
    + intros t' a. rewrite lookup_insert. case_decide; [lia|].
      intros H'. apply Hlt in H'. lia.
    + intros p c' t'. rewrite lookup_insert. case_decide as E.
      * intros [= <-]. rewrite Hh, Hp. intros [[= <-]|[=]]. split; [lia|].
        intros q' d'. by rewrite lookup_insert_eq.
      * intros Hc' Hh'. destruct (Hv p c' t' Hc' Hh') as [? Hno]. split; [lia|].
        intros q' d'. rewrite lookup_insert_ne by lia. apply Hno.
    + by rewrite lookup_insert_ne by lia.
  - split; [split|]; [done| |done].
    intros p c' t'. rewrite lookup_insert. case_decide as E.
    + intros [= <-]. rewrite Hh, Hp. by intros [[=]|[=]].
    + apply Hv.
Qed.

Lemma armed_call_notifier t q d q' w :
  armed_pull t q d w → armed_pull t q d (call_notifier q' w).
Proof.
  intros Hw. unfold call_notifier. destruct (pulls w !! q'); [|done].
  case_match; by apply (armed_ext t q d w).
Qed.

Lemma armed_emitWithOptions t q d rid n a o w :
  armed_pull t q d w → armed_pull t q d (snd (emitWithOptions rid n a o w)).
Proof.
  intros Hw. unfold emitWithOptions. destruct (recipient_key rid) as [k|]; [|done].
  cbn zeta.
  destruct (ensure_stub_frame k w) as (He & _ & _ & Ht & Hnt & _).
  assert (Hw1 : armed_pull t q d (ensure_stub k w)) by (by apply (armed_ext t q d w)).
  case_match; cbn [snd]; [done|].
  apply armed_emit_executor.
  match goal with |- armed_pull _ _ _ (match _ with Some _ => call_notifier _ ?w0 | None => _ end) =>
    assert (Hw0 : armed_pull t q d w0) by (by apply (armed_ext t q d (ensure_stub k w))) end.
  case_match; [by apply armed_call_notifier|done].
Qed.

Lemma armed_pull_call t q d rid timeout w :
  armed_pull t q d w → armed_pull t q d (snd (pull rid timeout w)).
Proof.
  intros Hw. unfold pull. destruct (recipient_key rid) as [k|]; [|done]. cbn zeta.
  destruct (ensure_stub_frame k w) as (He & _ & _ & Ht & Hnt & _).
  assert (Hw1 : armed_pull t q d (ensure_stub k w)) by (by apply (armed_ext t q d w)).
  case_match; cbn [snd].
  - by apply (armed_ext t q d (ensure_stub k w)).
  - apply armed_setTimeout. by apply (armed_ext t q d (ensure_stub k w)).
Qed.

Lemma armed_run_job t q d j w :
  armed_pull t q d w → armed_pull t q d (run_job j w).
Proof.
  intros Hw. destruct j as [q'|q' e|q'|q' e|q' e|q' ev|p|p]; cbn [run_job].
  - unfold settle_race. repeat case_match; try done; by apply (armed_ext t q d w).
  - unfold settle_race. repeat case_match; try done; by apply (armed_ext t q d w).
  - unfold pull_then. destruct (pulls w !! q') as [c|]; [|done]. cbn zeta.
    destruct (pending _) as [|e rest]; [by apply (armed_ext t q d w)|].
    match goal with |- armed_pull _ _ _ (enqueue _ (signal ?i ?s ?v ?w1)) =>
      apply (armed_ext t q d (signal i s v w1)); [done..|]; apply armed_signal end.
    destruct (event_waitForHandlers e); by apply (armed_ext t q d w).
  - by apply (armed_ext t q d w).
  - unfold pull_catch. destruct (pulls w !! q'); [|done]. by apply (armed_ext t q d w).
  - by apply (armed_ext t q d w).
  - by apply (armed_ext t q d w).
  - destruct (emits w !! p) as [c|] eqn:Hc; [|done]. cbn.
    apply (armed_clear t q d p c); [|by right|].
    + unfold clearTimeout. by destruct (pendingTimer c).
    + apply (armed_clear t q d p c); [done|by left|done].
Qed.

(** A step other than the firing of the timer keeps it armed. *)
Lemma armed_step t q d l w w' :
  armed_pull t q d w → step l w = Some w' → l ≠ Fire t → armed_pull t q d w'.
Proof.
  intros Hw. destruct l as [r n a o|r n a|r n a|r tm|i s v|t'|]; cbn [step].
  - intros [= <-] _. by apply armed_emitWithOptions.
  - intros [= <-] _. by apply armed_emitWithOptions.
  - intros [= <-] _. by apply armed_emitWithOptions.
  - intros [= <-] _. by apply armed_pull_call.
  - case_match; [|done]. intros [= <-] _. by apply armed_signal.
  - destruct (jobs w); [|done]. destruct (timers w !! t') as [x|] eqn:Hx; [|done].
    intros [= <-] Hne. assert (t' ≠ t) by congruence.
    assert (Hw1 : armed_pull t q d (set_timers (delete t') w)).
    { destruct Hw as [[Hlt Hv] Ht]. split; [split|].
      - intros t0 a0. cbn. rewrite lookup_delete. case_decide; [done|]. apply Hlt.
      - intros p c t0 Hc Hh. destruct (Hv p c t0 Hc Hh) as [? Hno]. split; [done|].
        intros q' d'. cbn. rewrite lookup_delete. case_decide; [done|]. apply Hno.
      - cbn. by rewrite lookup_delete_ne. }
    destruct x; cbn [run_timer]; [by apply armed_settle|].
    by apply (armed_ext t q d (set_timers (delete t') w)).
  - destruct (jobs w) as [|j rest]; [done|]. intros [= <-] _.
    apply armed_run_job. by apply (armed_ext t q d w).
Qed.

Lemma armed_run t q d ls : ∀ w w',
  armed_pull t q d w → run ls w = Some w' → ¬ In (Fire t) ls → armed_pull t q d w'.
Proof.
  induction ls as [|l ls IH]; intros w w' Hw; cbn [run].
  - by intros [= <-].
  - destruct (step l w) as [w1|] eqn:Hs; [|done]. cbn. intros Hrun Hno.
    apply (IH w1); [|done|].
    + apply (armed_step t q d l w); [done..|]. intros ->. apply Hno. by left.
    + intros Hin. apply Hno. by right.
Qed.

End PoolTimers.

(** X21: nothing but its own firing removes the timer of a pull.  From
    any reachable state in which the timer a pull has armed is in the
    table, every run in which that timer does not fire keeps it armed:
    neither the fulfilment or rejection of the pull, nor any emit call,
    signal, reaction or other timer clears it. *)
Theorem pull_timer_never_cleared (w w' : Pool.World) (t q : nat) (d : Z)
    (ls : list Pool.Label) :
  Inv.reachable w →
  Pool.timers w !! t = Some (Pool.TPullTimeout q d) →
  Pool.run ls w = Some w' →
  ¬ In (Pool.Fire t) ls →
  Pool.timers w' !! t = Some (Pool.TPullTimeout q d).
Proof.
  intros Hw Ht Hrun Hno. apply wf_reachable, handles_ok_wf in Hw.
  by destruct (armed_run t q d ls w w' (conj Hw Ht) Hrun Hno).
Qed.

Lemma pull_timer_never_cleared_witness :
  Pool.timers (Pool.drain (Scenario.after Scenario.woken)) !! 0
  = Some (Pool.TPullTimeout 0 30000).
Proof.
  apply (pull_timer_never_cleared
           (Scenario.after [Pool.CallPull (VStr "r") 30000])
           (Pool.drain (Scenario.after Scenario.woken)) 0 0 30000
           [Pool.CallEmit (VStr "r") (VStr "job") [VNum 1];
            Pool.Tick; Pool.Tick; Pool.Tick; Pool.Tick; Pool.Tick]).
  - eapply reachable_after. vm_compute. reflexivity.
  - vm_compute. reflexivity.
  - vm_compute. reflexivity.
  - vm_compute. intros [H|[H|[H|[H|[H|[H|[]]]]]]]; discriminate.
Defined.

(** X26: a timeout of an emit call rejects its promise and nothing else.
    When a timer of an emit call fires while the promise is pending and
    no reaction is waiting, then after the reactions the promise is
    rejected with the ETIMEDOUT error carrying the message of the timer,
    the timer is gone, and the queues are as they were: a record whose
    pending timeout has passed is still in the queue of its recipient. *)
Theorem emit_timeout_rejects (w : Pool.World) (t p : nat) (message : string) (d : num)
    (c : Pool.EmitCall) :
  Pool.jobs w = [] →
  Pool.timers w !! t = Some (Pool.TEmitTimeout p message d) →
  Pool.emits w !! p = Some c →
  Pool.promise c = Pending →
  ∃ w2, Pool.step (Pool.Fire t) w = Some w2
        ∧ Pool.promise <$> Pool.emits (Pool.drain w2) !! p
          = Some (Rejected (ETIMEDOUT message))
        ∧ Pool.timers (Pool.drain w2) !! t = None
        ∧ Pool.pool (Pool.drain w2) = Pool.pool w
        ∧ Pool.pulls (Pool.drain w2) = Pool.pulls w.
Proof.
  intros Hjobs Ht Hc Hp. eexists. split.
  { cbn [Pool.step]. rewrite Hjobs, Ht. reflexivity. }
  cbn [Pool.run_timer]. unfold Pool.settle.
  cbn [Pool.emits Pool.set_timers]. rewrite Hc, Hp. cbn [is_pending].
  erewrite drain_step.
  2: { cbn [Pool.jobs Pool.enqueue Pool.set_jobs Pool.set_emits Pool.set_timers].
       rewrite Hjobs. reflexivity. }
  cbn [Pool.run_job].
  erewrite drain_step by reflexivity. cbn [Pool.run_job].
  set (w3 := Pool.set_jobs _ _).
  assert (H3 : Pool.emits w3 = <[p := Pool.with_promise (Rejected (ETIMEDOUT message)) c]>
                                 (Pool.emits w)
               ∧ Pool.timers w3 = delete t (Pool.timers w)
               ∧ Pool.pool w3 = Pool.pool w ∧ Pool.pulls w3 = Pool.pulls w
               ∧ Pool.jobs w3 = []).
  { done. }
  destruct H3 as (He3 & Ht3 & Hpo3 & Hpu3 & Hj3).
  assert (Hclear : ∀ h w0,
            Pool.emits (Pool.clearTimeout h w0) = Pool.emits w0
            ∧ Pool.pool (Pool.clearTimeout h w0) = Pool.pool w0
            ∧ Pool.pulls (Pool.clearTimeout h w0) = Pool.pulls w0
            ∧ Pool.jobs (Pool.clearTimeout h w0) = Pool.jobs w0
            ∧ (Pool.timers w0 !! t = None → Pool.timers (Pool.clearTimeout h w0) !! t = None)).
  { intros h w0. unfold Pool.clearTimeout. destruct h as [t'|]; [|done].
    repeat (split; [done|]). intros H0. cbn. rewrite lookup_delete. by case_decide. }
  match goal with |- context [Pool.drain (Pool.clearTimeout ?h2 (Pool.clearTimeout ?h1 w3))] =>
    destruct (Hclear h1 w3) as (E1 & P1 & U1 & J1 & T1);
    destruct (Hclear h2 (Pool.clearTimeout h1 w3)) as (E2 & P2 & U2 & J2 & T2)
  end.
  rewrite drain_idle by (by rewrite J2, J1).
  rewrite E2, E1, P2, P1, U2, U1, He3, Hpo3, Hpu3.
  split. { by rewrite lookup_insert_eq. }
  split; [|done]. apply T2, T1. rewrite Ht3. apply lookup_delete_eq.
Qed.

Lemma emit_timeout_rejects_witness :
  ∃ w2, Pool.step (Pool.Fire 0) (Scenario.after Scenario.emitted) = Some w2
        ∧ Pool.promise <$> Pool.emits (Pool.drain w2) !! 0
          = Some (Rejected (ETIMEDOUT "pending event timed out"))
        ∧ Pool.timers (Pool.drain w2) !! 0 = None
        ∧ Pool.pool (Pool.drain w2) = Pool.pool (Scenario.after Scenario.emitted)
        ∧ Pool.pulls (Pool.drain w2) = Pool.pulls (Scenario.after Scenario.emitted).
Proof.
  assert (Hc : ∃ c, Pool.emits (Scenario.after Scenario.emitted) !! 0 = Some c
                    ∧ Pool.promise c = Pending).
  { eexists. split; vm_compute; reflexivity. }
  destruct Hc as (c & Hc & Hp).
  apply (emit_timeout_rejects (Scenario.after Scenario.emitted) 0 0
           "pending event timed out" (Fin 500) c).
  - vm_compute. reflexivity.
  - vm_compute. reflexivity.
  - exact Hc.
  - exact Hp.
Defined.



(** ** The handling timeout *)

Section PoolHandling.
Import Pool Inv.

(** "pulled" on the record of an emitter that waits for its handlers,
    with a finite handling timeout. *)
Lemma signal_pulled_waiting i v w c :
  wf w → emits w !! i = Some c → promise c = Pending →
  waitForHandlers (options (event c)) = true →
  positive_finite (handlingTimeout (options (event c))) = true →
  signalled i Pulled (history w) = false →
  emits (signal i Pulled v w) !! i = Some (with_handlingTimer (Some (nextTimer w)) c)
  ∧ timers (signal i Pulled v w) !! nextTimer w
    = Some (TEmitTimeout i handlingMessage (handlingTimeout (options (event c))))
  ∧ (∀ t, pendingTimer c = Some t → timers (signal i Pulled v w) !! t = None).
Proof.
  intros Hw Hc Hp Hmode Hpf Hun.
  pose proof (wf_listeners w Hw i) as Hl. rewrite Hc in Hl. destruct Hl as [k Hl].
  unfold signal. rewrite Hl. cbn [default from_option]. unfold Datatypes.id.
  rewrite called_shape. unfold called. rewrite Hun, Hmode, Hpf. cbn [negb andb].
  rewrite (bool_decide_eq_false_2 (Pulled = Handled)) by done.
  rewrite (bool_decide_eq_false_2 (Pulled = Failed)) by done.
  rewrite (bool_decide_eq_true_2 (Pulled = Pulled)) by done.
  cbn [andb app repeat].
  set (w0 := set_history _ _).
  assert (H0 : emits w0 = emits w ∧ timers w0 = timers w ∧ nextTimer w0 = nextTimer w)
    by done.
  destruct H0 as (He0 & Ht0 & Hn0).
  assert (Hvar : ∀ t, pendingTimer c = Some t → t < nextTimer w).
  { intros t Ht. destruct (wf_vars w Hw i c Hc) as [H1 _]. by destruct (H1 t Ht). }
  destruct (positive_finite (pendingTimeout (options (event c)))) eqn:Hpp;
    cbn [app run_listeners run_listener].
  - rewrite He0, Hc. cbn [mbind option_bind].
    set (w1 := clearTimeout (pendingTimer c) w0).
    assert (H1 : emits w1 = emits w ∧ nextTimer w1 = nextTimer w
                 ∧ (∀ t, pendingTimer c = Some t → timers w1 !! t = None)).
    { unfold w1, clearTimeout. destruct (pendingTimer c) as [t|]; [|done].
      split; [done|]. split; [done|]. intros t' [= <-]. cbn. apply lookup_delete_eq. }
    destruct H1 as (He1 & Hn1 & Ht1).
    unfold setTimeout. cbn [emits timers set_emits bump_nextTimer set_timers].
    rewrite He1, Hn1. split.
    { by rewrite lookup_alter, decide_True, Hc. }
    split. { by rewrite lookup_insert_eq. }
    intros t Ht. rewrite lookup_insert_ne by (apply Hvar in Ht; lia). by apply Ht1.
  - unfold setTimeout. cbn [emits timers set_emits bump_nextTimer set_timers].
    rewrite He0, Hn0, Ht0. split.
    { by rewrite lookup_alter, decide_True, Hc. }
    split. { by rewrite lookup_insert_eq. }
    intros t Ht. rewrite lookup_insert_ne by (apply Hvar in Ht; lia).
    destruct (timers w !! t) as [a|] eqn:Ha; [|done]. exfalso.
    destruct (wf_vars w Hw i c Hc) as [H1 _]. destruct (H1 t Ht) as [_ Hx].
    destruct (Hx a Ha) as [d ->].
    destruct (wf_timers w Hw t _ Ha) as [_ (c' & Hc' & Hd & Hcase)].
    rewrite Hc in Hc'. injection Hc' as <-.
    destruct Hcase as [(_ & _ & -> & _)|([=] & _)]. congruence.
Qed.

End PoolHandling.

(** X29: "pulled" starts the handling timeout.  In every reachable
    state, when "pulled" is emitted for the first time on the record of
    an emit call that is pending, waits for its handlers and has a
    positive finite [handlingTimeout], the handling timer is armed under
    the next handle with the message of the handling timeout and that
    delay, its handle is stored for the call, and the pending timer of
    the call, if it had one, is cleared. *)
Theorem pulled_arms_handling_timer (w : Pool.World) (i : nat) (payload : jsval)
    (c : Pool.EmitCall) :
  Inv.reachable w →
  Pool.emits w !! i = Some c →
  Pool.promise c = Pending →
  waitForHandlers (Pool.options (Pool.event c)) = true →
  positive_finite (handlingTimeout (Pool.options (Pool.event c))) = true →
  Inv.signalled i Pulled (Pool.history w) = false →
  Pool.handlingTimer <$> Pool.emits (Pool.signal i Pulled payload w) !! i
  = Some (Some (Pool.nextTimer w))
  ∧ Pool.timers (Pool.signal i Pulled payload w) !! Pool.nextTimer w
    = Some (Pool.TEmitTimeout i "event handling timed otu"
              (handlingTimeout (Pool.options (Pool.event c))))
  ∧ (∀ t, Pool.pendingTimer c = Some t →
          Pool.timers (Pool.signal i Pulled payload w) !! t = None).
Proof.
  intros Hw Hc Hp Hmode Hpf Hun. apply wf_reachable in Hw.
  destruct (signal_pulled_waiting i payload w c Hw Hc Hp Hmode Hpf Hun) as (H1 & H2 & H3).
  split; [by rewrite H1|]. split; done.
Qed.

Lemma pulled_arms_handling_timer_witness :
  Pool.handlingTimer
    <$> Pool.emits (Pool.signal 0 Pulled VUndefined (Scenario.after Scenario.emitted)) !! 0
  = Some (Some (Pool.nextTimer (Scenario.after Scenario.emitted)))
  ∧ Pool.timers (Pool.signal 0 Pulled VUndefined (Scenario.after Scenario.emitted))
      !! 0 = None.
Proof.
  assert (Hc : ∃ c, Pool.emits (Scenario.after Scenario.emitted) !! 0 = Some c
                    ∧ Pool.promise c = Pending
                    ∧ waitForHandlers (Pool.options (Pool.event c)) = true
                    ∧ positive_finite (handlingTimeout (Pool.options (Pool.event c))) = true
                    ∧ Pool.pendingTimer c = Some 0).
  { eexists. split; [vm_compute; reflexivity|]. repeat split; vm_compute; reflexivity. }
  destruct Hc as (c & Hc & Hp & Hmode & Hpf & Hpt).
  destruct (pulled_arms_handling_timer (Scenario.after Scenario.emitted) 0 VUndefined c)
    as (H1 & _ & H3).
  - eapply reachable_after. vm_compute. reflexivity.
  - exact Hc.
  - exact Hp.
  - exact Hmode.
  - exact Hpf.
  - vm_compute. reflexivity.
  - split; [exact H1|]. apply H3. exact Hpt.
Defined.

(** ** Two records for a waiting pull *)

Section PoolWakeFirst.
Import Pool Fifo.


End PoolWakeFirst.



(** * The first revision *)

Section LegacyDrain.
Import Legacy.

Lemma legacy_jobs_signal i s v w : jobs (signal i s v w) = jobs w.
Proof.
  unfold signal. generalize (map snd (List.filter (λ x, Signal_eqb x.1 s)
                                        (default [] (listeners w !! i)))).
  intros ls. set (w0 := set_listeners _ w). change (jobs w) with (jobs w0).
  generalize w0. clear. induction ls as [|l ls IH]; intros w; cbn; [done|].
  rewrite IH. destruct l; cbn; unfold settle; by repeat case_match.
Qed.

Lemma legacy_fuel_run_job j rest w :
  jobs w = j :: rest → fuel (run_job j (set_jobs (λ _, rest) w)) < fuel w.
Proof.
  intros Hj.
  assert (Hw : fuel w = weight j + fuel (set_jobs (λ _, rest) w)).
  { unfold fuel. rewrite Hj. cbn. lia. }
  rewrite Hw. generalize (set_jobs (λ _, rest) w). clear. intros w.
  assert (Hen : ∀ x w0, fuel (enqueue x w0) = fuel w0 + weight x).
  { intros x w0. unfold fuel. cbn [jobs enqueue set_jobs].
    rewrite map_app, list_sum_app. cbn [map list_sum]. unfold list_sum. cbn. lia. }
  assert (Hsp : ∀ f w0, fuel (set_pulls f w0) = fuel w0) by done.
  assert (Hsq : ∀ f w0, fuel (set_queues f w0) = fuel w0) by done.
  destruct j as [q|q e|q|q e|q e|q ev]; cbn [run_job weight].
  - unfold settle_race. destruct (pulls w !! q) as [c|]; [|lia].
    destruct (is_pending (waited c)); [|lia]. rewrite Hen, Hsp. cbn [weight]. lia.
  - unfold settle_race. destruct (pulls w !! q) as [c|]; [|lia].
    destruct (is_pending (waited c)); [|lia]. rewrite Hen, Hsp. cbn [weight]. lia.
  - unfold pull_then. destruct (pulls w !! q) as [c|]; [|lia].
    destruct (pending _) as [|ev rest].
    + rewrite Hen. unfold set_waitingSoNotify. rewrite Hsq. cbn [weight]. lia.
    + rewrite Hen. unfold fuel at 1. rewrite legacy_jobs_signal.
      fold (fuel (if waitForResolution c
                  then set_active (recipient c) <[id ev:=ev]>
                         (set_pending (recipient c) rest
                            (set_waitingSoNotify (recipient c) None w))
                  else set_pending (recipient c) rest
                         (set_waitingSoNotify (recipient c) None w))).
      destruct (waitForResolution c);
        unfold set_active, set_pending, set_waitingSoNotify; rewrite !Hsq;
        cbn [weight]; lia.
  - rewrite Hen. cbn [weight]. lia.
  - unfold pull_catch. destruct (pulls w !! q) as [c|]; [|lia].
    unfold set_waitingSoNotify. rewrite Hsp, Hsq. lia.
  - rewrite Hsp. lia.
Qed.

Lemma legacy_tick_idle w : jobs w = [] → tick w = w.
Proof. unfold tick. by intros ->. Qed.

Lemma legacy_iter_tick_idle n w : jobs w = [] → Nat.iter n tick w = w.
Proof.
  intros H. induction n as [|n IH]; [done|].
  rewrite Nat.iter_succ. by rewrite IH, legacy_tick_idle.
Qed.

Lemma legacy_iter_tick_enough n w : fuel w ≤ n → jobs (Nat.iter n tick w) = [].
Proof.
  revert w. induction n as [|n IH]; intros w Hn.
  - cbn. unfold fuel in Hn. destruct (jobs w) as [|j rest]; [done|].
    cbn in Hn. destruct j; cbn in Hn; lia.
  - rewrite Nat.iter_succ_r.
    destruct (jobs w) as [|j rest] eqn:Hj.
    + by rewrite legacy_tick_idle, legacy_iter_tick_idle.
    + apply IH. unfold tick. rewrite Hj.
      pose proof (legacy_fuel_run_job j rest w Hj). lia.
Qed.

Lemma legacy_iter_tick_stable n m w :
  jobs (Nat.iter n tick w) = [] → n ≤ m → Nat.iter m tick w = Nat.iter n tick w.
Proof.
  intros Hn Hm. replace m with ((m - n) + n) by lia.
  rewrite Nat.iter_add. by apply legacy_iter_tick_idle.
Qed.

Lemma legacy_drain_jobs w : jobs (drain w) = [].
Proof. unfold drain. by apply legacy_iter_tick_enough. Qed.



End LegacyDrain.

Section LegacyStubs.
Import Legacy.

Lemma legacy_stub_of_ensure_stub r r' w : stub_of r' (ensure_stub r w) = stub_of r' w.
Proof.
  unfold ensure_stub, stub_of.
  destruct (queues w !! r) eqn:Hr; [done|]. cbn.
  destruct (decide (r = r')) as [->|Hne].
  - by rewrite lookup_insert_eq, Hr.
  - by rewrite lookup_insert_ne.
Qed.


Lemma legacy_stub_of_alter f r r' w :
  stub_of r (set_queues (alter f r') w)
  = if decide (r' = r) then from_option f new_Stub (queues w !! r)
    else stub_of r w.
Proof.
  unfold stub_of. cbn. rewrite lookup_alter.
  case_decide; [subst|done]. by destruct (_ !! r).
Qed.

Lemma legacy_queues_settle p st w : queues (settle p st w) = queues w.
Proof. unfold settle. by repeat case_match. Qed.

Lemma legacy_queues_run_listeners v ls : ∀ w, queues (run_listeners v ls w) = queues w.
Proof.
  induction ls as [|l ls IH]; intros w; cbn; [done|].
  rewrite IH. destruct l; apply legacy_queues_settle.
Qed.

(** A signal touches no queue: nothing is taken out of [active]. *)
Lemma legacy_queues_signal i s v w : queues (signal i s v w) = queues w.
Proof. unfold signal. by rewrite legacy_queues_run_listeners. Qed.


Lemma legacy_active_alter_keep f r r' w i :
  (∀ s, is_Some (active s !! i) → is_Some (active (f s) !! i)) →
  is_Some (active (stub_of r w) !! i) →
  is_Some (active (stub_of r (set_queues (alter f r') w)) !! i).
Proof.
  intros Hf Hi. rewrite legacy_stub_of_alter. case_decide; [subst|done].
  unfold stub_of in Hi. destruct (queues w !! r); [|done]. cbn in Hi |- *. by apply Hf.
Qed.

Lemma legacy_active_call_notifier q w r i :
  is_Some (active (stub_of r w) !! i) →
  is_Some (active (stub_of r (call_notifier q w)) !! i).
Proof. unfold call_notifier. by repeat case_match. Qed.

Lemma legacy_active_emit rid n a w r i :
  is_Some (active (stub_of r w) !! i) →
  is_Some (active (stub_of r (snd (emit rid n a w))) !! i).
Proof.
  intros Hi. unfold emit. destruct (recipient_key rid) as [k|]; [|done]. cbn zeta.
  cbn [snd]. unfold once.
  change (stub_of r (set_listeners ?f ?x)) with (stub_of r x).
  change (stub_of r (set_listeners ?f ?x)) with (stub_of r x).
  change (stub_of r (set_emits ?f ?x)) with (stub_of r x).
  assert (H0 : is_Some (active (stub_of r (set_pending k
                 (pending (stub_of k (ensure_stub k w))
                  ++ [new_Event (nextId (ensure_stub k w)) n a])
                 (bump_nextId (ensure_stub k w)))) !! i)).
  { apply legacy_active_alter_keep; [done|].
    change (stub_of r (bump_nextId ?x)) with (stub_of r x).
    by rewrite legacy_stub_of_ensure_stub. }
  case_match; [by apply legacy_active_call_notifier|done].
Qed.

Lemma legacy_active_pull rid t k w r i :
  is_Some (active (stub_of r w) !! i) →
  is_Some (active (stub_of r (snd (pull rid t k w))) !! i).
Proof.
  intros Hi. unfold pull. destruct (recipient_key rid) as [key|]; [|done]. cbn zeta.
  case_match; cbn [snd].
  - change (is_Some (active (stub_of r (ensure_stub key w)) !! i)).
    by rewrite legacy_stub_of_ensure_stub.
  - change (is_Some (active (stub_of r (set_waitingSoNotify key
              (Some (nextPull (ensure_stub key w))) (ensure_stub key w))) !! i)).
    apply legacy_active_alter_keep; [done|]. by rewrite legacy_stub_of_ensure_stub.
Qed.

Lemma legacy_active_run_job j w r i :
  is_Some (active (stub_of r w) !! i) →
  is_Some (active (stub_of r (run_job j w)) !! i).
Proof.
  intros Hi. destruct j as [q|q e|q|q e|q e|q ev]; cbn [run_job]; try done.
  - unfold settle_race. by repeat case_match.
  - unfold settle_race. by repeat case_match.
  - unfold pull_then. destruct (pulls w !! q) as [c|]; [|done]. cbn zeta.
    set (wa := set_waitingSoNotify (recipient c) None w).
    assert (Ha : is_Some (active (stub_of r wa) !! i)).
    { by apply legacy_active_alter_keep. }
    destruct (pending (stub_of (recipient c) wa)) as [|e rest]; [done|].
    change (stub_of r (enqueue ?x ?y)) with (stub_of r y).
    unfold stub_of. rewrite legacy_queues_signal. fold (stub_of r).
    assert (Hb : is_Some (active (stub_of r (set_pending (recipient c) rest wa)) !! i)).
    { by apply legacy_active_alter_keep. }
    destruct (waitForResolution c); [|done].
    apply legacy_active_alter_keep; [|done].
    intros s Hs. cbn. rewrite lookup_insert. by case_decide.
  - unfold pull_catch. destruct (pulls w !! q) as [c|]; [|done].
    change (is_Some (active (stub_of r (set_waitingSoNotify (recipient c) None w)) !! i)).
    by apply legacy_active_alter_keep.
Qed.

Lemma legacy_active_step l w w' r i :
  step l w = Some w' →
  is_Some (active (stub_of r w) !! i) → is_Some (active (stub_of r w') !! i).
Proof.
  destruct l as [rid n a|rid t k|j s v|t|]; cbn [step].
  - intros [= <-]. apply legacy_active_emit.
  - intros [= <-]. apply legacy_active_pull.
  - case_match; [|done]. intros [= <-]. unfold stub_of.
    by rewrite legacy_queues_signal.
  - destruct (jobs w); [|done]. destruct (timers w !! t) as [[q d]|]; [|done].
    by intros [= <-].
  - destruct (jobs w) as [|j rest]; [done|]. intros [= <-] Hi.
    by apply legacy_active_run_job.
Qed.

End LegacyStubs.



(** X23: in the first revision nothing is ever taken out of [active]: a
    record filed there by a pull with [waitForResolution] stays filed
    through every later call, signal, timer and reaction. *)
Theorem legacy_tracked_records_stay (ls : list Legacy.Label) (v v' : Legacy.World)
    (r : string) (i : nat) :
  Legacy.run ls v = Some v' →
  is_Some (Legacy.active (Legacy.stub_of r v) !! i) →
  is_Some (Legacy.active (Legacy.stub_of r v') !! i).
Proof.
  revert v. induction ls as [|l ls IH]; intros v; cbn [Legacy.run].
  - by intros [= <-].
  - destruct (Legacy.step l v) as [v1|] eqn:Hs; [|done]. cbn. intros Hrun Hi.
    apply (IH v1 Hrun). by apply (legacy_active_step l v).
Qed.

Lemma legacy_tracked_records_stay_witness :
  is_Some (Legacy.active
             (Legacy.stub_of "r" (LegacyScenario.after
                                    (LegacyScenario.tracked ++ LegacyScenario.reported)))
           !! 0).
Proof.
  apply (legacy_tracked_records_stay LegacyScenario.reported
           (LegacyScenario.after LegacyScenario.tracked)).
  - vm_compute. reflexivity.
  - vm_compute. eexists. reflexivity.
Defined.

(** X24: in the first revision, too, the reactions come to an end: from
    any state the microtask queue is empty after at most [fuel] jobs,
    and running longer changes nothing. *)
Theorem legacy_microtasks_run_dry (v : Legacy.World) (n : nat) :
  Legacy.fuel v ≤ n →
  Legacy.jobs (Nat.iter n Legacy.tick v) = []
  ∧ Nat.iter n Legacy.tick v = Legacy.drain v.
Proof.
  intros Hn. split; [by apply legacy_iter_tick_enough|].
  unfold Legacy.drain. apply legacy_iter_tick_stable; [|done].
  by apply legacy_iter_tick_enough.
Qed.

Lemma legacy_microtasks_run_dry_witness :
  Legacy.jobs (Nat.iter 8 Legacy.tick
                 (LegacyScenario.after [Legacy.CallPull (VStr "r") 30000 false;
                                        Legacy.CallEmit (VStr "r") (VStr "job") []])) = []
  ∧ Nat.iter 8 Legacy.tick
      (LegacyScenario.after [Legacy.CallPull (VStr "r") 30000 false;
                             Legacy.CallEmit (VStr "r") (VStr "job") []])
    = Legacy.drain
        (LegacyScenario.after [Legacy.CallPull (VStr "r") 30000 false;
                               Legacy.CallEmit (VStr "r") (VStr "job") []]).
Proof.
  apply (legacy_microtasks_run_dry
           (LegacyScenario.after [Legacy.CallPull (VStr "r") 30000 false;
                                  Legacy.CallEmit (VStr "r") (VStr "job") []]) 8).
  vm_compute. lia.
Defined.

(** ** A pull with nothing pending, in the first revision *)

Section LegacyWake.
Import Legacy.



(** The stub of [r] after a change to it. *)
Lemma legacy_stub_of_alter_eq f r w :
  is_Some (queues w !! r) → stub_of r (set_queues (alter f r) w) = f (stub_of r w).
Proof.
  intros [s Hs]. rewrite legacy_stub_of_alter, decide_True by done.
  unfold stub_of. by rewrite Hs.
Qed.




End LegacyWake.




